(** * REGoth console: command resolution, completion and line history

    A shallow embedding of [src/ui/Console.cpp]: the command registry,
    [Console::determineCommand], [Console::submitCommand],
    [Console::autoComplete], the keys of [Console::onKeyDown] and the
    drawing of [Console::update], followed by the properties the design
    document states about them (C1 to C10) and further properties read off
    the code (X1 to X29). *)

From Stdlib Require Import ZArith Ascii String Lia Bool Sorted.
From stdpp Require Import base tactics option list strings.

Local Open Scope Z_scope.

#[local] Arguments String.append !_ _ : simpl nomatch.

(** ** Exceptions

    The source lets [std::vector::at] throw [std::out_of_range]; command
    callbacks may throw it too, or [std::invalid_argument].  Indexing a
    vector with [operator[]] past its end is undefined behaviour, kept apart
    as [undefined_behaviour]. *)

Inductive Exception : Type :=
| std_out_of_range
| std_invalid_argument
| other_exception
| undefined_behaviour.

Inductive Exceptional (A : Type) : Type :=
| Ok (a : A)
| Throw (e : Exception).

Arguments Ok {A} a.
Arguments Throw {A} e.

#[global] Instance Exceptional_ret : MRet Exceptional := fun _ a => Ok a.

#[global] Instance Exceptional_bind : MBind Exceptional := fun _ _ f m =>
  match m with
  | Ok a => f a
  | Throw e => Throw e
  end.

(** [v.at(i)] on a vector. *)
Definition at_ {A : Type} (v : list A) (i : nat) : Exceptional A :=
  match v !! i with
  | Some a => Ok a
  | None => Throw std_out_of_range
  end.

(** [v[i]] on a vector. *)
Definition subscript {A : Type} (v : list A) (i : nat) : Exceptional A :=
  match v !! i with
  | Some a => Ok a
  | None => Throw undefined_behaviour
  end.

(** ** Machine integers *)

Definition SIZE_MAX : Z := 2 ^ 64 - 1.
Definition INT_MAX : Z := 2 ^ 31 - 1.

(** [std::string::npos]. *)
Definition npos : Z := SIZE_MAX.

(** Arithmetic on [std::size_t] wraps modulo 2^64. *)
Definition size_t_wrap (z : Z) : Z := z mod 2 ^ 64.

(** Conversion of a [std::size_t] to [int] (32 bits, two's complement). *)
Definition static_cast_int (z : Z) : Z :=
  (z + 2 ^ 31) mod 2 ^ 32 - 2 ^ 31.

(** Conversion of an [int] to [std::size_t]. *)
Definition size_t_of_int (z : Z) : Z := size_t_wrap z.

(** ** Strings *)

Definition size (s : string) : Z := Z.of_nat (String.length s).

(** [isspace] in the "C" locale. *)
Definition isspace (c : ascii) : bool :=
  let n := nat_of_ascii c in
  (Nat.eqb n 32 || (Nat.leb 9 n && Nat.leb n 13))%bool.

Definition tolower (c : ascii) : ascii :=
  let n := nat_of_ascii c in
  if (Nat.leb 65 n && Nat.leb n 90)%bool then ascii_of_nat (n + 32) else c.

(** Modelled from the spec: [Utils::lower] (utils/Utils.h is not part of the
    sources at hand), the in-place "ASCII-centric case folding" that makes
    matching case-insensitive. *)
Fixpoint lower (s : string) : string :=
  match s with
  | EmptyString => EmptyString
  | String c s' => String (tolower c) (lower s')
  end.

(** Modelled from the spec: [Utils::commonStartLength] (utils/Utils.h is not
    part of the sources at hand), "the longest common prefix length" of two
    strings. *)
Fixpoint commonStartLength (a b : string) : Z :=
  match a, b with
  | String x a', String y b' =>
      if Ascii.eqb x y then 1 + commonStartLength a' b' else 0
  | _, _ => 0
  end.

(** [t] stands at the start of [s]. *)
Fixpoint isPrefix (t s : string) : bool :=
  match t, s with
  | EmptyString, _ => true
  | String _ _, EmptyString => false
  | String x t', String y s' => (Ascii.eqb x y && isPrefix t' s')%bool
  end.

(** [s.find(t)] searching from [from]: the lowest position at which [t]
    occurs in [s], or [npos]. *)
Fixpoint find_from (s t : string) (from : nat) : Z :=
  if isPrefix t s then Z.of_nat from
  else match s with
       | EmptyString => npos
       | String _ s' => find_from s' t (S from)
       end.

Definition find (s t : string) : Z := find_from s t 0.

(** [s.substr(0, n)]. *)
Definition substr0 (s : string) (n : Z) : string :=
  String.substring 0 (Z.to_nat n) s.

(** [s.find_first_not_of(c)]. *)
Fixpoint find_first_not_of_from (s : string) (c : ascii) (from : nat) : Z :=
  match s with
  | EmptyString => npos
  | String x s' =>
      if Ascii.eqb x c then find_first_not_of_from s' c (S from)
      else Z.of_nat from
  end.

Definition find_first_not_of (s : string) (c : ascii) : Z :=
  find_first_not_of_from s c 0.

(** [s.back()]; the source only calls it on a non-empty string. *)
Fixpoint back (s : string) : Exceptional ascii :=
  match s with
  | EmptyString => Throw undefined_behaviour
  | String c EmptyString => Ok c
  | String _ s' => back s'
  end.

(** Modelled from the spec: [Utils::findNameInGroups] (utils/Utils.h is not
    part of the sources at hand).  It tests whether the name "equals
    (case-sensitively, exact full-string match, not prefix/substring) any
    alias in any group"; the caller tests the returned group with [empty()],
    so the group that holds the name is returned, and an empty group when
    there is none. *)
Fixpoint findNameInGroups (groups : list (list string)) (name : string)
  : list string :=
  match groups with
  | [] => []
  | group :: rest =>
      if existsb (String.eqb name) group then group
      else findNameInGroups rest name
  end.

(** ** The command registry *)

Section Console.

(** The engine state the generators and callbacks close over. *)
Context {World : Type}.

(** [UI::ConsoleCommand::CandidateListGenerator]: called afresh at every use,
    it reads the live state and returns alias groups. *)
Definition CandidateListGenerator : Type := World -> list (list string).

(** What running a callback that lives outside the console does: it may
    change the engine state, add lines to the console output through
    [outputAdd], and returns its text or throws. *)
Definition ExternalCallback : Type :=
  list string -> World -> World * list string * Exceptional string.

(** [UI::ConsoleCommand::Callback].  The callback of the built-in "list"
    command captures the console itself and is interpreted by
    [runCallback]. *)
Inductive Callback : Type :=
| ListCommands
| External (f : ExternalCallback).

Record ConsoleCommand : Type := mkConsoleCommand {
  generators : list CandidateListGenerator;
  callback : Callback;
  numFixTokens : nat
}.

(** The data model's bound on a command: its fixed tokens are among the
    positions it has generators for. *)
Definition arity_ok (command : ConsoleCommand) : Prop :=
  (numFixTokens command <= length (generators command))%nat.

Record Console : Type := mkConsole {
  m_Config_height : Z;
  m_HistoryIndex : Z;
  m_IsOpen : bool;
  m_History : list string;
  m_PendingLine : string;
  m_TypedLine : string;
  m_Output : list string;
  m_Commands : list string;
  m_CommandCallbacks : list Callback;
  m_Commands2 : list ConsoleCommand
}.

Definition set_HistoryIndex (c : Console) (i : Z) : Console :=
  mkConsole (m_Config_height c) i (m_IsOpen c) (m_History c)
    (m_PendingLine c) (m_TypedLine c) (m_Output c) (m_Commands c)
    (m_CommandCallbacks c) (m_Commands2 c).

(** [setOpen], declared in Console.h with [isOpen]: taken to assign
    [m_IsOpen]. *)
Definition set_IsOpen (c : Console) (b : bool) : Console :=
  mkConsole (m_Config_height c) (m_HistoryIndex c) b (m_History c)
    (m_PendingLine c) (m_TypedLine c) (m_Output c) (m_Commands c)
    (m_CommandCallbacks c) (m_Commands2 c).

Definition set_History (c : Console) (h : list string) : Console :=
  mkConsole (m_Config_height c) (m_HistoryIndex c) (m_IsOpen c) h
    (m_PendingLine c) (m_TypedLine c) (m_Output c) (m_Commands c)
    (m_CommandCallbacks c) (m_Commands2 c).

Definition set_PendingLine (c : Console) (s : string) : Console :=
  mkConsole (m_Config_height c) (m_HistoryIndex c) (m_IsOpen c) (m_History c)
    s (m_TypedLine c) (m_Output c) (m_Commands c)
    (m_CommandCallbacks c) (m_Commands2 c).

Definition set_TypedLine (c : Console) (s : string) : Console :=
  mkConsole (m_Config_height c) (m_HistoryIndex c) (m_IsOpen c) (m_History c)
    (m_PendingLine c) s (m_Output c) (m_Commands c)
    (m_CommandCallbacks c) (m_Commands2 c).

Definition set_Output (c : Console) (o : list string) : Console :=
  mkConsole (m_Config_height c) (m_HistoryIndex c) (m_IsOpen c) (m_History c)
    (m_PendingLine c) (m_TypedLine c) o (m_Commands c)
    (m_CommandCallbacks c) (m_Commands2 c).

(** [Console::outputAdd]: [m_Output.push_front(msg)]. *)
Definition outputAdd (c : Console) (msg : string) : Console :=
  set_Output c (msg :: m_Output c).

(** [Console::registerCommand]. *)
Definition registerCommand (c : Console) (command : string) (cb : Callback)
  : Console :=
  mkConsole (m_Config_height c) (m_HistoryIndex c) (m_IsOpen c) (m_History c)
    (m_PendingLine c) (m_TypedLine c) (m_Output c) (m_Commands c ++ [command])
    (m_CommandCallbacks c ++ [cb]) (m_Commands2 c).

(** [Console::registerCommand2]. *)
Definition registerCommand2 (c : Console)
  (gens : list CandidateListGenerator) (numFix : nat) (cb : Callback)
  : Console :=
  mkConsole (m_Config_height c) (m_HistoryIndex c) (m_IsOpen c) (m_History c)
    (m_PendingLine c) (m_TypedLine c) (m_Output c) (m_Commands c)
    (m_CommandCallbacks c)
    (m_Commands2 c ++ [mkConsoleCommand gens cb numFix]).

(** The generator of the "list" token in [Console::Console]. *)
Definition listTokenGen : CandidateListGenerator := fun _ => [["list"]].

(** [Console::Console].  The members the constructor does not assign start
    empty. *)
Definition Console_new : Console :=
  let c := mkConsole 10 0 false [] "" "" [] [] [] [] in
  let c := outputAdd c " ----------- REGoth Console -----------" in
  registerCommand2 c [listTokenGen] 1 ListCommands.

(** ** [Console::determineCommand] *)

(** One call of a generator: the command's index and the token position. *)
Definition GeneratorCall : Type := (nat * nat)%type.

(** The inner loop over the fixed token positions, from [tokenID] on with
    [remaining] positions to go.  A position that does not match clears
    [allStagesMatched] and the loop goes on.  The calls made are recorded. *)
Fixpoint matchFixTokens (w : World) (command : ConsoleCommand) (commID : nat)
  (tokens : list string) (tokenID remaining : nat) (allStagesMatched : bool)
  : list GeneratorCall * Exceptional bool :=
  match remaining with
  | O => ([], Ok allStagesMatched)
  | S remaining' =>
      match at_ (generators command) tokenID, at_ tokens tokenID with
      | Ok generator, Ok token =>
          let group := findNameInGroups (generator w) token in
          let matched := match group with
                         | [] => false
                         | _ => allStagesMatched
                         end in
          let '(calls, r) :=
            matchFixTokens w command commID tokens (S tokenID) remaining'
              matched in
          ((commID, tokenID) :: calls, r)
      | Throw e, _ => ([], Throw e)
      | Ok _, Throw e => ([], Throw e)
      end
  end.

(** The loop over the commands, from index [commID] on. *)
Fixpoint determineCommand_from (w : World) (commands : list ConsoleCommand)
  (commID : nat) (tokens : list string)
  : list GeneratorCall * Exceptional Z :=
  match commands with
  | [] => ([], Ok (-1))
  | command :: rest =>
      if (length tokens <? numFixTokens command)%nat
      then determineCommand_from w rest (S commID) tokens
      else
        match matchFixTokens w command commID tokens 0
                (numFixTokens command) true with
        | (calls, Ok true) =>
            (calls, Ok (static_cast_int (Z.of_nat commID)))
        | (calls, Ok false) =>
            let '(calls', r) :=
              determineCommand_from w rest (S commID) tokens in
            (calls ++ calls', r)
        | (calls, Throw e) => (calls, Throw e)
        end
  end.

Definition determineCommand (w : World) (commands : list ConsoleCommand)
  (tokens : list string) : list GeneratorCall * Exceptional Z :=
  determineCommand_from w commands 0 tokens.

(** A token position matches when the token is an alias of a group that the
    command's generator returns at that position. *)
Definition tokenMatches (w : World) (command : ConsoleCommand)
  (tokens : list string) (i : nat) : Prop :=
  exists generator token group,
    generators command !! i = Some generator /\
    tokens !! i = Some token /\
    In group (generator w) /\ In token group.

(** A command matches when each of its fixed tokens does. *)
Definition fixedTokensMatch (w : World) (command : ConsoleCommand)
  (tokens : list string) : Prop :=
  forall i, (i < numFixTokens command)%nat -> tokenMatches w command tokens i.

(** ** [Console::autoComplete] *)

Record MatchInfo : Type := mkMatchInfo {
  pos : Z;
  notMatchingCharCount : Z;
  commandID : nat;
  groupID : nat;
  candidate : string;
  candidateLowered : string
}.

(** [MatchInfo::compare]. *)
Definition MatchInfo_compare (a b : MatchInfo) : bool :=
  if negb (pos a =? pos b) then pos a <? pos b
  else notMatchingCharCount a <? notMatchingCharCount b.

Fixpoint sort_insert (x : MatchInfo) (sorted : list MatchInfo)
  : list MatchInfo :=
  match sorted with
  | [] => [x]
  | y :: sorted' =>
      if MatchInfo_compare y x then y :: sort_insert x sorted'
      else x :: y :: sorted'
  end.

(** [std::sort(first, last, MatchInfo::compare)].  The standard leaves the
    order of equivalent elements open; here they keep the order they had
    (an insertion sort).  The properties below use the sorted range through
    its elements, its length and the minimality of its front; the one that
    depends on the order of equivalent elements is stated for every sort,
    with [autoComplete_with]. *)
Fixpoint std_sort (v : list MatchInfo) : list MatchInfo :=
  match v with
  | [] => []
  | x :: v' => sort_insert x (std_sort v')
  end.

(** Reading [std::istream_iterator<std::string>] to the end: the maximal
    runs of non-space characters.  [current] is the token being read. *)
Fixpoint istream_tokens (s : string) (current : string) : list string :=
  match s with
  | EmptyString =>
      match current with
      | EmptyString => []
      | _ => [current]
      end
  | String ch s' =>
      if isspace ch then
        match current with
        | EmptyString => istream_tokens s' ""
        | _ => current :: istream_tokens s' ""
        end
      else istream_tokens s' (current +:+ String ch "")
  end.

(** The [MatchInfo] built for one alias of a group. *)
Definition makeMatchInfo (token : string) (cmdID groupID : nat)
  (alias : string) : MatchInfo :=
  let lowered := lower alias in
  let pos := find lowered token in
  let diff := size_t_wrap (size lowered - size token) in
  mkMatchInfo pos diff cmdID groupID alias lowered.

(** The loop over the alias groups of one generator.  Every group's best
    match goes to the bucket its position asks for. *)
Fixpoint groupLoop (token : string) (cmdID groupID : nat)
  (groups : list (list string))
  (matchInfosStartsWith matchInfosInMiddle : list MatchInfo)
  : Exceptional (list MatchInfo * list MatchInfo) :=
  match groups with
  | [] => Ok (matchInfosStartsWith, matchInfosInMiddle)
  | aliasGroup :: rest =>
      match aliasGroup with
      | [] =>
          groupLoop token cmdID (S groupID) rest
            matchInfosStartsWith matchInfosInMiddle
      | _ =>
          let groupInfos :=
            std_sort (map (makeMatchInfo token cmdID groupID) aliasGroup) in
          bestMatch ← at_ groupInfos 0;
          if pos bestMatch =? 0 then
            groupLoop token cmdID (S groupID) rest
              (matchInfosStartsWith ++ [bestMatch]) matchInfosInMiddle
          else if negb (pos bestMatch =? npos) then
            groupLoop token cmdID (S groupID) rest
              matchInfosStartsWith (matchInfosInMiddle ++ [bestMatch])
          else
            groupLoop token cmdID (S groupID) rest
              matchInfosStartsWith matchInfosInMiddle
      end
  end.

Definition cmdEnd (limitToFixed : bool) (command : ConsoleCommand) : nat :=
  if limitToFixed then numFixTokens command
  else length (generators command).

(** What the loop over the commands carries: the alive flags, the two
    buckets and [allGroups]. *)
Record Collected : Type := mkCollected {
  commandIsAlive : list bool;
  startsWith : list MatchInfo;
  inMiddle : list MatchInfo;
  allGroups : list (list (list string))
}.

(** The loop over the commands for one token.  A command that is alive and
    has a position [tokenID] is marked dead and its generator is called;
    [allGroups[cmdID]] receives the groups in the order returned. *)
Fixpoint commandLoop (w : World) (limitToFixed : bool) (token : string)
  (tokenID : nat) (commands : list ConsoleCommand) (cmdID : nat)
  (st : Collected) : Exceptional Collected :=
  match commands with
  | [] => Ok st
  | command :: rest =>
      isAlive ← subscript (commandIsAlive st) cmdID;
      if (isAlive && (tokenID <? cmdEnd limitToFixed command)%nat)%bool then
        let alive := <[cmdID := false]> (commandIsAlive st) in
        candidateGenerator ← subscript (generators command) tokenID;
        let groups := candidateGenerator w in
        buckets ← groupLoop token cmdID 0 groups (startsWith st) (inMiddle st);
        commandLoop w limitToFixed token tokenID rest (S cmdID)
          (mkCollected alive buckets.1 buckets.2
             (<[cmdID := groups]> (allGroups st)))
      else
        commandLoop w limitToFixed token tokenID rest (S cmdID) st
  end.

(** The loop over one bucket: its commands are marked alive again, and the
    common length and the longest candidate are folded. *)
Fixpoint bucketLoop (reference : string) (matchInfos : list MatchInfo)
  (alive : list bool) (commonLength longestCandidateLen : Z)
  : list bool * Z * Z :=
  match matchInfos with
  | [] => (alive, commonLength, longestCandidateLen)
  | matchInfo :: rest =>
      bucketLoop reference rest
        (<[commandID matchInfo := true]> alive)
        (Z.min (commonStartLength reference (candidateLowered matchInfo))
           commonLength)
        (Z.max longestCandidateLen (size (candidateLowered matchInfo)))
  end.

(** The body run for the bucket that is used; [front] is its first entry. *)
Definition processBucket (front : MatchInfo) (matchInfos : list MatchInfo)
  (tokenID : nat) (alive : list bool) (newTokens : list (string * bool))
  : list bool * list (string * bool) :=
  let reference := candidateLowered front in
  let '(alive, commonLength, longestCandidateLen) :=
    bucketLoop reference matchInfos alive (size reference) (size reference) in
  if negb (commonLength =? 0) then
    let tokenNew := substr0 (candidate front) commonLength in
    let thereIsNoLongerCandidate := longestCandidateLen =? size tokenNew in
    (alive, <[tokenID := (tokenNew, thereIsNoLongerCandidate)]> newTokens)
  else (alive, newTokens).

(** The loop over the two buckets: the first one that is not empty is
    processed and the loop ends. *)
Definition selectBucket (matchInfosStartsWith matchInfosInMiddle : list MatchInfo)
  (tokenID : nat) (alive : list bool) (newTokens : list (string * bool))
  : list bool * list (string * bool) :=
  match matchInfosStartsWith, matchInfosInMiddle with
  | front :: _, _ =>
      processBucket front matchInfosStartsWith tokenID alive newTokens
  | [], front :: _ =>
      processBucket front matchInfosInMiddle tokenID alive newTokens
  | [], [] => (alive, newTokens)
  end.

(** [ss << std::left << std::setw(40) << alias]. *)
Definition setw40 (alias : string) : string :=
  alias +:+ String.concat "" (replicate (40 - String.length alias) " ").

(** The line logged for one match: every alias of its group. *)
Definition suggestionLine (groups : list (list (list string)))
  (matchInfo : MatchInfo) : Exceptional string :=
  ofCommand ← subscript groups (commandID matchInfo);
  group ← subscript ofCommand (groupID matchInfo);
  Ok (String.concat "" (map setw40 group)).

Fixpoint suggestionLines (groups : list (list (list string)))
  (matchInfos : list MatchInfo) : Exceptional (list string) :=
  match matchInfos with
  | [] => Ok []
  | matchInfo :: rest =>
      line ← suggestionLine groups matchInfo;
      lines ← suggestionLines groups rest;
      Ok (line :: lines)
  end.

(** The lines sent to [LogInfo()] for one token. *)
Definition suggestions (st : Collected) : Exceptional (list string) :=
  first ← suggestionLines (allGroups st) (std_sort (startsWith st));
  second ← suggestionLines (allGroups st) (std_sort (inMiddle st));
  Ok ("suggestions:" :: first ++ second).

(** The body of the loop over the tokens, for the token at [tokenID]. *)
Definition tokenStep (w : World) (commands : list ConsoleCommand)
  (limitToFixed showSuggestions : bool) (tokenID : nat) (token : string)
  (alive : list bool) (newTokens : list (string * bool))
  : Exceptional (list bool * list (string * bool) * list string) :=
  st ← commandLoop w limitToFixed token tokenID commands 0
         (mkCollected alive [] [] (replicate (length commands) []));
  let '(alive, newTokens) :=
    selectBucket (startsWith st) (inMiddle st) tokenID
      (commandIsAlive st) newTokens in
  logged ← (if showSuggestions then suggestions st else Ok []);
  Ok (alive, newTokens, logged).

Fixpoint tokenLoop (w : World) (commands : list ConsoleCommand)
  (limitToFixed showSuggestions : bool) (tokens : list string)
  (tokenID : nat) (alive : list bool) (newTokens : list (string * bool))
  : Exceptional (list (string * bool) * list string) :=
  match tokens with
  | [] => Ok (newTokens, [])
  | token :: rest =>
      r ← tokenStep w commands limitToFixed showSuggestions tokenID token
            alive newTokens;
      let '(alive, newTokens, logged) := r in
      r' ← tokenLoop w commands limitToFixed showSuggestions rest
             (S tokenID) alive newTokens;
      Ok (r'.1, logged ++ r'.2)
  end.

(** The loop that writes the tokens back, a space after each one that is
    not the last, or when the input ended in a space, or when the token has
    no longer candidate. *)
Fixpoint tokenConCat (newTokens : list (string * bool))
  (inputEndsInSpace : bool) : string :=
  match newTokens with
  | [] => ""
  | (tokenNew, noLongerMatch) :: rest =>
      let notLast := match rest with [] => false | _ => true end in
      tokenNew
      +:+ (if (notLast || inputEndsInSpace || noLongerMatch)%bool
           then " " else "")
      +:+ tokenConCat rest inputEndsInSpace
  end.

(** [Console::autoComplete].  The result is the line [input] refers to
    when the call returns, and the lines logged. *)
Definition autoComplete (w : World) (commands : list ConsoleCommand)
  (input : string) (limitToFixed showSuggestions overwriteInput : bool)
  : Exceptional (string * list string) :=
  let tokens := istream_tokens input "" in
  match tokens with
  | [] => Ok (input, [])
  | _ =>
      let newTokens := map (fun token => (token, false)) tokens in
      let tokens := map lower tokens in
      let alive := replicate (length commands) true in
      r ← tokenLoop w commands limitToFixed showSuggestions tokens 0
            alive newTokens;
      if overwriteInput then
        last ← back input;
        Ok (tokenConCat r.1 (isspace last), r.2)
      else Ok (input, r.2)
  end.

(** ** The built-in "list" command *)

(** The loop over the groups of one generator: the first alias of each
    group, the groups separated by a slash. *)
Fixpoint listGroups (groups : list (list string)) (isFirst : bool)
  : Exceptional string :=
  match groups with
  | [] => Ok ""
  | group :: rest =>
      alias ← subscript group 0;
      others ← listGroups rest false;
      Ok ((if isFirst then "" else "/") +:+ alias +:+ others)
  end.

(** The loop over the generators of one command, up to [numFix]. *)
Fixpoint listGenerators (w : World) (gens : list CandidateListGenerator)
  (numFix index : nat) : Exceptional string :=
  match gens with
  | [] => Ok ""
  | generator :: rest =>
      if (numFix <=? index)%nat then Ok ""
      else
        names ← listGroups (generator w) true;
        others ← listGenerators w rest numFix (S index);
        Ok ((if (index =? 0)%nat then "" else " ") +:+ names +:+ others)
  end.

(** The loop over [m_Commands2]: one output line for each command. *)
Fixpoint listCommands (w : World) (commands : list ConsoleCommand)
  (c : Console) : Console * Exceptional string :=
  match commands with
  | [] => (c, Ok "")
  | command :: rest =>
      match listGenerators w (generators command) (numFixTokens command) 0 with
      | Ok line => listCommands w rest (outputAdd c line)
      | Throw e => (c, Throw e)
      end
  end.

Definition runCallback (cb : Callback) (args : list string) (c : Console)
  (w : World) : Console * World * Exceptional string :=
  match cb with
  | ListCommands =>
      let '(c, r) := listCommands w (m_Commands2 c) c in (c, w, r)
  | External f =>
      let '(w, lines, r) := f args w in (foldl outputAdd c lines, w, r)
  end.

(** ** [Console::submitCommand] *)

(** [Utils::split] of ZenLib, which is not part of the sources at hand. *)
Context (split : string -> ascii -> list string).

(** The try block around a callback: [std::out_of_range] and
    [std::invalid_argument] become the result text, which is added to the
    output; any other exception leaves the function. *)
Definition dispatch (found : Exceptional Callback) (args : list string)
  (c : Console) (w : World) : Console * World * Exceptional string :=
  let '(c, w, r) :=
    match found with
    | Ok cb => runCallback cb args c w
    | Throw e => (c, w, Throw e)
    end in
  match r with
  | Ok result => (outputAdd c result, w, Ok result)
  | Throw std_out_of_range =>
      let result := "error: argument out of range" in
      (outputAdd c result, w, Ok result)
  | Throw std_invalid_argument =>
      let result := "error: invalid argument" in
      (outputAdd c result, w, Ok result)
  | Throw e => (c, w, Throw e)
  end.

(** Whether it "makes sense to compare": the input has the candidate's
    length, or is longer and has a space right after it. *)
Definition endsOnBoundary (input candidate : string) : bool :=
  ((size input =? size candidate)
   || ((size candidate <? size input)
       && match String.get (String.length candidate) input with
          | Some ch => Ascii.eqb ch " "
          | None => false
          end))%bool.

Definition legacyMatches (input candidate : string) : bool :=
  (endsOnBoundary input candidate
   && String.eqb candidate (substr0 input (size candidate)))%bool.

(** The loop of the old command system over [m_Commands], from index [i]
    on; the result is [bestMatchIndex]. *)
Fixpoint legacyLoop (commands : list string) (input : string) (i : nat)
  (bestMatchSize bestMatchIndex : Z) : Z :=
  match commands with
  | [] => bestMatchIndex
  | candidate :: rest =>
      if size candidate <? bestMatchSize then
        legacyLoop rest input (S i) bestMatchSize bestMatchIndex
      else if legacyMatches input candidate then
        legacyLoop rest input (S i) (size candidate)
          (static_cast_int (Z.of_nat i))
      else
        legacyLoop rest input (S i) bestMatchSize bestMatchIndex
  end.

Definition legacyBestMatch (commands : list string) (input : string) : Z :=
  legacyLoop commands input 0 0 (-1).

(** The first statement of [submitCommand]: the line is stored unless it
    holds nothing but spaces or repeats the last entry. *)
Definition historyPush (history : list string) (command : string)
  : list string :=
  if (negb (find_first_not_of command " " =? npos)
      && match last history with
         | None => true
         | Some newest => negb (String.eqb newest command)
         end)%bool
  then history ++ [command]
  else history.

Definition submitCommand (c : Console) (w : World) (command : string)
  : Console * World * Exceptional string :=
  let c := set_History c (historyPush (m_History c) command) in
  let c := set_HistoryIndex c (-1) in
  let c := set_PendingLine c "" in
  if String.eqb command "" then (c, w, Ok "")
  else
    let commandAutoCompleted := command in
    let c := outputAdd c (" >> " +:+ commandAutoCompleted) in
    let args := split commandAutoCompleted " " in
    match (determineCommand w (m_Commands2 c) args).2 with
    | Throw e => (c, w, Throw e)
    | Ok commID =>
        if negb (commID =? -1) then
          dispatch
            (command ← at_ (m_Commands2 c) (Z.to_nat (size_t_of_int commID));
             Ok (callback command))
            args c w
        else
          let bestMatchIndex :=
            legacyBestMatch (m_Commands c) commandAutoCompleted in
          if 0 <=? bestMatchIndex then
            dispatch
              (at_ (m_CommandCallbacks c)
                 (Z.to_nat (size_t_of_int bestMatchIndex)))
              args c w
          else
            (outputAdd c " -- Command not found -- ", w, Ok "NOTFOUND")
    end.

(** ** [Console::onKeyDown] and [Console::onTextInput] *)

Definition GLFW_KEY_ESCAPE : Z := 256.
Definition GLFW_KEY_ENTER : Z := 257.
Definition GLFW_KEY_TAB : Z := 258.
Definition GLFW_KEY_BACKSPACE : Z := 259.
Definition GLFW_KEY_DOWN : Z := 264.
Definition GLFW_KEY_UP : Z := 265.
Definition GLFW_KEY_F10 : Z := 299.

(** [m_History.at(m_History.size() - m_HistoryIndex - 1)]. *)
Definition historyAt (c : Console) : Exceptional string :=
  at_ (m_History c)
    (Z.to_nat (size_t_wrap
       (Z.of_nat (length (m_History c)) - size_t_of_int (m_HistoryIndex c) - 1))).

(** [s.pop_back()] on a non-empty string. *)
Fixpoint pop_back (s : string) : string :=
  match s with
  | EmptyString => EmptyString
  | String _ EmptyString => EmptyString
  | String ch s' => String ch (pop_back s')
  end.

(** What a key press leaves behind: the console, the engine state, the
    lines logged, and whether an exception left the handler. *)
Definition KeyResult : Type :=
  (Console * World * list string * Exceptional unit)%type.

Definition onKeyDown (c : Console) (w : World) (glfwKey : Z) : KeyResult :=
  let c := if glfwKey =? GLFW_KEY_ESCAPE then set_IsOpen c false else c in
  let c := if glfwKey =? GLFW_KEY_F10 then set_IsOpen c (negb (m_IsOpen c))
           else c in
  if glfwKey =? GLFW_KEY_UP then
    let historySize := static_cast_int (Z.of_nat (length (m_History c))) in
    if m_HistoryIndex c + 1 <? historySize then
      let c := if m_HistoryIndex c <? 0
               then set_PendingLine c (m_TypedLine c) else c in
      let c := set_HistoryIndex c (m_HistoryIndex c + 1) in
      match historyAt c with
      | Ok line => (set_TypedLine c line, w, [], Ok ())
      | Throw e => (c, w, [], Throw e)
      end
    else (c, w, [], Ok ())
  else if glfwKey =? GLFW_KEY_DOWN then
    if 0 <=? m_HistoryIndex c then
      let c := set_HistoryIndex c (m_HistoryIndex c - 1) in
      if m_HistoryIndex c <? 0 then
        (set_TypedLine c (m_PendingLine c), w, [], Ok ())
      else
        match historyAt c with
        | Ok line => (set_TypedLine c line, w, [], Ok ())
        | Throw e => (c, w, [], Throw e)
        end
    else (c, w, [], Ok ())
  else if glfwKey =? GLFW_KEY_BACKSPACE then
    if 1 <=? size (m_TypedLine c)
    then (set_TypedLine c (pop_back (m_TypedLine c)), w, [], Ok ())
    else (c, w, [], Ok ())
  else if glfwKey =? GLFW_KEY_ENTER then
    match submitCommand c w (m_TypedLine c) with
    | (c, w, Ok _) => (set_TypedLine c "", w, [], Ok ())
    | (c, w, Throw e) => (c, w, [], Throw e)
    end
  else if glfwKey =? GLFW_KEY_TAB then
    match autoComplete w (m_Commands2 c) (m_TypedLine c) false true true with
    | Ok (line, logged) => (set_TypedLine c line, w, logged, Ok ())
    | Throw e => (c, w, [], Throw e)
    end
  else (c, w, [], Ok ()).

(** [Console::onTextInput]. *)
Definition onTextInput (c : Console) (text : string) : Console :=
  set_TypedLine c (m_TypedLine c +:+ text).

(** ** Runs of the console

    The calls the engine makes on a console, and the run of a sequence of
    them from a given state.  A call an exception leaves is followed by the
    next one: the engine goes on with the state the call left. *)
Inductive Call : Type :=
| CallSubmitCommand (command : string)
| CallKeyDown (glfwKey : Z)
| CallTextInput (text : string)
| CallRegisterCommand (command : string) (cb : ExternalCallback)
| CallRegisterCommand2 (gens : list CandidateListGenerator) (numFix : nat)
    (cb : ExternalCallback).

Definition call (st : Console * World) (op : Call) : Console * World :=
  let '(c, w) := st in
  match op with
  | CallSubmitCommand command =>
      let '(c, w, _) := submitCommand c w command in (c, w)
  | CallKeyDown glfwKey =>
      let '(c, w, _, _) := onKeyDown c w glfwKey in (c, w)
  | CallTextInput text => (onTextInput c text, w)
  | CallRegisterCommand command cb =>
      (registerCommand c command (External cb), w)
  | CallRegisterCommand2 gens numFix cb =>
      (registerCommand2 c gens numFix (External cb), w)
  end.

Definition run (st : Console * World) (ops : list Call) : Console * World :=
  foldl call st ops.

(** ** Predicates of the statements below *)

(** A string a [std::string] can hold: every position in it, and its size,
    is below [npos]. *)
Definition representable (s : string) : Prop := size s < npos.

(** The line holds nothing but space characters; the empty line does. *)
Fixpoint onlySpaces (line : string) : bool :=
  match line with
  | EmptyString => true
  | String ch rest => (Ascii.eqb ch " " && onlySpaces rest)%bool
  end.

(** The line holds nothing but characters [isspace] accepts. *)
Fixpoint onlyWhitespace (line : string) : bool :=
  match line with
  | EmptyString => true
  | String ch rest => (isspace ch && onlyWhitespace rest)%bool
  end.

(** No entry of the history equals the one right after it. *)
Definition noRepeat (history : list string) : Prop :=
  forall i older newer,
    history !! i = Some older -> history !! S i = Some newer ->
    older <> newer.

(** The history index is -1 or the index of an entry. *)
Definition indexInRange (c : Console) : Prop :=
  -1 <= m_HistoryIndex c <= Z.of_nat (length (m_History c)) - 1.

(** Two consoles that differ in their output at most. *)
Definition sameButOutput (c c' : Console) : Prop :=
  m_Config_height c' = m_Config_height c /\
  m_HistoryIndex c' = m_HistoryIndex c /\
  m_IsOpen c' = m_IsOpen c /\
  m_History c' = m_History c /\
  m_PendingLine c' = m_PendingLine c /\
  m_TypedLine c' = m_TypedLine c /\
  m_Commands c' = m_Commands c /\
  m_CommandCallbacks c' = m_CommandCallbacks c /\
  m_Commands2 c' = m_Commands2 c.

(** The candidate is "an exact prefix of the input ending on a token
    boundary": the input is the candidate, or the candidate followed by a
    space and more. *)
Definition boundaryPrefix (candidate input : string) : Prop :=
  input = candidate \/ exists rest, input = candidate +:+ " " +:+ rest.

(** ** What the loops of [autoComplete] compute

    The loops above are restated as list functions; the lemmas of the second
    part relate the two. *)

(** An alias group with the indices of its command and of itself. *)
Definition GroupRef : Type := (nat * nat * list string)%type.

Fixpoint indexedGroups (cmdID groupID : nat) (groups : list (list string))
  : list GroupRef :=
  match groups with
  | [] => []
  | aliasGroup :: rest =>
      (cmdID, groupID, aliasGroup) :: indexedGroups cmdID (S groupID) rest
  end.

(** The best match of a group for a token: the front of its sorted matches;
    an empty group has none. *)
Definition bestMatchOf (token : string) (ref : GroupRef) : option MatchInfo :=
  head (std_sort (map (makeMatchInfo token ref.1.1 ref.1.2) ref.2)).

Definition bestMatches (token : string) (refs : list GroupRef)
  : list MatchInfo :=
  omap (bestMatchOf token) refs.

Definition isStartsWith (matchInfo : MatchInfo) : bool :=
  pos matchInfo =? 0.

Definition isInMiddle (matchInfo : MatchInfo) : bool :=
  (negb (pos matchInfo =? 0) && negb (pos matchInfo =? npos))%bool.

(** The commands whose generator is called for the token at [tokenID],
    each with the groups returned. *)
Fixpoint evaluatedCommands (w : World) (limitToFixed : bool) (tokenID : nat)
  (commands : list ConsoleCommand) (cmdID : nat) (alive : list bool)
  : Exceptional (list (nat * list (list string))) :=
  match commands with
  | [] => Ok []
  | command :: rest =>
      isAlive ← subscript alive cmdID;
      if (isAlive && (tokenID <? cmdEnd limitToFixed command)%nat)%bool then
        candidateGenerator ← subscript (generators command) tokenID;
        others ← evaluatedCommands w limitToFixed tokenID rest (S cmdID) alive;
        Ok ((cmdID, candidateGenerator w) :: others)
      else evaluatedCommands w limitToFixed tokenID rest (S cmdID) alive
  end.

Definition evaluatedGroups (evaluated : list (nat * list (list string)))
  : list GroupRef :=
  flat_map (fun called => indexedGroups called.1 0 called.2) evaluated.

Definition markDead (evaluated : list (nat * list (list string)))
  (alive : list bool) : list bool :=
  foldl (fun alive called => <[called.1 := false]> alive) alive evaluated.

Definition recordGroups (evaluated : list (nat * list (list string)))
  (groups : list (list (list string))) : list (list (list string)) :=
  foldl (fun groups called => <[called.1 := called.2]> groups) groups evaluated.

(** What processing a bucket reads of a match. *)
Definition essence (matchInfo : MatchInfo) : nat * string * string :=
  (commandID matchInfo, candidate matchInfo, candidateLowered matchInfo).

(** No character of the string is one [isspace] accepts. *)
Fixpoint noWhitespace (s : string) : bool :=
  match s with
  | EmptyString => true
  | String ch rest => (negb (isspace ch) && noWhitespace rest)%bool
  end.

(** Every alias the generators return in the state [w] is free of
    whitespace and a string that can be held. *)
Definition aliasesClean (w : World) (commands : list ConsoleCommand) : Prop :=
  forall command generator group alias,
    In command commands -> In generator (generators command) ->
    In group (generator w) -> In alias group ->
    noWhitespace alias = true /\ representable alias.

(** [newTokens] and the lines logged when the token loop of [autoComplete]
    ends on the line [input]. *)
Definition completedTokens (w : World) (commands : list ConsoleCommand)
  (input : string) (limitToFixed showSuggestions : bool)
  : Exceptional (list (string * bool) * list string) :=
  tokenLoop w commands limitToFixed showSuggestions
    (map lower (istream_tokens input "")) 0
    (replicate (length commands) true)
    (map (fun token => (token, false)) (istream_tokens input "")).

(** The line without the spaces at its end. *)
Fixpoint trimRight (line : string) : string :=
  match line with
  | EmptyString => EmptyString
  | String ch rest =>
      match trimRight rest with
      | EmptyString => if Ascii.eqb ch " " then EmptyString else String ch ""
      | trimmed => String ch trimmed
      end
  end.

(** What processing a bucket comes to: the alive flags it leaves, and the
    token with its flag when one is written. *)
Definition bucketOutcome (front : MatchInfo) (matchInfos : list MatchInfo)
  (alive : list bool) : list bool * option (string * bool) :=
  let reference := candidateLowered front in
  let '(alive, commonLength, longestCandidateLen) :=
    bucketLoop reference matchInfos alive (size reference) (size reference) in
  if negb (commonLength =? 0) then
    let tokenNew := substr0 (candidate front) commonLength in
    (alive, Some (tokenNew, longestCandidateLen =? size tokenNew))
  else (alive, None).

Definition selectOutcome (matchInfosStartsWith matchInfosInMiddle : list MatchInfo)
  (alive : list bool) : list bool * option (string * bool) :=
  match matchInfosStartsWith, matchInfosInMiddle with
  | front :: _, _ => bucketOutcome front matchInfosStartsWith alive
  | [], front :: _ => bucketOutcome front matchInfosInMiddle alive
  | [], [] => (alive, None)
  end.

(** The entry of [newTokens] a step leaves where it found [old]. *)
Definition written (outcome : option (string * bool)) (old : string * bool)
  : string * bool :=
  match outcome with
  | Some entry => entry
  | None => old
  end.

(** Nothing was taken away between [c] and [c']: the output of [c] is the
    older part of the output of [c'], its history and its three registry
    vectors are the front of those of [c'], and the height is the same. *)
Definition grownFrom (c c' : Console) : Prop :=
  m_Output c `suffix_of` m_Output c' /\
  m_History c `prefix_of` m_History c' /\
  m_Commands c `prefix_of` m_Commands c' /\
  m_CommandCallbacks c `prefix_of` m_CommandCallbacks c' /\
  m_Commands2 c `prefix_of` m_Commands2 c' /\
  m_Config_height c' = m_Config_height c.

(** ** What the "list" command prints *)

(** The first alias of each group, the groups separated by slashes. *)
Definition groupNames (groups : list (list string)) : string :=
  String.concat "/" (map (fun group => default "" (head group)) groups).

(** The line of one command: the names of its fixed token positions,
    separated by spaces. *)
Definition listLine (w : World) (command : ConsoleCommand) : string :=
  String.concat " "
    (map (fun generator : CandidateListGenerator => groupNames (generator w))
       (take (numFixTokens command) (generators command))).

(** No generator of a fixed token position returns an empty group. *)
Definition listable (w : World) (command : ConsoleCommand) : Prop :=
  Forall (fun generator : CandidateListGenerator =>
            Forall (fun group => group <> []) (generator w))
    (take (numFixTokens command) (generators command)).

(** ** Browsing the history *)

(** The console [c], left with the history index at -1, after the Up key
    took it to the [j]-th newest entry: what was typed is kept as pending
    line and [entry] is shown. *)
Definition browsing (c : Console) (j : nat) (entry : string) : Console :=
  set_TypedLine
    (set_HistoryIndex (set_PendingLine c (m_TypedLine c)) (Z.of_nat j - 1))
    entry.

(** The history index is at least -1, and no larger than the index of the
    oldest entry, or than 0 while the history is empty. *)
Definition indexBounded (c : Console) : Prop :=
  -1 <= m_HistoryIndex c <= Z.max 0 (Z.of_nat (length (m_History c)) - 1).

(** ** [Console::update] and [Console::printOutput]

    Drawing goes through [bgfx::dbgTextPrintf], which is not part of the
    sources at hand: the calls made are recorded, in the order they are
    made. *)

(** One call [bgfx::dbgTextPrintf(x, y, attr, format, text)]. *)
Record DbgText : Type := mkDbgText {
  dbg_x : Z;
  dbg_y : Z;
  dbg_attr : Z;
  dbg_format : string;
  dbg_text : string
}.

Definition GLOBAL_Y : Z := 25.

(** Conversion to [uint16_t]. *)
Definition uint16_cast (z : Z) : Z := z mod 2 ^ 16.

(** [s.c_str()] as the argument of a "%s": the characters before the first
    null character. *)
Fixpoint c_str (s : string) : string :=
  match s with
  | EmptyString => EmptyString
  | String ch s' =>
      if Ascii.eqb ch "000" then EmptyString else String ch (c_str s')
  end.

(** The loop of [printOutput] over [m_Output], from the newest line on,
    with the counter at [i]. *)
Fixpoint printOutput_from (height : Z) (output : list string) (i : Z)
  : list DbgText :=
  match output with
  | [] => []
  | s :: rest =>
      if i =? height then []
      else
        mkDbgText 0 (uint16_cast (GLOBAL_Y + height - i)) 15 "| %s" (c_str s)
        :: printOutput_from height rest (i + 1)
  end.

(** [Console::printOutput]. *)
Definition printOutput (c : Console) : list DbgText :=
  printOutput_from (m_Config_height c) (m_Output c) 0.

(** [Console::update]. *)
Definition update (c : Console) : list DbgText :=
  mkDbgText 0 (uint16_cast (GLOBAL_Y + m_Config_height c + 1)) 79 "> %s"
    (c_str (m_TypedLine c))
  :: printOutput c.

(** ** [Console::autoComplete] for any result of [std::sort]

    [std::sort] leaves the range sorted by the comparison, a permutation of
    what it held, and leaves open the order of elements neither of which
    is less than the other.  The definitions below are those of
    [autoComplete] above with the sort as a parameter, a function of the
    range it is given; [std_sort] is one such sort. *)

(** What [std::sort(first, last, MatchInfo::compare)] promises. *)
Definition sorts (sort : list MatchInfo -> list MatchInfo) : Prop :=
  forall v,
    Permutation (sort v) v /\
    forall i j a b,
      (i < j)%nat -> sort v !! i = Some a -> sort v !! j = Some b ->
      MatchInfo_compare b a = false.

Fixpoint groupLoop_with (sort : list MatchInfo -> list MatchInfo)
  (token : string) (cmdID groupID : nat) (groups : list (list string))
  (matchInfosStartsWith matchInfosInMiddle : list MatchInfo)
  : Exceptional (list MatchInfo * list MatchInfo) :=
  match groups with
  | [] => Ok (matchInfosStartsWith, matchInfosInMiddle)
  | aliasGroup :: rest =>
      match aliasGroup with
      | [] =>
          groupLoop_with sort token cmdID (S groupID) rest
            matchInfosStartsWith matchInfosInMiddle
      | _ =>
          let groupInfos :=
            sort (map (makeMatchInfo token cmdID groupID) aliasGroup) in
          bestMatch ← at_ groupInfos 0;
          if pos bestMatch =? 0 then
            groupLoop_with sort token cmdID (S groupID) rest
              (matchInfosStartsWith ++ [bestMatch]) matchInfosInMiddle
          else if negb (pos bestMatch =? npos) then
            groupLoop_with sort token cmdID (S groupID) rest
              matchInfosStartsWith (matchInfosInMiddle ++ [bestMatch])
          else
            groupLoop_with sort token cmdID (S groupID) rest
              matchInfosStartsWith matchInfosInMiddle
      end
  end.

Fixpoint commandLoop_with (sort : list MatchInfo -> list MatchInfo)
  (w : World) (limitToFixed : bool) (token : string)
  (tokenID : nat) (commands : list ConsoleCommand) (cmdID : nat)
  (st : Collected) : Exceptional Collected :=
  match commands with
  | [] => Ok st
  | command :: rest =>
      isAlive ← subscript (commandIsAlive st) cmdID;
      if (isAlive && (tokenID <? cmdEnd limitToFixed command)%nat)%bool then
        let alive := <[cmdID := false]> (commandIsAlive st) in
        candidateGenerator ← subscript (generators command) tokenID;
        let groups := candidateGenerator w in
        buckets ← groupLoop_with sort token cmdID 0 groups
                    (startsWith st) (inMiddle st);
        commandLoop_with sort w limitToFixed token tokenID rest (S cmdID)
          (mkCollected alive buckets.1 buckets.2
             (<[cmdID := groups]> (allGroups st)))
      else
        commandLoop_with sort w limitToFixed token tokenID rest (S cmdID) st
  end.

Definition suggestions_with (sort : list MatchInfo -> list MatchInfo)
  (st : Collected) : Exceptional (list string) :=
  first ← suggestionLines (allGroups st) (sort (startsWith st));
  second ← suggestionLines (allGroups st) (sort (inMiddle st));
  Ok ("suggestions:" :: first ++ second).

Definition tokenStep_with (sort : list MatchInfo -> list MatchInfo)
  (w : World) (commands : list ConsoleCommand)
  (limitToFixed showSuggestions : bool) (tokenID : nat) (token : string)
  (alive : list bool) (newTokens : list (string * bool))
  : Exceptional (list bool * list (string * bool) * list string) :=
  st ← commandLoop_with sort w limitToFixed token tokenID commands 0
         (mkCollected alive [] [] (replicate (length commands) []));
  let '(alive, newTokens) :=
    selectBucket (startsWith st) (inMiddle st) tokenID
      (commandIsAlive st) newTokens in
  logged ← (if showSuggestions then suggestions_with sort st else Ok []);
  Ok (alive, newTokens, logged).

Fixpoint tokenLoop_with (sort : list MatchInfo -> list MatchInfo)
  (w : World) (commands : list ConsoleCommand)
  (limitToFixed showSuggestions : bool) (tokens : list string)
  (tokenID : nat) (alive : list bool) (newTokens : list (string * bool))
  : Exceptional (list (string * bool) * list string) :=
  match tokens with
  | [] => Ok (newTokens, [])
  | token :: rest =>
      r ← tokenStep_with sort w commands limitToFixed showSuggestions tokenID
            token alive newTokens;
      let '(alive, newTokens, logged) := r in
      r' ← tokenLoop_with sort w commands limitToFixed showSuggestions rest
             (S tokenID) alive newTokens;
      Ok (r'.1, logged ++ r'.2)
  end.

Definition autoComplete_with (sort : list MatchInfo -> list MatchInfo)
  (w : World) (commands : list ConsoleCommand)
  (input : string) (limitToFixed showSuggestions overwriteInput : bool)
  : Exceptional (string * list string) :=
  let tokens := istream_tokens input "" in
  match tokens with
  | [] => Ok (input, [])
  | _ =>
      let newTokens := map (fun token => (token, false)) tokens in
      let tokens := map lower tokens in
      let alive := replicate (length commands) true in
      r ← tokenLoop_with sort w commands limitToFixed showSuggestions tokens 0
            alive newTokens;
      if overwriteInput then
        last ← back input;
        Ok (tokenConCat r.1 (isspace last), r.2)
      else Ok (input, r.2)
  end.

(** The best match of a group for a token under the sort given. *)
Definition bestMatchOf_with (sort : list MatchInfo -> list MatchInfo)
  (token : string) (ref : GroupRef) : option MatchInfo :=
  head (sort (map (makeMatchInfo token ref.1.1 ref.1.2) ref.2)).

Definition bestMatches_with (sort : list MatchInfo -> list MatchInfo)
  (token : string) (refs : list GroupRef) : list MatchInfo :=
  omap (bestMatchOf_with sort token) refs.

(** [newTokens] and the lines logged when the token loop ends on the line
    [input], under the sort given. *)
Definition completedTokens_with (sort : list MatchInfo -> list MatchInfo)
  (w : World) (commands : list ConsoleCommand)
  (input : string) (limitToFixed showSuggestions : bool)
  : Exceptional (list (string * bool) * list string) :=
  tokenLoop_with sort w commands limitToFixed showSuggestions
    (map lower (istream_tokens input "")) 0
    (replicate (length commands) true)
    (map (fun token => (token, false)) (istream_tokens input "")).

(** No two aliases of one group differ in the case of their letters only. *)
Definition caseDistinct (w : World) (commands : list ConsoleCommand) : Prop :=
  forall command generator group alias other,
    In command commands -> In generator (generators command) ->
    In group (generator w) -> In alias group -> In other group ->
    lower alias = lower other -> alias = other.

End Console.

(** ** Example registries

    Commands over an engine state of type [unit], used to run the model on
    concrete lines. *)

Definition constGenerator (groups : list (list string))
  : @CandidateListGenerator unit := fun _ => groups.

Definition okCallback : @Callback unit :=
  External (fun _ w => (w, [], Ok "ok")).

(** A splitter in the manner of [std::getline]: the text between the
    delimiters, a trailing empty item dropped. *)
Fixpoint split_getline (s : string) (item : string) (delim : ascii)
  : list string :=
  match s with
  | EmptyString =>
      match item with
      | EmptyString => []
      | _ => [item]
      end
  | String ch s' =>
      if Ascii.eqb ch delim then item :: split_getline s' "" delim
      else split_getline s' (item +:+ String ch "") delim
  end.

Definition exampleSplit (s : string) (delim : ascii) : list string :=
  split_getline s "" delim.

Definition loadCommand : @ConsoleCommand unit :=
  mkConsoleCommand [constGenerator [["load"; "ld"]]] okCallback 1.

Definition saveCommand : @ConsoleCommand unit :=
  mkConsoleCommand [constGenerator [["save"]]] okCallback 1.

(** A command without fixed tokens. *)
Definition anyCommand : @ConsoleCommand unit :=
  mkConsoleCommand [] okCallback 0.

(** The line that holds one tab character. *)
Definition tabLine : string := String "009"%char "".

Definition sayCallback (text : string) : @Callback unit :=
  External (fun _ w => (w, [], Ok text)).

(** A console with one string registered twice in the old command system. *)
Definition twiceConsole : @Console unit :=
  registerCommand (registerCommand Console_new "foo" (sayCallback "first"))
    "foo" (sayCallback "second").

(** A console with two old commands, one a prefix of the other. *)
Definition prefixConsole : @Console unit :=
  registerCommand (registerCommand Console_new "load" (sayCallback "load"))
    "load game" (sayCallback "load game").

(** A command whose first token is "load" or "reload". *)
Definition reloadCommand : @ConsoleCommand unit :=
  mkConsoleCommand [constGenerator [["load"]; ["reload"]]] okCallback 1.

(** A command whose first token is "save" or "shave". *)
Definition shaveCommand : @ConsoleCommand unit :=
  mkConsoleCommand [constGenerator [["save"]; ["shave"]]] okCallback 1.

(** A command whose first token is an alias with a space in it. *)
Definition loadGameCommand : @ConsoleCommand unit :=
  mkConsoleCommand [constGenerator [["load game"]]] okCallback 1.

(** A console on which "foo" was submitted, "abc" typed and the Up key
    pressed: it shows the entry "foo" and keeps "abc" as pending line. *)
Definition browsingConsole : @Console unit * unit :=
  run exampleSplit (Console_new, tt)
    [CallSubmitCommand "foo"; CallTextInput "abc"; CallKeyDown GLFW_KEY_UP].

(** A console with a command that asks for two fixed tokens and has one
    generator. *)
Definition brokenConsole : @Console unit :=
  registerCommand2 Console_new [constGenerator [["load"]]] 2 okCallback.

(** A callback that writes a line and throws [std::invalid_argument]. *)
Definition failCallback : @ExternalCallback unit :=
  fun _ w => (w, ["about to fail"], Throw std_invalid_argument).

Definition failCommand : @ConsoleCommand unit :=
  mkConsoleCommand [constGenerator [["fail"]]] (External failCallback) 1.

(** The constructed console with the command "fail" registered. *)
Definition failConsole : @Console unit :=
  registerCommand2 Console_new [constGenerator [["fail"]]] 1
    (External failCallback).

(** A command whose generator returns an empty alias group. *)
Definition emptyGroupCommand : @ConsoleCommand unit :=
  mkConsoleCommand [constGenerator [["a"]; []]] okCallback 1.

(** The registration of a command with two fixed tokens: "load" or
    "restore", then "game". *)
Definition registerLoadGame : @Call unit :=
  CallRegisterCommand2
    [constGenerator [["load"; "ld"]; ["restore"]]; constGenerator [["game"]]]
    2 (fun _ w => (w, [], Ok "ok")).

(** A console on which "foo" and "bar" were submitted and "abc" typed. *)
Definition typingConsole : @Console unit * unit :=
  run exampleSplit (Console_new, tt)
    [CallSubmitCommand "foo"; CallSubmitCommand "bar"; CallTextInput "abc"].

(** A console of height 2 with three lines of output and "ab" typed. *)
Definition smallConsole : @Console unit :=
  mkConsole 2 (-1) false [] "" "ab" ["third"; "second"; "first"] [] [] [].

(** The registration of "load" and "load game" in the old command system. *)
Definition registerLoads : list (@Call unit) :=
  [CallRegisterCommand "load" (fun _ w => (w, [], Ok "load"));
   CallRegisterCommand "load game" (fun _ w => (w, [], Ok "load game"))].

(** A command that asks for one fixed token and has no generator. *)
Definition noGeneratorCommand : @ConsoleCommand unit :=
  mkConsoleCommand [] okCallback 1.


(** A command that asks for two fixed tokens and has one generator. *)
Definition brokenCommand : @ConsoleCommand unit :=
  mkConsoleCommand [constGenerator [["load"]]] okCallback 2.

(** A command whose first token has one group, two of whose aliases differ
    in the case of a letter only. *)
Definition caseCommand : @ConsoleCommand unit :=
  mkConsoleCommand [constGenerator [["Xk"; "xa"; "xk"]]] okCallback 1.

(** ** A second sort

    An insertion sort that places an element behind those equivalent to it,
    where [std_sort] places it before them, and a sort that treats
    equivalent elements the one way or the other by the vector it is given:
    as [std_sort] does when some match has the position [npos], as
    [sort_behind] does otherwise.  The order in which [std::sort] leaves
    equivalent elements may depend on the whole range in this manner. *)

Fixpoint sort_insert_behind (x : MatchInfo) (sorted : list MatchInfo)
  : list MatchInfo :=
  match sorted with
  | [] => [x]
  | y :: sorted' =>
      if MatchInfo_compare x y then x :: y :: sorted'
      else y :: sort_insert_behind x sorted'
  end.

Fixpoint sort_behind (v : list MatchInfo) : list MatchInfo :=
  match v with
  | [] => []
  | x :: v' => sort_insert_behind x (sort_behind v')
  end.

Definition sort_by_range (v : list MatchInfo) : list MatchInfo :=
  if existsb (fun info => pos info =? npos) v then std_sort v
  else sort_behind v.

(** * Properties *)

Section ConsoleFacts.
Context {World : Type}.
Implicit Types (w : World) (c : @Console World).

Lemma static_cast_int_small z :
  0 <= z <= INT_MAX -> static_cast_int z = z.
Proof.
  unfold static_cast_int, INT_MAX. intros H.
  rewrite Z.mod_small; lia.
Qed.

Lemma findNameInGroups_empty groups name :
  findNameInGroups groups name = [] <->
  ~ exists group, In group groups /\ In name group.
Proof.
  induction groups as [|group rest IH]; simpl.
  - split; [intros _ (g & [] & _) | done].
  - destruct (existsb (String.eqb name) group) eqn:E.
    + apply existsb_exists in E as (x & Hx & Heq).
      apply String.eqb_eq in Heq. subst x. split.
      * intros ->. destruct Hx.
      * intros H. exfalso. apply H. exists group. auto.
    + rewrite IH. split.
      * intros H (g & [<- | Hg] & Hn).
        -- assert (existsb (String.eqb name) group = true); [|congruence].
           apply existsb_exists. exists name. split; [done|apply String.eqb_refl].
        -- apply H. eauto.
      * intros H (g & Hg & Hn). apply H. eauto.
Qed.

Lemma findNameInGroups_found groups name :
  findNameInGroups groups name <> [] ->
  exists group, In group groups /\ In name group.
Proof.
  induction groups as [|group rest IH]; simpl; [done|].
  destruct (existsb (String.eqb name) group) eqn:E.
  - intros _. apply existsb_exists in E as (x & Hx & Heq).
    apply String.eqb_eq in Heq. subst x. exists group. auto.
  - intros H. destruct (IH H) as (g & Hg & Hn). exists g. auto.
Qed.

Lemma tokenMatches_dec w command tokens i generator token :
  generators command !! i = Some generator ->
  tokens !! i = Some token ->
  (findNameInGroups (generator w) token <> [] <-> tokenMatches w command tokens i).
Proof.
  intros Hg Ht. split.
  - intros H. apply findNameInGroups_found in H as (group & Hgr & Htok).
    exists generator, token, group. done.
  - intros (generator' & token' & group & Hg' & Ht' & Hgr & Htok) Hempty.
    simplify_eq. apply findNameInGroups_empty in Hempty. apply Hempty. eauto.
Qed.

(** The inner loop calls generators of its own command only. *)
Lemma matchFixTokens_calls w command commID tokens tokenID remaining all :
  Forall (fun call : GeneratorCall => call.1 = commID)
    (matchFixTokens w command commID tokens tokenID remaining all).1.
Proof.
  revert tokenID all. induction remaining as [|remaining IH]; intros tokenID all; simpl.
  - constructor.
  - destruct (at_ (generators command) tokenID) as [generator|e]; [|constructor].
    destruct (at_ tokens tokenID) as [token|e]; [|constructor].
    match goal with |- context [matchFixTokens ?a ?b ?c ?d ?e ?f ?g] =>
      specialize (IH e g); destruct (matchFixTokens a b c d e f g) as [calls r] end.
    simpl in *. constructor; done.
Qed.

(** With a generator and a token at every position it visits, the inner loop
    returns whether all of them matched. *)
Lemma matchFixTokens_ok w command commID tokens tokenID remaining all :
  (tokenID + remaining <= length (generators command))%nat ->
  (tokenID + remaining <= length tokens)%nat ->
  exists calls b,
    matchFixTokens w command commID tokens tokenID remaining all = (calls, Ok b) /\
    (b = true <->
     all = true /\
     forall i, (tokenID <= i < tokenID + remaining)%nat ->
               tokenMatches w command tokens i).
Proof.
  revert tokenID all. induction remaining as [|remaining IH]; intros tokenID all Hg Ht; simpl.
  - exists [], all. split; [done|]. split; [|tauto]. intros ->. split; [done|lia].
  - unfold at_.
    destruct (generators command !! tokenID) as [generator|] eqn:Egen;
      [|apply lookup_ge_None in Egen; lia].
    destruct (tokens !! tokenID) as [token|] eqn:Etok;
      [|apply lookup_ge_None in Etok; lia].
    pose proof (tokenMatches_dec w command tokens tokenID generator token Egen Etok) as Hdec.
    set (matched := match findNameInGroups (generator w) token with
                    | [] => false | _ => all end).
    destruct (IH (S tokenID) matched) as (calls & b & Heq & Hb); [lia|lia|].
    rewrite Heq. exists ((commID, tokenID) :: calls), b. split; [done|].
    rewrite Hb. subst matched. split.
    + intros [Hm Hrest].
      destruct (findNameInGroups (generator w) token) eqn:E; [done|].
      split; [done|]. intros i Hi.
      destruct (decide (i = tokenID)) as [->|Hne].
      * apply Hdec. done.
      * apply Hrest. lia.
    + intros [-> Hall]. split.
      * destruct (findNameInGroups (generator w) token) eqn:E; [|done].
        exfalso. assert (Hm : tokenMatches w command tokens tokenID) by (apply Hall; lia).
        apply Hdec in Hm. done.
      * intros i Hi. apply Hall. lia.
Qed.

Lemma fixedTokensMatch_arity w command tokens :
  fixedTokensMatch w command tokens ->
  (numFixTokens command <= length (generators command))%nat /\
  (numFixTokens command <= length tokens)%nat.
Proof.
  intros H. destruct (numFixTokens command) as [|n] eqn:E; [lia|].
  destruct (H n) as (generator & token & group & Hg & Ht & _); [lia|].
  apply lookup_lt_Some in Hg, Ht. unfold CandidateListGenerator in *. lia.
Qed.

Lemma determineCommand_from_first w commands base tokens k command :
  commands !! k = Some command ->
  fixedTokensMatch w command tokens ->
  (forall j earlier, (j < k)%nat -> commands !! j = Some earlier ->
     arity_ok earlier /\ ~ fixedTokensMatch w earlier tokens) ->
  exists calls,
    determineCommand_from w commands base tokens =
      (calls, Ok (static_cast_int (Z.of_nat (base + k)))) /\
    Forall (fun call : GeneratorCall => (call.1 <= base + k)%nat) calls.
Proof.
  revert base k. induction commands as [|first rest IH]; intros base k Hk Hm Hearlier.
  - done.
  - simpl. destruct k as [|k]; simpl in Hk.
    + simplify_eq. destruct (fixedTokensMatch_arity _ _ _ Hm) as [Hg Ht].
      destruct (Nat.ltb_spec (length tokens) (numFixTokens command)); [lia|].
      pose proof (matchFixTokens_calls w command base tokens 0 (numFixTokens command) true) as Hcalls.
      destruct (matchFixTokens_ok w command base tokens 0 (numFixTokens command) true)
        as (calls & b & Heq & Hb); [lia|lia|].
      rewrite Heq in *. simpl in Hcalls.
      assert (b = true) as ->.
      { apply Hb. split; [done|]. intros i Hi. apply Hm. lia. }
      exists calls. rewrite Nat.add_0_r. split; [done|].
      eapply Forall_impl; [exact Hcalls|]. simpl. intros; lia.
    + destruct (Hearlier 0%nat first) as [Har Hnm]; [lia|done|].
      destruct (IH (S base) k Hk Hm) as (calls' & Heq' & Hcalls').
      { intros j earlier Hj Hl. apply (Hearlier (S j)); [lia|done]. }
      replace (S base + k)%nat with (base + S k)%nat in * by lia.
      destruct (Nat.ltb_spec (length tokens) (numFixTokens first)).
      * exists calls'. done.
      * pose proof (matchFixTokens_calls w first base tokens 0 (numFixTokens first) true) as Hcalls.
        destruct (matchFixTokens_ok w first base tokens 0 (numFixTokens first) true)
          as (calls & b & Heq & Hb); [unfold arity_ok in Har; lia|lia|].
        rewrite Heq in *. simpl in Hcalls.
        destruct b.
        -- exfalso. apply Hnm. intros i Hi. apply Hb; [done|lia].
        -- rewrite Heq'. exists (calls ++ calls'). split; [done|].
           apply Forall_app. split; [|done].
           eapply Forall_impl; [exact Hcalls|]. simpl. intros; lia.
Qed.

(** C1 (amended).  When some registered command's fixed tokens all match the
    tokens (each token is an alias of a group its generator returns at that
    position), every command registered before the first such command
    respects the data model's bound [numFixTokens <= generators.size()], and
    the index of that command fits the [int] that is returned, then
    [determineCommand] returns the index of the first such command in
    registration order, and no generator of a command registered after it
    is called. *)
Theorem determineCommand_first_match w commands tokens k command :
  commands !! k = Some command ->
  fixedTokensMatch w command tokens ->
  (forall j earlier, (j < k)%nat -> commands !! j = Some earlier ->
     arity_ok earlier /\ ~ fixedTokensMatch w earlier tokens) ->
  Z.of_nat k <= INT_MAX ->
  exists calls,
    determineCommand w commands tokens = (calls, Ok (Z.of_nat k)) /\
    Forall (fun call : GeneratorCall => (call.1 <= k)%nat) calls.
Proof.
  intros Hk Hm Hearlier Hint.
  destruct (determineCommand_from_first w commands 0 tokens k command Hk Hm Hearlier)
    as (calls & Heq & Hcalls).
  exists calls. unfold determineCommand. rewrite Heq. simpl in *.
  rewrite static_cast_int_small by lia. done.
Qed.

Lemma determineCommand_from_too_short w commands base tokens :
  Forall (fun command => (length tokens < numFixTokens command)%nat) commands ->
  determineCommand_from w commands base tokens = ([], Ok (-1)).
Proof.
  intros H. revert base. induction H as [|command rest Hc Hrest IH]; intros base; simpl.
  - done.
  - destruct (Nat.ltb_spec (length tokens) (numFixTokens command)); [|lia].
    apply IH.
Qed.

(** C3 (amended).  On a token sequence shorter than every registered
    command's [numFixTokens], [determineCommand] returns -1 and calls no
    generator; on the empty sequence this is the case when every registered
    command has at least one fixed token. *)
Theorem determineCommand_too_short w commands tokens :
  Forall (fun command => (length tokens < numFixTokens command)%nat) commands ->
  determineCommand w commands tokens = ([], Ok (-1)).
Proof.
  intros Hshort. unfold determineCommand.
  by apply determineCommand_from_too_short.
Qed.

(** ** Calls that only add output *)

Context (split : string -> ascii -> list string).

Lemma sameButOutput_refl c : sameButOutput c c.
Proof. repeat split. Qed.

Lemma sameButOutput_trans c1 c2 c3 :
  sameButOutput c1 c2 -> sameButOutput c2 c3 -> sameButOutput c1 c3.
Proof. unfold sameButOutput. intuition congruence. Qed.

Lemma outputAdd_same c msg : sameButOutput c (outputAdd c msg).
Proof. repeat split. Qed.

Lemma foldl_outputAdd_same lines c : sameButOutput c (foldl outputAdd c lines).
Proof.
  revert c. induction lines as [|line lines IH]; intros c; simpl.
  - apply sameButOutput_refl.
  - eapply sameButOutput_trans; [apply outputAdd_same|apply IH].
Qed.

Lemma listCommands_same w commands c :
  sameButOutput c (listCommands w commands c).1.
Proof.
  revert c. induction commands as [|command rest IH]; intros c; simpl.
  - apply sameButOutput_refl.
  - destruct (listGenerators w (generators command) (numFixTokens command) 0).
    + eapply sameButOutput_trans; [apply outputAdd_same|apply IH].
    + apply sameButOutput_refl.
Qed.

Lemma runCallback_same cb args c w :
  sameButOutput c (runCallback cb args c w).1.1.
Proof.
  destruct cb as [|f]; simpl.
  - pose proof (listCommands_same w (m_Commands2 c) c) as H.
    destruct (listCommands w (m_Commands2 c) c). exact H.
  - destruct (f args w) as [[w' lines] r]. simpl. apply foldl_outputAdd_same.
Qed.

Lemma dispatch_same found args c w :
  sameButOutput c (dispatch found args c w).1.1.
Proof.
  unfold dispatch. destruct found as [cb|e].
  - pose proof (runCallback_same cb args c w) as H.
    destruct (runCallback cb args c w) as [[c' w'] r]. simpl in H.
    destruct r as [result|[]]; simpl; try exact H;
      (eapply sameButOutput_trans; [exact H|apply outputAdd_same]).
  - destruct e; simpl; try apply sameButOutput_refl; apply outputAdd_same.
Qed.

(** What [submitCommand] leaves in every member but the output. *)
Lemma submitCommand_members c w command :
  let c' := (submitCommand split c w command).1.1 in
  m_History c' = historyPush (m_History c) command /\
  m_HistoryIndex c' = -1 /\
  m_PendingLine c' = "" /\
  m_TypedLine c' = m_TypedLine c /\
  m_Commands c' = m_Commands c /\
  m_CommandCallbacks c' = m_CommandCallbacks c /\
  m_Commands2 c' = m_Commands2 c.
Proof.
  unfold submitCommand.
  set (c1 := set_PendingLine _ _).
  assert (H1 : m_History c1 = historyPush (m_History c) command /\
               m_HistoryIndex c1 = -1 /\ m_PendingLine c1 = "" /\
               m_TypedLine c1 = m_TypedLine c /\
               m_Commands c1 = m_Commands c /\
               m_CommandCallbacks c1 = m_CommandCallbacks c /\
               m_Commands2 c1 = m_Commands2 c) by (repeat split).
  clearbody c1.
  assert (Hsame : forall c2, sameButOutput c1 c2 ->
            m_History c2 = historyPush (m_History c) command /\
            m_HistoryIndex c2 = -1 /\ m_PendingLine c2 = "" /\
            m_TypedLine c2 = m_TypedLine c /\
            m_Commands c2 = m_Commands c /\
            m_CommandCallbacks c2 = m_CommandCallbacks c /\
            m_Commands2 c2 = m_Commands2 c).
  { unfold sameButOutput. intros c2 H2. intuition congruence. }
  destruct (String.eqb command ""); simpl; [exact H1|].
  set (c2 := outputAdd c1 _).
  assert (H2 : sameButOutput c1 c2) by apply outputAdd_same. clearbody c2.
  match goal with |- context [determineCommand ?a ?b ?d] =>
    destruct (determineCommand a b d) as [calls [commID|e]] end;
    simpl; [|by apply Hsame].
  destruct (negb (commID =? -1)).
  - apply Hsame. eapply sameButOutput_trans; [exact H2|apply dispatch_same].
  - match goal with |- context [0 <=? ?a] => destruct (0 <=? a) end.
    + apply Hsame. eapply sameButOutput_trans; [exact H2|apply dispatch_same].
    + exact (Hsame _ (sameButOutput_trans _ _ _ H2
               (outputAdd_same c2 " -- Command not found -- "))).
Qed.

(** C9 (amended).  Submitting the empty line returns the empty string and
    writes neither to the history nor to the output; it resets the history
    navigation as every submission does: the console it leaves is the one it
    found with the history index at -1 and the pending line empty.  When
    the line is not empty and neither command system has a match, the
    result is "NOTFOUND" and the output receives the echo of the line and
    the message that no command was found. *)
Theorem submitCommand_empty_line c w :
  (submitCommand split c w "" =
     (set_PendingLine (set_HistoryIndex c (-1)) "", w, Ok "") /\
   m_History (submitCommand split c w "").1.1 = m_History c /\
   m_Output (submitCommand split c w "").1.1 = m_Output c) /\
  (forall command,
     command <> "" ->
     (determineCommand w (m_Commands2 c) (split command " ")).2 = Ok (-1) ->
     legacyBestMatch (m_Commands c) command < 0 ->
     (submitCommand split c w command).2 = Ok "NOTFOUND" /\
     m_Output (submitCommand split c w command).1.1 =
       " -- Command not found -- " :: (" >> " +:+ command) :: m_Output c).
Proof.
  split.
  - unfold submitCommand. simpl. destruct c; done.
  - intros command Hne Hdet Hleg. unfold submitCommand.
    destruct (String.eqb_spec command ""); [done|]. simpl.
    rewrite Hdet. simpl.
    destruct (Z.leb_spec 0 (legacyBestMatch (m_Commands c) command)); [lia|].
    done.
Qed.

(** ** The history *)

Lemma find_first_not_of_from_spaces line from :
  onlySpaces line = true -> find_first_not_of_from line " " from = npos.
Proof.
  revert from. induction line as [|ch rest IH]; intros from; simpl; [done|].
  destruct (Ascii.eqb ch " "); simpl; [apply IH|done].
Qed.

Lemma find_first_not_of_from_found line from :
  onlySpaces line = false ->
  exists k, (k < String.length line)%nat /\
            find_first_not_of_from line " " from = Z.of_nat (from + k).
Proof.
  revert from. induction line as [|ch rest IH]; intros from; simpl; [done|].
  destruct (Ascii.eqb ch " "); simpl.
  - intros H. destruct (IH (S from) H) as (k & Hk & Heq).
    exists (S k). split; [lia|]. rewrite Heq. f_equal. lia.
  - intros _. exists 0%nat. split; [lia|]. f_equal. lia.
Qed.

(** On a line a string can hold, the test [find_first_not_of(' ') != npos]
    says that the line holds more than spaces. *)
Lemma find_first_not_of_npos line :
  representable line ->
  (find_first_not_of line " " =? npos) = onlySpaces line.
Proof.
  intros Hrep. unfold find_first_not_of.
  destruct (onlySpaces line) eqn:E.
  - rewrite find_first_not_of_from_spaces by done. apply Z.eqb_refl.
  - destruct (find_first_not_of_from_found line 0 E) as (k & Hk & ->).
    apply Z.eqb_neq. unfold representable, size in Hrep. lia.
Qed.

Lemma historyPush_spaces history line :
  onlySpaces line = true -> historyPush history line = history.
Proof.
  intros H. unfold historyPush, find_first_not_of.
  rewrite find_first_not_of_from_spaces by done.
  by rewrite Z.eqb_refl.
Qed.

Lemma historyPush_repeated history line :
  last history = Some line -> historyPush history line = history.
Proof.
  intros H. unfold historyPush. rewrite H, String.eqb_refl.
  by rewrite andb_false_r.
Qed.

Lemma noRepeat_snoc history line :
  noRepeat history ->
  (forall newest, last history = Some newest -> newest <> line) ->
  noRepeat (history ++ [line]).
Proof.
  intros Hno Hlast i older newer Ho Hn.
  destruct (decide (S i < length history)%nat) as [Hlt|Hge].
  - rewrite lookup_app_l in Ho by lia. rewrite lookup_app_l in Hn by lia.
    by eapply Hno.
  - assert (Hi : (i < length history)%nat).
    { apply lookup_lt_Some in Hn. rewrite length_app in Hn. simpl in Hn. lia. }
    rewrite lookup_app_l in Ho by lia.
    rewrite lookup_app_r in Hn by lia.
    replace (S i - length history)%nat with 0%nat in Hn by lia.
    simpl in Hn. simplify_eq. apply Hlast.
    rewrite last_lookup. rewrite <- Ho. f_equal. lia.
Qed.

Lemma historyPush_invariant history line :
  representable line ->
  Forall (fun entry => onlySpaces entry = false) history ->
  noRepeat history ->
  Forall (fun entry => onlySpaces entry = false) (historyPush history line) /\
  noRepeat (historyPush history line).
Proof.
  intros Hrep Hblank Hno. unfold historyPush.
  rewrite find_first_not_of_npos by done.
  destruct (onlySpaces line) eqn:E; simpl; [done|].
  destruct (last history) as [newest|] eqn:El.
  - destruct (String.eqb_spec newest line); simpl; [done|].
    split.
    + apply Forall_app. split; [done|]. by constructor.
    + apply noRepeat_snoc; [done|]. intros ? ?. by simplify_eq.
  - split.
    + apply Forall_app. split; [done|]. by constructor.
    + apply noRepeat_snoc; [done|]. intros ? ?. by simplify_eq.
Qed.

Lemma run_submit_history w lines c :
  Forall representable lines ->
  Forall (fun entry => onlySpaces entry = false) (m_History c) ->
  noRepeat (m_History c) ->
  let c' := (run split (c, w) (map CallSubmitCommand lines)).1 in
  Forall (fun entry => onlySpaces entry = false) (m_History c') /\
  noRepeat (m_History c').
Proof.
  intros Hrep. revert c w. induction Hrep as [|line lines Hline Hlines IH];
    intros c w Hblank Hno.
  - done.
  - simpl. pose proof (submitCommand_members c w line) as Hm.
    destruct (submitCommand split c w line) as [[c1 w1] r]. simpl in Hm.
    destruct Hm as (Hh & _).
    destruct (historyPush_invariant (m_History c) line Hline Hblank Hno) as [H1 H2].
    apply IH; by rewrite Hh.
Qed.

(** C7 (amended).  After any sequence of [submitCommand] calls on a new
    console, no entry of the history consists of space characters only (nor
    is empty) and no entry equals the one right after it; submitting a line
    of spaces only adds no entry, and neither does submitting the line that
    is the newest entry.  The lines are strings that can be held. *)
Theorem history_invariant w lines :
  Forall representable lines ->
  let st := run split (Console_new, w) (map CallSubmitCommand lines) in
  Forall (fun entry => onlySpaces entry = false) (m_History st.1) /\
  noRepeat (m_History st.1) /\
  (forall line,
     onlySpaces line = true ->
     m_History (submitCommand split st.1 st.2 line).1.1 = m_History st.1) /\
  (forall line,
     last (m_History st.1) = Some line ->
     m_History (submitCommand split st.1 st.2 line).1.1 = m_History st.1).
Proof.
  intros Hrep st.
  destruct (run_submit_history w lines Console_new Hrep) as [H1 H2].
  { constructor. }
  { intros i older newer H. done. }
  split; [exact H1|]. split; [exact H2|]. split.
  - intros line Hline.
    destruct (submitCommand_members st.1 st.2 line) as (-> & _).
    by apply historyPush_spaces.
  - intros line Hline.
    destruct (submitCommand_members st.1 st.2 line) as (-> & _).
    by apply historyPush_repeated.
Qed.

(** C8.  The console the constructor leaves has history index 0 and an
    empty history, which is outside the range from -1 to length - 1; on it
    the Down key is no no-op: it replaces the typed line by the empty
    pending line. *)
Theorem Console_new_index_out_of_range w typed :
  m_HistoryIndex (@Console_new World) = 0 /\
  m_History (@Console_new World) = [] /\
  ~ indexInRange (@Console_new World) /\
  m_TypedLine
    (onKeyDown split (set_TypedLine Console_new typed) w GLFW_KEY_DOWN).1.1.1
  = "".
Proof.
  split; [done|]. split; [done|]. split; [|done].
  unfold indexInRange. simpl. lia.
Qed.

(** ** Strings *)

Lemma size_nonneg s : 0 <= size s.
Proof. unfold size. lia. Qed.

Lemma size_app a b : size (a +:+ b) = size a + size b.
Proof.
  unfold size. induction a as [|ch a IH]; simpl; [lia|].
  rewrite !Nat2Z.inj_succ. lia.
Qed.

Lemma size_0 s : size s = 0 -> s = "".
Proof. destruct s; [done|]. unfold size. simpl. lia. Qed.

Lemma app_empty_r s : s +:+ "" = s.
Proof. induction s as [|ch s IH]; simpl; [done|]. by rewrite IH. Qed.

Lemma app_assoc_string a b d : (a +:+ b) +:+ d = a +:+ (b +:+ d).
Proof. induction a as [|ch a IH]; simpl; [done|]. by rewrite IH. Qed.

Lemma substr0_app a b : substr0 (a +:+ b) (size a) = a.
Proof.
  unfold substr0, size. rewrite Nat2Z.id.
  induction a as [|ch a IH]; simpl.
  - by destruct b.
  - by rewrite IH.
Qed.

Lemma get_app a b : String.get (String.length a) (a +:+ b) = String.get 0 b.
Proof. induction a as [|ch a IH]; simpl; done. Qed.

(** [candidate == input.substr(0, candidate.size())] says that the
    candidate is a prefix of the input. *)
Lemma substr0_eqb_prefix candidate input :
  String.eqb candidate (substr0 input (size candidate)) = true ->
  exists rest, input = candidate +:+ rest.
Proof.
  unfold substr0, size. rewrite Nat2Z.id.
  revert input. induction candidate as [|ch candidate IH]; intros input; simpl.
  - intros _. by exists input.
  - destruct input as [|ch' input]; simpl; [done|].
    destruct (Ascii.eqb_spec ch ch'); [|done]. subst ch'.
    intros H. destruct (IH input H) as (rest & ->). by exists rest.
Qed.

Lemma legacyMatches_boundaryPrefix input candidate :
  legacyMatches input candidate = true <-> boundaryPrefix candidate input.
Proof.
  unfold legacyMatches, endsOnBoundary, boundaryPrefix. split.
  - intros [Hb Hp]%andb_true_iff.
    apply substr0_eqb_prefix in Hp as (rest & ->).
    rewrite size_app, get_app in Hb.
    apply orb_true_iff in Hb as [Hb|Hb].
    + left. apply Z.eqb_eq in Hb.
      rewrite (size_0 rest) by lia. apply app_empty_r.
    + right. apply andb_true_iff in Hb as [_ Hb].
      destruct rest as [|ch rest]; simpl in Hb; [done|].
      apply Ascii.eqb_eq in Hb. subst ch. by exists rest.
  - intros [->|(rest & ->)].
    + rewrite Z.eqb_refl. simpl.
      replace candidate with (candidate +:+ "") at 2 by apply app_empty_r.
      rewrite substr0_app. apply String.eqb_refl.
    + rewrite substr0_app, String.eqb_refl, size_app, get_app, andb_true_r.
      simpl String.get. cbv iota beta. rewrite Ascii.eqb_refl, andb_true_r.
      apply orb_true_iff. right. apply Z.ltb_lt.
      rewrite size_app. pose proof (size_nonneg rest).
      change (size " ") with 1. lia.
Qed.

(** ** The old command system *)

Lemma legacyLoop_none commands input base bestMatchSize bestMatchIndex :
  (forall j other, commands !! j = Some other ->
     legacyMatches input other = true -> size other < bestMatchSize) ->
  legacyLoop commands input base bestMatchSize bestMatchIndex = bestMatchIndex.
Proof.
  revert base. induction commands as [|first rest IH]; intros base H; simpl; [done|].
  destruct (Z.ltb_spec (size first) bestMatchSize).
  - apply IH. intros j other Hj. apply (H (S j)). done.
  - destruct (legacyMatches input first) eqn:E.
    + specialize (H 0%nat first eq_refl E). lia.
    + apply IH. intros j other Hj. apply (H (S j)). done.
Qed.

Lemma legacyLoop_selects commands input base bestMatchSize bestMatchIndex i candidate :
  commands !! i = Some candidate ->
  legacyMatches input candidate = true ->
  bestMatchSize <= size candidate ->
  (forall j other, commands !! j = Some other ->
     legacyMatches input other = true ->
     size other <= size candidate /\
     (size other = size candidate -> (j <= i)%nat)) ->
  legacyLoop commands input base bestMatchSize bestMatchIndex =
    static_cast_int (Z.of_nat (base + i)).
Proof.
  revert base bestMatchSize bestMatchIndex i.
  induction commands as [|first rest IH];
    intros base bestMatchSize bestMatchIndex i Hi Hm Hsize Hbest; [done|].
  simpl. destruct i as [|i]; simpl in Hi.
  - simplify_eq. destruct (Z.ltb_spec (size candidate) bestMatchSize); [lia|].
    rewrite Hm, Nat.add_0_r. apply legacyLoop_none.
    intros j other Hj Ho. destruct (Hbest (S j) other Hj Ho) as [Hle Heq].
    destruct (decide (size other = size candidate)) as [Hs|Hs]; [|lia].
    specialize (Heq Hs). lia.
  - replace (base + S i)%nat with (S base + i)%nat by lia.
    assert (Hrest : forall j other, rest !! j = Some other ->
              legacyMatches input other = true ->
              size other <= size candidate /\
              (size other = size candidate -> (j <= i)%nat)).
    { intros j other Hj Ho. destruct (Hbest (S j) other Hj Ho) as [Hle Heq].
      split; [done|]. intros Hs. specialize (Heq Hs). lia. }
    destruct (Z.ltb_spec (size first) bestMatchSize).
    + by apply IH.
    + destruct (legacyMatches input first) eqn:E.
      * apply IH; try done. by destruct (Hbest 0%nat first eq_refl E).
      * by apply IH.
Qed.

(** C4 (amended).  On an input line the new command system does not
    resolve, the old one selects, among the registered strings that are a
    prefix of the input ending on a token boundary, the longest; strings of
    equal length that both match are one string registered more than once,
    and the one registered last is selected.  Its callback is the one
    dispatched.  The index fits the [int] that holds it. *)
Theorem legacy_fallback_selects c w input i candidate :
  input <> "" ->
  (determineCommand w (m_Commands2 c) (split input " ")).2 = Ok (-1) ->
  m_Commands c !! i = Some candidate ->
  boundaryPrefix candidate input ->
  (forall j other, m_Commands c !! j = Some other ->
     boundaryPrefix other input ->
     size other <= size candidate /\
     (size other = size candidate -> (j <= i)%nat)) ->
  Z.of_nat i <= INT_MAX ->
  legacyBestMatch (m_Commands c) input = Z.of_nat i /\
  submitCommand split c w input =
    dispatch (at_ (m_CommandCallbacks c) i) (split input " ")
      (outputAdd
         (set_PendingLine
            (set_HistoryIndex
               (set_History c (historyPush (m_History c) input)) (-1)) "")
         (" >> " +:+ input)) w.
Proof.
  intros Hne Hdet Hi Hm Hbest Hint.
  assert (Hleg : legacyBestMatch (m_Commands c) input = Z.of_nat i).
  { unfold legacyBestMatch.
    rewrite (legacyLoop_selects _ input 0 0 (-1) i candidate Hi).
    - simpl. apply static_cast_int_small. lia.
    - by apply legacyMatches_boundaryPrefix.
    - apply size_nonneg.
    - intros j other Hj Ho. apply legacyMatches_boundaryPrefix in Ho.
      by apply Hbest. }
  split; [exact Hleg|].
  unfold submitCommand. destruct (String.eqb_spec input ""); [done|].
  simpl. rewrite Hdet. simpl. rewrite Hleg.
  destruct (Z.leb_spec 0 (Z.of_nat i)); [|lia].
  unfold size_t_of_int, size_t_wrap.
  rewrite Z.mod_small by (unfold INT_MAX in Hint; lia).
  by rewrite Nat2Z.id.
Qed.

(** ** Sorting *)

Lemma MatchInfo_compare_spec a b :
  MatchInfo_compare a b = true <->
  pos a < pos b \/ (pos a = pos b /\ notMatchingCharCount a < notMatchingCharCount b).
Proof.
  unfold MatchInfo_compare.
  destruct (Z.eqb_spec (pos a) (pos b)); simpl.
  - rewrite Z.ltb_lt. lia.
  - rewrite Z.ltb_lt. lia.
Qed.

Lemma MatchInfo_compare_false a b :
  MatchInfo_compare a b = false <->
  pos b < pos a \/ (pos a = pos b /\ notMatchingCharCount b <= notMatchingCharCount a).
Proof.
  pose proof (MatchInfo_compare_spec a b) as H.
  destruct (MatchInfo_compare a b).
  - split; [done|]. intros Hf. assert (Ht : true = true) by done.
    apply H in Ht. lia.
  - split; [|done]. intros _.
    destruct (Z.lt_trichotomy (pos a) (pos b)) as [Hlt|[Heq|Hgt]].
    + assert (false = true) by (apply H; lia). done.
    + destruct (Z.lt_ge_cases (notMatchingCharCount a) (notMatchingCharCount b)).
      * assert (false = true) by (apply H; lia). done.
      * lia.
    + lia.
Qed.

Lemma sort_insert_In x sorted y :
  In y (sort_insert x sorted) <-> y = x \/ In y sorted.
Proof.
  induction sorted as [|z sorted IH]; simpl.
  - intuition.
  - destruct (MatchInfo_compare z x); simpl; [rewrite IH|]; intuition.
Qed.

Lemma std_sort_In v y : In y (std_sort v) <-> In y v.
Proof.
  induction v as [|x v IH]; simpl; [done|].
  rewrite sort_insert_In, IH. intuition.
Qed.

Lemma sort_insert_length x sorted :
  length (sort_insert x sorted) = S (length sorted).
Proof.
  induction sorted as [|z sorted IH]; simpl; [done|].
  destruct (MatchInfo_compare z x); simpl; [by rewrite IH|done].
Qed.

Lemma std_sort_length v : length (std_sort v) = length v.
Proof.
  induction v as [|x v IH]; simpl; [done|].
  by rewrite sort_insert_length, IH.
Qed.

Lemma head_sort_insert x sorted :
  head (sort_insert x sorted) =
    match head sorted with
    | Some y => if MatchInfo_compare y x then Some y else Some x
    | None => Some x
    end.
Proof.
  destruct sorted as [|y sorted]; simpl; [done|].
  by destruct (MatchInfo_compare y x).
Qed.

(** The front of the sorted vector is the first of the least elements:
    what stands before it in the vector is greater, what stands behind is
    not less. *)
Lemma head_std_sort v best :
  head (std_sort v) = Some best ->
  exists before behind,
    v = before ++ best :: behind /\
    Forall (fun other => MatchInfo_compare best other = true) before /\
    Forall (fun other => MatchInfo_compare other best = false) behind.
Proof.
  revert best. induction v as [|x v IH]; intros best; simpl; [done|].
  rewrite head_sort_insert.
  destruct (head (std_sort v)) as [y|] eqn:Ey.
  - destruct (IH y eq_refl) as (before & behind & -> & Hbefore & Hbehind).
    destruct (MatchInfo_compare y x) eqn:Eyx; intros ?; simplify_eq.
    + exists (x :: before), behind. split; [done|]. split; [|done].
      by constructor.
    + exists [], (before ++ y :: behind). split; [done|]. split; [constructor|].
      apply MatchInfo_compare_false in Eyx.
      apply Forall_app. split; [|constructor].
      * eapply Forall_impl; [exact Hbefore|]. simpl. intros other Ho.
        apply MatchInfo_compare_spec in Ho.
        apply MatchInfo_compare_false. lia.
      * apply MatchInfo_compare_false. lia.
      * eapply Forall_impl; [exact Hbehind|]. simpl. intros other Ho.
        apply MatchInfo_compare_false in Ho.
        apply MatchInfo_compare_false. lia.
  - intros ?. simplify_eq. exists [], v. split; [done|]. split; [constructor|].
    destruct v as [|z v]; [constructor|].
    simpl in Ey. rewrite head_sort_insert in Ey.
    destruct (head (std_sort v)) as [y|]; [|done].
    by destruct (MatchInfo_compare y z).
Qed.

Lemma head_std_sort_Some v :
  v <> [] -> exists best, head (std_sort v) = Some best.
Proof.
  intros Hv. destruct (std_sort v) as [|best sorted] eqn:E.
  - apply (f_equal length) in E. rewrite std_sort_length in E.
    destruct v; [done|]. simpl in E. lia.
  - by exists best.
Qed.

(** ** The loops of [autoComplete] as list functions *)

Lemma bestMatchOf_alias token ref best :
  bestMatchOf token ref = Some best ->
  exists alias, In alias ref.2 /\ best = makeMatchInfo token ref.1.1 ref.1.2 alias.
Proof.
  unfold bestMatchOf. intros H.
  assert (Hin : In best (std_sort (map (makeMatchInfo token ref.1.1 ref.1.2) ref.2))).
  { destruct (std_sort _); [done|]. simpl in H. simplify_eq. by left. }
  apply std_sort_In, in_map_iff in Hin as (alias & <- & Hin). eauto.
Qed.

Lemma groupLoop_spec token cmdID groupID groups sw im :
  groupLoop token cmdID groupID groups sw im =
    Ok (sw ++ List.filter isStartsWith
                (bestMatches token (indexedGroups cmdID groupID groups)),
        im ++ List.filter isInMiddle
                (bestMatches token (indexedGroups cmdID groupID groups))).
Proof.
  revert groupID sw im. induction groups as [|aliasGroup rest IH];
    intros groupID sw im; simpl.
  - by rewrite !app_nil_r.
  - destruct aliasGroup as [|alias aliases].
    + rewrite IH. done.
    + destruct (head_std_sort_Some
                  (map (makeMatchInfo token cmdID groupID) (alias :: aliases)))
        as (best & Hbest); [done|].
      assert (Hb : bestMatchOf token (cmdID, groupID, alias :: aliases) = Some best)
        by exact Hbest.
      unfold bestMatches. simpl omap. rewrite Hb.
      unfold at_. rewrite <- head_lookup, Hbest. simpl.
      rewrite !IH.
      assert (E1 : isStartsWith best = (pos best =? 0)) by done.
      assert (E2 : isInMiddle best =
                   (negb (pos best =? 0) && negb (pos best =? npos))%bool) by done.
      rewrite E1, E2.
      destruct (pos best =? 0), (pos best =? npos); simpl;
        rewrite <- ?app_assoc; done.
Qed.

Lemma subscript_insert_ne {A} (v : list A) i j x :
  i <> j -> subscript (<[i := x]> v) j = subscript v j.
Proof. intros H. unfold subscript. by rewrite list_lookup_insert_ne. Qed.

Lemma evaluatedCommands_insert w limitToFixed tokenID commands cmdID alive i b :
  (i < cmdID)%nat ->
  evaluatedCommands w limitToFixed tokenID commands cmdID (<[i := b]> alive) =
  evaluatedCommands w limitToFixed tokenID commands cmdID alive.
Proof.
  revert cmdID. induction commands as [|command rest IH]; intros cmdID Hi; simpl; [done|].
  rewrite subscript_insert_ne by lia.
  destruct (subscript alive cmdID) as [isAlive|]; simpl; [|done].
  rewrite !IH by lia. done.
Qed.

Lemma commandLoop_spec w limitToFixed token tokenID commands cmdID st :
  commandLoop w limitToFixed token tokenID commands cmdID st =
    evaluated ← evaluatedCommands w limitToFixed tokenID commands cmdID
                  (commandIsAlive st);
    Ok (mkCollected
          (markDead evaluated (commandIsAlive st))
          (startsWith st ++ List.filter isStartsWith
             (bestMatches token (evaluatedGroups evaluated)))
          (inMiddle st ++ List.filter isInMiddle
             (bestMatches token (evaluatedGroups evaluated)))
          (recordGroups evaluated (allGroups st))).
Proof.
  revert cmdID st. induction commands as [|command rest IH]; intros cmdID st; simpl.
  - destruct st. simpl. by rewrite !app_nil_r.
  - destruct (subscript (commandIsAlive st) cmdID) as [isAlive|e]; simpl; [|done].
    destruct (isAlive && (tokenID <? cmdEnd limitToFixed command)%nat)%bool; [|apply IH].
    destruct (subscript (generators command) tokenID) as [generator|e]; simpl; [|done].
    rewrite groupLoop_spec. simpl. rewrite IH. simpl.
    rewrite evaluatedCommands_insert by lia.
    destruct (evaluatedCommands w limitToFixed tokenID rest (S cmdID) (commandIsAlive st))
      as [others|e]; simpl; [|done].
    unfold evaluatedGroups, bestMatches. simpl.
    rewrite !omap_app, !List.filter_app, <- !app_assoc. done.
Qed.

Lemma evaluatedCommands_ids w limitToFixed tokenID commands cmdID alive evaluated :
  evaluatedCommands w limitToFixed tokenID commands cmdID alive = Ok evaluated ->
  Forall (fun called => (cmdID <= called.1 < cmdID + length commands)%nat) evaluated /\
  NoDup (map fst evaluated).
Proof.
  revert cmdID evaluated. induction commands as [|command rest IH];
    intros cmdID evaluated; simpl.
  - intros ?. simplify_eq. split; constructor.
  - destruct (subscript alive cmdID) as [isAlive|e]; simpl; [|done].
    assert (Hrest : forall others,
              evaluatedCommands w limitToFixed tokenID rest (S cmdID) alive = Ok others ->
              Forall (fun called => (cmdID < called.1 < cmdID + S (length rest))%nat) others /\
              NoDup (map fst others)).
    { intros others Ho. destruct (IH _ _ Ho) as [H1 H2]. split; [|done].
      eapply Forall_impl; [exact H1|]. simpl. intros; lia. }
    destruct (isAlive && (tokenID <? cmdEnd limitToFixed command)%nat)%bool.
    + destruct (subscript (generators command) tokenID) as [generator|e]; simpl; [|done].
      destruct (evaluatedCommands w limitToFixed tokenID rest (S cmdID) alive)
        as [others|e] eqn:Eo; simpl; [|done].
      intros ?. simplify_eq. destruct (Hrest others eq_refl) as [H1 H2]. split.
      * constructor; [simpl; lia|].
        eapply Forall_impl; [exact H1|]. simpl. intros; lia.
      * simpl. constructor; [|done].
        rewrite list_elem_of_In, in_map_iff. intros (called & Heq & Hin).
        rewrite Forall_forall in H1. apply list_elem_of_In, H1 in Hin. lia.
    + intros Ho. destruct (Hrest _ Ho) as [H1 H2]. split; [|done].
      eapply Forall_impl; [exact H1|]. simpl. intros; lia.
Qed.

Lemma markDead_length evaluated alive :
  length (markDead evaluated alive) = length alive.
Proof.
  unfold markDead. revert alive. induction evaluated as [|called rest IH];
    intros alive; simpl; [done|].
  by rewrite IH, length_insert.
Qed.

Lemma recordGroups_other evaluated groups id :
  ~ In id (map fst evaluated) ->
  recordGroups evaluated groups !! id = groups !! id.
Proof.
  unfold recordGroups. revert groups. induction evaluated as [|called rest IH];
    intros groups Hid; simpl; [done|].
  simpl in Hid. rewrite IH by tauto.
  apply list_lookup_insert_ne. tauto.
Qed.

Lemma recordGroups_lookup evaluated groups id returned :
  NoDup (map fst evaluated) ->
  In (id, returned) evaluated ->
  (id < length groups)%nat ->
  recordGroups evaluated groups !! id = Some returned.
Proof.
  unfold recordGroups. revert groups. induction evaluated as [|called rest IH];
    intros groups Hnd Hin Hid; simpl; [done|].
  simpl in Hnd. apply NoDup_cons in Hnd as [Hnotin Hnd].
  destruct Hin as [->|Hin].
  - simpl. fold (recordGroups rest (<[id := returned]> groups)).
    rewrite recordGroups_other.
    + by apply list_lookup_insert_eq.
    + by rewrite <- list_elem_of_In.
  - apply IH; [done|done|by rewrite length_insert].
Qed.

Lemma indexedGroups_lookup cmdID groupID groups ref :
  In ref (indexedGroups cmdID groupID groups) ->
  ref.1.1 = cmdID /\ (groupID <= ref.1.2)%nat /\
  groups !! (ref.1.2 - groupID)%nat = Some ref.2.
Proof.
  revert groupID. induction groups as [|aliasGroup rest IH]; intros groupID; simpl; [done|].
  intros [<-|Hin]; simpl.
  - split; [done|]. split; [lia|]. by rewrite Nat.sub_diag.
  - destruct (IH _ Hin) as (H1 & H2 & H3). split; [done|]. split; [lia|].
    replace (ref.1.2 - groupID)%nat with (S (ref.1.2 - S groupID)) by lia. done.
Qed.

Lemma evaluatedGroups_In evaluated ref :
  In ref (evaluatedGroups evaluated) ->
  exists returned, In (ref.1.1, returned) evaluated /\
                   returned !! ref.1.2 = Some ref.2.
Proof.
  unfold evaluatedGroups. rewrite in_flat_map.
  intros ([id returned] & Hin & Href). simpl in Href.
  apply indexedGroups_lookup in Href as (H1 & H2 & H3).
  exists returned. rewrite H1. split; [done|].
  by rewrite Nat.sub_0_r in H3.
Qed.

Lemma bestMatches_In token refs best :
  In best (bestMatches token refs) ->
  exists ref alias,
    In ref refs /\ bestMatchOf token ref = Some best /\ In alias ref.2 /\
    best = makeMatchInfo token ref.1.1 ref.1.2 alias.
Proof.
  unfold bestMatches. rewrite <- list_elem_of_In, list_elem_of_omap.
  intros (ref & Href & Hbest). apply list_elem_of_In in Href.
  destruct (bestMatchOf_alias _ _ _ Hbest) as (alias & Halias & ->).
  exists ref, alias. done.
Qed.

(** Every match in a bucket names a group that [allGroups] holds. *)
Lemma bestMatches_recorded token evaluated groups best :
  NoDup (map fst evaluated) ->
  Forall (fun called => (called.1 < length groups)%nat) evaluated ->
  In best (bestMatches token (evaluatedGroups evaluated)) ->
  exists ofCommand group,
    recordGroups evaluated groups !! commandID best = Some ofCommand /\
    ofCommand !! groupID best = Some group.
Proof.
  intros Hnd Hlen Hin.
  apply bestMatches_In in Hin as (ref & alias & Href & _ & _ & ->).
  apply evaluatedGroups_In in Href as (returned & Hcalled & Hgroup).
  exists returned, ref.2. simpl. split; [|done].
  apply recordGroups_lookup; [done|done|].
  rewrite List.Forall_forall in Hlen. apply (Hlen _ Hcalled).
Qed.

Lemma suggestionLines_ok groups matchInfos :
  Forall (fun matchInfo => exists ofCommand group,
            groups !! commandID matchInfo = Some ofCommand /\
            ofCommand !! groupID matchInfo = Some group) matchInfos ->
  exists lines, suggestionLines groups matchInfos = Ok lines.
Proof.
  induction 1 as [|matchInfo rest (ofCommand & group & H1 & H2) _ (lines & IH)]; simpl.
  - by eexists.
  - unfold suggestionLine, subscript. rewrite H1. simpl. rewrite H2. simpl.
    rewrite IH. simpl. by eexists.
Qed.

Lemma suggestions_ok token evaluated st :
  NoDup (map fst evaluated) ->
  Forall (fun called => (called.1 < length (allGroups st))%nat) evaluated ->
  exists logged,
    suggestions
      (mkCollected (markDead evaluated (commandIsAlive st))
         (List.filter isStartsWith (bestMatches token (evaluatedGroups evaluated)))
         (List.filter isInMiddle (bestMatches token (evaluatedGroups evaluated)))
         (recordGroups evaluated (allGroups st))) = Ok logged.
Proof.
  intros Hnd Hlen. unfold suggestions. simpl.
  assert (Hall : forall keep,
            Forall (fun matchInfo => exists ofCommand group,
                      recordGroups evaluated (allGroups st) !! commandID matchInfo
                        = Some ofCommand /\
                      ofCommand !! groupID matchInfo = Some group)
              (std_sort (List.filter keep
                           (bestMatches token (evaluatedGroups evaluated))))).
  { intros keep. apply Forall_forall. intros best Hbest.
    apply list_elem_of_In, std_sort_In, filter_In in Hbest as [Hbest _].
    by eapply bestMatches_recorded. }
  destruct (suggestionLines_ok _ _ (Hall isStartsWith)) as (first & ->).
  destruct (suggestionLines_ok _ _ (Hall isInMiddle)) as (second & ->).
  simpl. by eexists.
Qed.

(** The body of the token loop, once the generator calls are known to be
    defined: the bucket is chosen among the best matches of the groups
    evaluated. *)
Lemma tokenStep_spec w commands limitToFixed showSuggestions tokenID token
    alive newTokens evaluated :
  evaluatedCommands w limitToFixed tokenID commands 0 alive = Ok evaluated ->
  exists logged,
    tokenStep w commands limitToFixed showSuggestions tokenID token alive newTokens =
      Ok (selectBucket
            (List.filter isStartsWith (bestMatches token (evaluatedGroups evaluated)))
            (List.filter isInMiddle (bestMatches token (evaluatedGroups evaluated)))
            tokenID (markDead evaluated alive) newTokens,
          logged).
Proof.
  intros Hev. unfold tokenStep. rewrite commandLoop_spec. simpl.
  rewrite Hev. simpl.
  destruct (selectBucket _ _ tokenID (markDead evaluated alive) newTokens)
    as [alive' newTokens'] eqn:Esel.
  destruct showSuggestions; simpl; [|by eexists].
  destruct (evaluatedCommands_ids _ _ _ _ _ _ _ Hev) as [Hids Hnd].
  destruct (suggestions_ok token evaluated
              (mkCollected alive [] [] (replicate (length commands) [])))
    as (logged & Hlogged); [done| |].
  { simpl. rewrite length_replicate.
    eapply Forall_impl; [exact Hids|]. simpl. intros; lia. }
  simpl in Hlogged. rewrite Hlogged. simpl. by eexists.
Qed.

(** ** When [autoComplete] is defined *)

Lemma cmdEnd_generators limitToFixed (command : @ConsoleCommand World) tokenID :
  limitToFixed = false \/ arity_ok command ->
  (tokenID < cmdEnd limitToFixed command)%nat ->
  (tokenID < length (generators command))%nat.
Proof.
  unfold cmdEnd, arity_ok. intros [->|H]; [done|].
  destruct limitToFixed; lia.
Qed.

Lemma subscript_Some {A} (v : list A) i a :
  v !! i = Some a -> subscript v i = Ok a.
Proof. intros H. unfold subscript. by rewrite H. Qed.

Lemma evaluatedCommands_ok w limitToFixed tokenID commands cmdID alive :
  (cmdID + length commands <= length alive)%nat ->
  limitToFixed = false \/ Forall arity_ok commands ->
  exists evaluated,
    evaluatedCommands w limitToFixed tokenID commands cmdID alive = Ok evaluated.
Proof.
  revert cmdID. induction commands as [|command rest IH]; intros cmdID Hlen Har; simpl.
  - by eexists.
  - simpl in Hlen.
    destruct (alive !! cmdID) as [isAlive|] eqn:Ea;
      [|apply lookup_ge_None in Ea; lia].
    rewrite (subscript_Some _ _ _ Ea). simpl.
    destruct (IH (S cmdID)) as (others & Ho); [lia| |].
    { destruct Har as [->|Har]; [by left|right]. by inversion Har. }
    destruct isAlive; simpl; [|eauto].
    destruct (Nat.ltb_spec tokenID (cmdEnd limitToFixed command)); [|eauto].
    destruct (generators command !! tokenID) as [generator|] eqn:Eg.
    + rewrite (subscript_Some _ _ _ Eg). simpl. rewrite Ho. simpl. by eexists.
    + apply lookup_ge_None in Eg.
      assert (tokenID < length (generators command))%nat; [|lia].
      apply (cmdEnd_generators limitToFixed); [|done].
      destruct Har as [->|Har]; [by left|right]. by inversion Har.
Qed.

Lemma bucketLoop_length reference matchInfos alive commonLength longest :
  length (bucketLoop reference matchInfos alive commonLength longest).1.1 =
  length alive.
Proof.
  revert alive commonLength longest.
  induction matchInfos as [|matchInfo rest IH]; intros alive commonLength longest;
    simpl; [done|].
  by rewrite IH, length_insert.
Qed.

Lemma processBucket_length front matchInfos tokenID alive newTokens :
  length (processBucket front matchInfos tokenID alive newTokens).1 = length alive /\
  length (processBucket front matchInfos tokenID alive newTokens).2 = length newTokens.
Proof.
  unfold processBucket.
  pose proof (bucketLoop_length (candidateLowered front) matchInfos alive
                (size (candidateLowered front)) (size (candidateLowered front))) as H.
  destruct (bucketLoop _ _ _ _ _) as [[alive' commonLength] longest]. simpl in H.
  destruct (negb (commonLength =? 0)); simpl; [|done].
  by rewrite length_insert.
Qed.

Lemma selectBucket_length sw im tokenID alive newTokens :
  length (selectBucket sw im tokenID alive newTokens).1 = length alive /\
  length (selectBucket sw im tokenID alive newTokens).2 = length newTokens.
Proof.
  unfold selectBucket. destruct sw as [|front sw]; [destruct im as [|front im]|];
    try apply processBucket_length. done.
Qed.

Lemma tokenLoop_ok w commands limitToFixed showSuggestions tokens tokenID
    alive newTokens :
  length alive = length commands ->
  limitToFixed = false \/ Forall arity_ok commands ->
  exists r,
    tokenLoop w commands limitToFixed showSuggestions tokens tokenID alive newTokens
      = Ok r.
Proof.
  revert tokenID alive newTokens.
  induction tokens as [|token rest IH]; intros tokenID alive newTokens Hlen Har; simpl.
  - by eexists.
  - destruct (evaluatedCommands_ok w limitToFixed tokenID commands 0 alive)
      as (evaluated & Hev); [lia|done|].
    destruct (tokenStep_spec w commands limitToFixed showSuggestions tokenID token
                alive newTokens evaluated Hev) as (logged & ->).
    simpl.
    pose proof (selectBucket_length
                  (List.filter isStartsWith (bestMatches token (evaluatedGroups evaluated)))
                  (List.filter isInMiddle (bestMatches token (evaluatedGroups evaluated)))
                  tokenID (markDead evaluated alive) newTokens) as [Hl _].
    destruct (selectBucket _ _ _ _ _) as [alive' newTokens']. simpl in Hl.
    destruct (IH (S tokenID) alive' newTokens') as (r & ->); [|done|].
    { by rewrite Hl, markDead_length. }
    simpl. by eexists.
Qed.

Lemma back_ok s : s <> "" -> exists last, back s = Ok last.
Proof.
  induction s as [|ch s IH]; [done|]. intros _. simpl.
  destruct s as [|ch' s]; [by eexists|]. by apply IH.
Qed.

(** C10.  Called with [overwriteInput = false], [autoComplete] leaves the
    line as it was: whenever the call returns, the line is the input line,
    whatever the other two flags; and it does return when only the
    generators that exist are asked for, that is when [limitToFixed] is off
    or every command keeps the bound [numFixTokens <= generators.size()]. *)
Theorem autoComplete_keeps_input w commands input limitToFixed showSuggestions :
  (forall line logged,
     autoComplete w commands input limitToFixed showSuggestions false
       = Ok (line, logged) ->
     line = input) /\
  (limitToFixed = false \/ Forall arity_ok commands ->
   exists logged,
     autoComplete w commands input limitToFixed showSuggestions false
       = Ok (input, logged)).
Proof.
  unfold autoComplete. split.
  - intros line logged. destruct (istream_tokens input "") as [|token tokens].
    + intros ?. by simplify_eq.
    + destruct (tokenLoop _ _ _ _ _ _ _ _) as [r|e]; simpl; [|done].
      intros ?. by simplify_eq.
  - intros Har. destruct (istream_tokens input "") as [|token tokens].
    + by eexists.
    + destruct (tokenLoop_ok w commands limitToFixed showSuggestions
                  (map lower (token :: tokens)) 0
                  (replicate (length commands) true)
                  (map (fun token => (token, false)) (token :: tokens)))
        as (r & ->); [by rewrite length_replicate|done|].
      simpl. by eexists.
Qed.

(** ** Matching *)

Lemma find_from_found s t from :
  find_from s t from = npos \/
  exists k, find_from s t from = Z.of_nat (from + k).
Proof.
  revert from. induction s as [|ch s IH]; intros from; cbn [find_from].
  - destruct (isPrefix t ""); [right|by left].
    exists 0%nat. f_equal. lia.
  - destruct (isPrefix t (String ch s)).
    + right. exists 0%nat. f_equal. lia.
    + destruct (IH (S from)) as [H|(k & H)]; [by left|right].
      exists (S k). rewrite H. f_equal. lia.
Qed.

(** A match at position 0 is a prefix match. *)
Lemma find_0_prefix s t : find s t = 0 <-> isPrefix t s = true.
Proof.
  unfold find. destruct s as [|ch s]; cbn [find_from].
  - destruct (isPrefix t ""); [done|]. by unfold npos, SIZE_MAX.
  - destruct (isPrefix t (String ch s)); [done|].
    destruct (find_from_found s t 1) as [->|(k & ->)].
    + by unfold npos, SIZE_MAX.
    + split; [lia|done].
Qed.

Lemma find_nonneg s t : 0 <= find s t.
Proof.
  unfold find. destruct (find_from_found s t 0) as [->|(k & ->)];
    [by unfold npos, SIZE_MAX|lia].
Qed.

Lemma commonStartLength_nonneg a b : 0 <= commonStartLength a b.
Proof.
  revert b. induction a as [|x a IH]; intros b; simpl; [lia|].
  destruct b as [|y b]; [lia|]. destruct (Ascii.eqb x y); [|lia].
  specialize (IH b). lia.
Qed.

Lemma prefix_commonStartLength t a b :
  isPrefix t a = true -> isPrefix t b = true ->
  size t <= commonStartLength a b.
Proof.
  revert a b. induction t as [|ch t IH]; intros a b.
  - intros _ _. change (size "") with 0. apply commonStartLength_nonneg.
  - intros Ha Hb.
    destruct a as [|x a]; [discriminate Ha|]. destruct b as [|y b]; [discriminate Hb|].
    simpl in Ha, Hb.
    apply andb_true_iff in Ha as [->%Ascii.eqb_eq Ha].
    apply andb_true_iff in Hb as [->%Ascii.eqb_eq Hb].
    simpl. rewrite Ascii.eqb_refl.
    specialize (IH a b Ha Hb). unfold size in *. simpl String.length. lia.
Qed.

Lemma size_lower s : size (lower s) = size s.
Proof.
  unfold size. induction s as [|ch s IH]; simpl; [done|]. lia.
Qed.

Lemma size_substr0 s n :
  0 <= n -> size (substr0 s n) = Z.min n (size s).
Proof.
  unfold substr0, size. intros Hn.
  rewrite <- (Z2Nat.id n) at 2 by done.
  generalize (Z.to_nat n). clear n Hn. intros n.
  revert n. induction s as [|ch s IH]; intros n; simpl.
  - destruct n; simpl; lia.
  - destruct n as [|n]; simpl; [lia|]. specialize (IH n). lia.
Qed.

(** ** The bucket loop *)

Lemma bucketLoop_alive reference matchInfos alive commonLength longest :
  (bucketLoop reference matchInfos alive commonLength longest).1.1 =
  foldl (fun alive matchInfo => <[commandID matchInfo := true]> alive)
    alive matchInfos.
Proof.
  revert alive commonLength longest.
  induction matchInfos as [|matchInfo rest IH]; intros alive commonLength longest;
    simpl; [done|]. apply IH.
Qed.

Lemma bucketLoop_commonLength_ge reference matchInfos alive commonLength longest n :
  n <= commonLength ->
  Forall (fun matchInfo =>
            n <= commonStartLength reference (candidateLowered matchInfo))
    matchInfos ->
  n <= (bucketLoop reference matchInfos alive commonLength longest).1.2.
Proof.
  intros Hn Hall. revert alive commonLength longest Hn.
  induction Hall as [|matchInfo rest Hm Hrest IH]; intros alive commonLength longest Hn;
    simpl; [done|]. apply IH. lia.
Qed.

Lemma bucketLoop_commonLength_le reference matchInfos alive commonLength longest :
  (bucketLoop reference matchInfos alive commonLength longest).1.2 <= commonLength.
Proof.
  revert alive commonLength longest.
  induction matchInfos as [|matchInfo rest IH]; intros alive commonLength longest;
    simpl; [done|].
  etransitivity; [apply IH|]. lia.
Qed.

(** A command is alive after the marks of a bucket when it was alive before
    or the bucket holds a match of it. *)
Lemma marked_alive matchInfos (alive : list bool) cmdID :
  foldl (fun alive matchInfo => <[commandID matchInfo := true]> alive)
    alive matchInfos !! cmdID = Some true ->
  alive !! cmdID = Some true \/
  exists matchInfo, In matchInfo matchInfos /\ commandID matchInfo = cmdID.
Proof.
  revert alive. induction matchInfos as [|matchInfo rest IH]; intros alive; simpl.
  - by left.
  - intros H. destruct (IH _ H) as [Hl|(m & Hm & Hc)].
    + destruct (decide (commandID matchInfo = cmdID)) as [Heq|Hne].
      * right. exists matchInfo. auto.
      * left. by rewrite list_lookup_insert_ne in Hl.
    + right. exists m. auto.
Qed.

Lemma bestMatches_fields token refs best :
  In best (bestMatches token refs) ->
  candidateLowered best = lower (candidate best) /\
  pos best = find (candidateLowered best) token.
Proof.
  intros H. apply bestMatches_In in H as (ref & alias & _ & _ & _ & ->). done.
Qed.

(** ** The prefix bucket *)

Lemma processBucket_alive front matchInfos tokenID alive newTokens :
  (processBucket front matchInfos tokenID alive newTokens).1 =
  foldl (fun alive matchInfo => <[commandID matchInfo := true]> alive)
    alive matchInfos.
Proof.
  unfold processBucket.
  pose proof (bucketLoop_alive (candidateLowered front) matchInfos alive
                (size (candidateLowered front)) (size (candidateLowered front))) as H.
  destruct (bucketLoop _ _ _ _ _) as [[alive' commonLength] longest]. simpl in H.
  by destruct (negb (commonLength =? 0)).
Qed.

Lemma prefixBucket_prefix token refs matchInfo :
  In matchInfo (List.filter isStartsWith (bestMatches token refs)) ->
  isPrefix token (candidateLowered matchInfo) = true.
Proof.
  intros [Hin Hpos]%filter_In.
  destruct (bestMatches_fields _ _ _ Hin) as [_ Hfind].
  apply find_0_prefix. rewrite <- Hfind. by apply Z.eqb_eq.
Qed.

(** The command loop, started as the token loop starts it, leaves the
    buckets of the best matches of the groups evaluated. *)
Lemma commandLoop_collected w limitToFixed token tokenID commands alive st :
  commandLoop w limitToFixed token tokenID commands 0
    (mkCollected alive [] [] (replicate (length commands) [])) = Ok st ->
  exists evaluated,
    evaluatedCommands w limitToFixed tokenID commands 0 alive = Ok evaluated /\
    commandIsAlive st = markDead evaluated alive /\
    startsWith st =
      List.filter isStartsWith (bestMatches token (evaluatedGroups evaluated)) /\
    inMiddle st =
      List.filter isInMiddle (bestMatches token (evaluatedGroups evaluated)).
Proof.
  rewrite commandLoop_spec. simpl.
  destruct (evaluatedCommands w limitToFixed tokenID commands 0 alive)
    as [evaluated|e]; simpl; [|done].
  intros Heq. injection Heq as <-. by exists evaluated.
Qed.

(** C2.  When the prefix bucket is not empty after the command loop for a
    token, that is when the best candidate of some alias group starts with
    the token, the body of the token loop comes out as the prefix bucket
    alone decides: its result is that of processing the prefix bucket,
    whatever the substring bucket holds.  The prefix bucket holds matches at
    position 0 only, the substring bucket matches at a later position only,
    and a command is alive after the step only if it was alive and not
    evaluated, or the prefix bucket holds a match of it. *)
Theorem prefix_bucket_dominates w commands limitToFixed showSuggestions tokenID
    token alive newTokens st front others :
  commandLoop w limitToFixed token tokenID commands 0
    (mkCollected alive [] [] (replicate (length commands) [])) = Ok st ->
  startsWith st = front :: others ->
  Forall (fun matchInfo =>
            pos matchInfo = 0 /\
            isPrefix token (candidateLowered matchInfo) = true)
    (startsWith st) /\
  Forall (fun matchInfo =>
            0 < pos matchInfo /\ pos matchInfo <> npos /\
            isPrefix token (candidateLowered matchInfo) = false)
    (inMiddle st) /\
  (exists logged,
     tokenStep w commands limitToFixed showSuggestions tokenID token alive
       newTokens
     = Ok (processBucket front (startsWith st) tokenID (commandIsAlive st)
             newTokens, logged)) /\
  (forall substringBucket,
     selectBucket (startsWith st) substringBucket tokenID (commandIsAlive st)
       newTokens =
     processBucket front (startsWith st) tokenID (commandIsAlive st) newTokens) /\
  (forall cmdID,
     (processBucket front (startsWith st) tokenID (commandIsAlive st)
        newTokens).1 !! cmdID = Some true ->
     commandIsAlive st !! cmdID = Some true \/
     exists matchInfo,
       In matchInfo (startsWith st) /\ commandID matchInfo = cmdID).
Proof.
  intros Hloop Hfront.
  destruct (commandLoop_collected _ _ _ _ _ _ _ Hloop)
    as (evaluated & Hev & Halive & Hsw & Him).
  split; [|split; [|split; [|split]]].
  - rewrite Hsw. apply List.Forall_forall. intros matchInfo Hm.
    pose proof (prefixBucket_prefix _ _ _ Hm) as Hprefix.
    apply filter_In in Hm as [_ Hm]. split; [by apply Z.eqb_eq|done].
  - rewrite Him. apply List.Forall_forall. intros matchInfo Hm.
    apply filter_In in Hm as [Hin Hm]. unfold isInMiddle in Hm.
    apply andb_true_iff in Hm as [H0 Hn].
    apply negb_true_iff, Z.eqb_neq in H0. apply negb_true_iff, Z.eqb_neq in Hn.
    destruct (bestMatches_fields _ _ _ Hin) as [_ Hfind].
    pose proof (find_nonneg (candidateLowered matchInfo) token).
    split; [lia|]. split; [done|].
    destruct (isPrefix token (candidateLowered matchInfo)) eqn:E; [|done].
    apply find_0_prefix in E. congruence.
  - destruct (tokenStep_spec w commands limitToFixed showSuggestions tokenID token
                alive newTokens evaluated Hev) as (logged & Hstep).
    exists logged. rewrite Hstep, <- Hsw, <- Him, <- Halive.
    unfold selectBucket. by rewrite Hfront.
  - intros substringBucket. unfold selectBucket. by rewrite Hfront.
  - intros cmdID. rewrite processBucket_alive. apply marked_alive.
Qed.

Lemma processBucket_prefix token front matchInfos tokenID alive newTokens
    typed noLongerMatch :
  Forall (fun matchInfo =>
            isPrefix token (candidateLowered matchInfo) = true) matchInfos ->
  isPrefix token (candidateLowered front) = true ->
  size (candidate front) = size (candidateLowered front) ->
  newTokens !! tokenID = Some (typed, noLongerMatch) ->
  size typed = size token ->
  exists tokenNew noLongerMatch',
    (processBucket front matchInfos tokenID alive newTokens).2 !! tokenID
      = Some (tokenNew, noLongerMatch') /\
    size typed <= size tokenNew.
Proof.
  intros Hall Hfront Hsize Hlookup Htyped. unfold processBucket.
  set (reference := candidateLowered front) in *.
  pose proof (bucketLoop_commonLength_ge reference matchInfos alive
                (size reference) (size reference) (size token)) as Hge.
  pose proof (bucketLoop_commonLength_le reference matchInfos alive
                (size reference) (size reference)) as Hle.
  destruct (bucketLoop _ _ _ _ _) as [[alive' commonLength] longest].
  simpl in Hge, Hle.
  assert (Hself : size token <= size reference).
  { pose proof (prefix_commonStartLength token reference reference Hfront Hfront).
    pose proof (bucketLoop_commonLength_le reference [] alive
                  (size reference) (size reference)).
    assert (commonStartLength reference reference <= size reference); [|lia].
    clear. induction reference as [|ch s IH]; simpl; [done|].
    rewrite Ascii.eqb_refl. unfold size in *. simpl String.length. lia. }
  assert (Hcommon : size token <= commonLength).
  { apply Hge; [done|]. eapply Forall_impl; [exact Hall|]. simpl.
    intros matchInfo Hm. by apply prefix_commonStartLength. }
  destruct (Z.eqb_spec commonLength 0) as [->|Hne]; simpl.
  - exists typed, noLongerMatch. split; [done|]. lia.
  - eexists _, _. split.
    + apply list_lookup_insert_eq. by eapply lookup_lt_Some.
    + pose proof (size_nonneg token). rewrite size_substr0 by lia. lia.
Qed.

(** C5 (amended).  When the prefix bucket is not empty after the command
    loop for a token, so that it is the bucket used, the token the loop body
    leaves at that position is not shorter than the token typed there. *)
Theorem prefix_completion_not_shorter w commands limitToFixed showSuggestions
    tokenID typed noLongerMatch alive newTokens st :
  commandLoop w limitToFixed (lower typed) tokenID commands 0
    (mkCollected alive [] [] (replicate (length commands) [])) = Ok st ->
  startsWith st <> [] ->
  newTokens !! tokenID = Some (typed, noLongerMatch) ->
  exists alive' newTokens' logged tokenNew noLongerMatch',
    tokenStep w commands limitToFixed showSuggestions tokenID (lower typed)
      alive newTokens = Ok (alive', newTokens', logged) /\
    newTokens' !! tokenID = Some (tokenNew, noLongerMatch') /\
    size typed <= size tokenNew.
Proof.
  intros Hloop Hbucket Hlookup.
  destruct (commandLoop_collected _ _ _ _ _ _ _ Hloop)
    as (evaluated & Hev & _ & Hsw & _).
  rewrite Hsw in Hbucket. clear Hloop Hsw st.
  destruct (tokenStep_spec w commands limitToFixed showSuggestions tokenID
              (lower typed) alive newTokens evaluated Hev) as (logged & Hstep).
  set (bests := bestMatches (lower typed) (evaluatedGroups evaluated)) in *.
  assert (Hall : Forall (fun matchInfo =>
            isPrefix (lower typed) (candidateLowered matchInfo) = true)
            (List.filter isStartsWith bests)).
  { apply List.Forall_forall. intros matchInfo Hm.
    by apply (prefixBucket_prefix _ (evaluatedGroups evaluated)). }
  destruct (List.filter isStartsWith bests) as [|front others] eqn:Ebucket; [done|].
  assert (Hfront : In front (List.filter isStartsWith bests)).
  { rewrite Ebucket. by left. }
  apply filter_In in Hfront as [Hfront _].
  destruct (bestMatches_fields _ _ _ Hfront) as [Hlowered _].
  destruct (processBucket_prefix (lower typed) front (front :: others) tokenID
              (markDead evaluated alive) newTokens typed noLongerMatch)
    as (tokenNew & noLongerMatch' & Hnew & Hsize);
    [done|by inversion Hall|by rewrite Hlowered, size_lower|done
    |by rewrite size_lower|].
  simpl in Hstep.
  destruct (processBucket front (front :: others) tokenID
              (markDead evaluated alive) newTokens) as [alive' newTokens'].
  exists alive', newTokens', logged, tokenNew, noLongerMatch'. done.
Qed.

(** ** More on strings *)

Lemma prefix_app t s :
  isPrefix t s = true <-> exists rest, s = t +:+ rest.
Proof.
  revert s. induction t as [|ch t IH]; intros s.
  - split; [intros _; by exists s|done].
  - destruct s as [|x s]; simpl.
    + split; [done|]. by intros (rest & ?).
    + rewrite andb_true_iff, Ascii.eqb_eq, IH. split.
      * intros [-> (rest & ->)]. by exists rest.
      * intros (rest & Hrest). simplify_eq. split; [done|]. by exists rest.
Qed.

Lemma prefix_refl s : isPrefix s s = true.
Proof. apply prefix_app. exists "". by rewrite app_empty_r. Qed.

Lemma prefix_trans a b d :
  isPrefix a b = true -> isPrefix b d = true ->
  isPrefix a d = true.
Proof.
  rewrite !prefix_app. intros (r1 & ->) (r2 & ->).
  exists (r1 +:+ r2). by rewrite app_assoc_string.
Qed.

Lemma prefix_size a b : isPrefix a b = true -> size a <= size b.
Proof.
  rewrite prefix_app. intros (rest & ->). rewrite size_app.
  pose proof (size_nonneg rest). lia.
Qed.

Lemma prefix_same_size a b :
  isPrefix a b = true -> size b <= size a -> b = a.
Proof.
  rewrite prefix_app. intros (rest & ->). rewrite size_app. intros H.
  pose proof (size_nonneg rest).
  rewrite (size_0 rest) by lia. apply app_empty_r.
Qed.

(** A common start as long as the first string makes it a prefix of the
    second. *)
Lemma commonStartLength_full a b :
  size a <= commonStartLength a b -> isPrefix a b = true.
Proof.
  revert b. induction a as [|x a IH]; intros b; simpl; [done|].
  destruct b as [|y b].
  - unfold size. simpl String.length. lia.
  - destruct (Ascii.eqb x y); simpl.
    + intros H. apply IH. unfold size in *. simpl String.length in H. lia.
    + unfold size. simpl String.length. lia.
Qed.

Lemma substr0_full s : substr0 s (size s) = s.
Proof.
  replace s with (s +:+ "") at 1 by apply app_empty_r. apply substr0_app.
Qed.

Lemma find_from_le_size s t from :
  find_from s t from = npos \/
  find_from s t from <= Z.of_nat from + size s.
Proof.
  revert from. induction s as [|ch s IH]; intros from; cbn [find_from].
  - destruct (isPrefix t ""); [right|by left].
    pose proof (size_nonneg ""). lia.
  - destruct (isPrefix t (String ch s)).
    + right. pose proof (size_nonneg (String ch s)). lia.
    + destruct (IH (S from)) as [H|H]; [by left|right].
      unfold size in *. simpl String.length. lia.
Qed.

(** What a string contains, a string it is a prefix of contains no later. *)
Lemma find_from_prefix_le r s t from :
  isPrefix r s = true ->
  find_from r t from <> npos ->
  find_from s t from <= find_from r t from.
Proof.
  revert s from. induction r as [|ch r IH]; intros s from Hrs; cbn [find_from].
  - destruct (isPrefix t "") eqn:Et; [|done]. intros _.
    assert (isPrefix t s = true) as Hts by (by eapply prefix_trans).
    destruct s as [|x s]; cbn [find_from]; rewrite Hts; lia.
  - destruct s as [|x s]; [done|].
    pose proof Hrs as Hrs'. simpl in Hrs'.
    apply andb_true_iff in Hrs' as [_ Hrs'].
    destruct (isPrefix t (String ch r)) eqn:Et.
    + intros _.
      assert (isPrefix t (String x s) = true) as Hts by (by eapply prefix_trans).
      cbn [find_from]. rewrite Hts. lia.
    + intros Hfound. cbn [find_from].
      destruct (isPrefix t (String x s)).
      * destruct (find_from_found r t (S from)) as [H|(k & H)]; [done|].
        rewrite H. lia.
      * by apply IH.
Qed.

(** ** More on the bucket loop *)

Lemma bucketLoop_essence reference matchInfos matchInfos' alive commonLength longest :
  map essence matchInfos = map essence matchInfos' ->
  bucketLoop reference matchInfos alive commonLength longest =
  bucketLoop reference matchInfos' alive commonLength longest.
Proof.
  revert matchInfos' alive commonLength longest.
  induction matchInfos as [|matchInfo rest IH];
    intros [|matchInfo' rest'] alive commonLength longest Heq; try done.
  cbn [map] in Heq. unfold essence at 1 2 in Heq.
  injection Heq as Hc Hcand Hlow Hrest. simpl. rewrite Hc, Hlow. by apply IH.
Qed.

Lemma bucketLoop_each reference matchInfos alive commonLength longest :
  let r := bucketLoop reference matchInfos alive commonLength longest in
  longest <= r.2 /\
  Forall (fun matchInfo =>
            r.1.2 <= commonStartLength reference (candidateLowered matchInfo) /\
            size (candidateLowered matchInfo) <= r.2) matchInfos.
Proof.
  revert alive commonLength longest.
  induction matchInfos as [|matchInfo rest IH]; intros alive commonLength longest;
    simpl; [split; [lia|constructor]|].
  specialize (IH (<[commandID matchInfo := true]> alive)
                (Z.min (commonStartLength reference (candidateLowered matchInfo))
                   commonLength)
                (Z.max longest (size (candidateLowered matchInfo)))).
  pose proof (bucketLoop_commonLength_le reference rest
                (<[commandID matchInfo := true]> alive)
                (Z.min (commonStartLength reference (candidateLowered matchInfo))
                   commonLength)
                (Z.max longest (size (candidateLowered matchInfo)))) as Hle.
  simpl in IH.
  destruct (bucketLoop reference rest _ _ _) as [[alive' commonLength'] longest'].
  simpl in *. destruct IH as [Hlong Hall].
  split; [lia|]. constructor; [lia|done].
Qed.

(** ** The best match of a group, for a token and for its completion *)

Lemma MatchInfo_compare_irrefl a : MatchInfo_compare a a = false.
Proof. apply MatchInfo_compare_false. lia. Qed.

Lemma MatchInfo_compare_asym a b :
  MatchInfo_compare a b = true -> MatchInfo_compare b a = false.
Proof.
  intros H%MatchInfo_compare_spec. apply MatchInfo_compare_false. lia.
Qed.

(** No alias of the group has a match less than the best one. *)
Lemma bestMatchOf_minimal token ref best alias :
  bestMatchOf token ref = Some best ->
  In alias ref.2 ->
  MatchInfo_compare (makeMatchInfo token ref.1.1 ref.1.2 alias) best = false.
Proof.
  unfold bestMatchOf. intros Hbest Halias.
  destruct (head_std_sort _ _ Hbest) as (before & behind & Hmap & Hbefore & Hbehind).
  assert (Hin : In (makeMatchInfo token ref.1.1 ref.1.2 alias)
                  (before ++ best :: behind)).
  { rewrite <- Hmap. by apply in_map. }
  apply in_app_or in Hin as [Hin|[<-|Hin]].
  - rewrite List.Forall_forall in Hbefore. apply MatchInfo_compare_asym.
    by apply Hbefore.
  - apply MatchInfo_compare_irrefl.
  - rewrite List.Forall_forall in Hbehind. by apply Hbehind.
Qed.

Lemma makeMatchInfo_key token cmdID groupID alias :
  pos (makeMatchInfo token cmdID groupID alias) = find (lower alias) token /\
  notMatchingCharCount (makeMatchInfo token cmdID groupID alias)
    = size_t_wrap (size (lower alias) - size token).
Proof. done. Qed.

Lemma find_self s : find s s = 0.
Proof. apply find_0_prefix, prefix_refl. Qed.

Lemma size_t_wrap_nonneg z : 0 <= size_t_wrap z.
Proof. unfold size_t_wrap. apply Z.mod_pos_bound. lia. Qed.

(** ** The outcome of a step *)

Lemma processBucket_outcome front matchInfos alive done old todo :
  processBucket front matchInfos (length done) alive (done ++ old :: todo) =
    ((bucketOutcome front matchInfos alive).1,
     done ++ written (bucketOutcome front matchInfos alive).2 old :: todo).
Proof.
  unfold processBucket, bucketOutcome.
  destruct (bucketLoop _ _ _ _ _) as [[alive' commonLength] longest].
  destruct (negb (commonLength =? 0)); simpl; [|done].
  f_equal. rewrite insert_app_r_alt by done. by rewrite Nat.sub_diag.
Qed.

Lemma selectBucket_outcome sw im alive done old todo :
  selectBucket sw im (length done) alive (done ++ old :: todo) =
    ((selectOutcome sw im alive).1,
     done ++ written (selectOutcome sw im alive).2 old :: todo).
Proof.
  unfold selectBucket, selectOutcome.
  destruct sw as [|front sw]; [destruct im as [|front im]|];
    try apply processBucket_outcome. done.
Qed.

Lemma bucketOutcome_essence front front' matchInfos matchInfos' alive :
  essence front = essence front' ->
  map essence matchInfos = map essence matchInfos' ->
  bucketOutcome front matchInfos alive = bucketOutcome front' matchInfos' alive.
Proof.
  intros Hf Hm. unfold bucketOutcome. unfold essence in Hf.
  injection Hf as Hc Hcand Hlow.
  rewrite Hcand, Hlow. by rewrite (bucketLoop_essence _ _ _ _ _ _ Hm).
Qed.

(** A token written with the flag set is the whole candidate of the front,
    and the bucket holds one lowered candidate only. *)
Lemma bucketOutcome_exhausted front matchInfos alive tokenNew :
  size (candidate front) = size (candidateLowered front) ->
  (bucketOutcome front matchInfos alive).2 = Some (tokenNew, true) ->
  tokenNew = candidate front /\ tokenNew <> "" /\
  Forall (fun matchInfo => candidateLowered matchInfo = candidateLowered front)
    matchInfos.
Proof.
  intros Hsize. unfold bucketOutcome.
  set (reference := candidateLowered front) in *.
  pose proof (bucketLoop_each reference matchInfos alive
                (size reference) (size reference)) as Heach.
  pose proof (bucketLoop_commonLength_le reference matchInfos alive
                (size reference) (size reference)) as Hle.
  pose proof (bucketLoop_commonLength_ge reference matchInfos alive
                (size reference) (size reference) 0 (size_nonneg _)) as Hge.
  destruct (bucketLoop _ _ _ _ _) as [[alive' commonLength] longest].
  simpl in *. destruct Heach as [Hlong Hall].
  assert (0 <= commonLength) as Hnonneg.
  { apply Hge. apply List.Forall_forall. intros m _. apply commonStartLength_nonneg. }
  destruct (Z.eqb_spec commonLength 0) as [->|Hne]; simpl; [done|].
  intros Heq. injection Heq as Htok Hflag.
  apply Z.eqb_eq in Hflag. rewrite size_substr0 in Hflag by done.
  assert (commonLength = size reference) as -> by lia.
  rewrite <- Hsize, substr0_full in Htok. subst tokenNew.
  split; [done|]. split.
  - intros Hempty. rewrite Hempty in Hsize. change (size "") with 0 in Hsize. lia.
  - eapply Forall_impl; [exact Hall|]. simpl. intros m [Hc Hs].
    apply prefix_same_size; [by apply commonStartLength_full|lia].
Qed.

Lemma evaluatedCommands_generators w limitToFixed tokenID commands cmdID alive
    evaluated called :
  evaluatedCommands w limitToFixed tokenID commands cmdID alive = Ok evaluated ->
  In called evaluated ->
  exists command generator,
    In command commands /\ In generator (generators command) /\
    called.2 = generator w.
Proof.
  revert cmdID evaluated. induction commands as [|command rest IH];
    intros cmdID evaluated; simpl.
  - intros ?. by simplify_eq.
  - destruct (subscript alive cmdID) as [isAlive|e]; simpl; [|done].
    assert (Hrest : forall others,
              evaluatedCommands w limitToFixed tokenID rest (S cmdID) alive = Ok others ->
              In called others ->
              exists command0 generator,
                (command = command0 \/ In command0 rest) /\
                In generator (generators command0) /\ called.2 = generator w).
    { intros others Ho Hin. destruct (IH _ _ Ho Hin) as (c0 & g & H1 & H2 & H3).
      exists c0, g. auto. }
    destruct (isAlive && (tokenID <? cmdEnd limitToFixed command)%nat)%bool; [|apply Hrest].
    unfold subscript.
    destruct (generators command !! tokenID) as [generator|] eqn:Eg; simpl; [|done].
    destruct (evaluatedCommands w limitToFixed tokenID rest (S cmdID) alive)
      as [others|e] eqn:Eo; simpl; [|done].
    intros Heq Hin. simplify_eq. destruct Hin as [<-|Hin].
    + exists command, generator. split; [by left|]. split; [|done].
      apply list_elem_of_In. by eapply list_elem_of_lookup_2.
    + by apply (Hrest others).
Qed.

Lemma evaluatedGroups_clean w limitToFixed tokenID commands alive evaluated ref alias :
  aliasesClean w commands ->
  evaluatedCommands w limitToFixed tokenID commands 0 alive = Ok evaluated ->
  In ref (evaluatedGroups evaluated) ->
  In alias ref.2 ->
  noWhitespace alias = true /\ representable alias.
Proof.
  intros Hclean Hev Href Halias.
  apply evaluatedGroups_In in Href as (returned & Hcalled & Hgroup).
  destruct (evaluatedCommands_generators _ _ _ _ _ _ _ _ Hev Hcalled)
    as (command & generator & Hc & Hg & Hret).
  simpl in Hret. subst returned.
  apply (Hclean command generator ref.2 alias); try done.
  apply list_elem_of_In. by eapply list_elem_of_lookup_2.
Qed.

Lemma find_lt_npos s t :
  representable s -> find s t <> npos -> find s t < npos.
Proof.
  unfold representable, find. intros Hrep Hfound.
  destruct (find_from_le_size s t 0) as [H|H]; [done|]. lia.
Qed.

(** ** Running a step again on the token it wrote *)

(** ** Reading the line that was written *)

Lemma noWhitespace_app a b :
  noWhitespace (a +:+ b) = (noWhitespace a && noWhitespace b)%bool.
Proof.
  induction a as [|ch a IH]; simpl; [done|].
  rewrite IH. by rewrite andb_assoc.
Qed.

Lemma istream_tokens_clean s current :
  noWhitespace current = true ->
  Forall (fun token => token <> "" /\ noWhitespace token = true)
    (istream_tokens s current).
Proof.
  revert current. induction s as [|ch s IH]; intros current Hcurrent; simpl.
  - destruct current; [constructor|]. by repeat constructor.
  - destruct (isspace ch) eqn:Ech.
    + destruct current; [by apply IH|].
      constructor; [done|]. by apply IH.
    + apply IH. rewrite noWhitespace_app, Hcurrent. simpl. by rewrite Ech.
Qed.

Lemma istream_tokens_token token s current :
  noWhitespace token = true ->
  istream_tokens (token +:+ s) current = istream_tokens s (current +:+ token).
Proof.
  revert current. induction token as [|ch token IH]; intros current Hws; simpl.
  - by rewrite app_empty_r.
  - simpl in Hws. apply andb_true_iff in Hws as [Hch Hws].
    apply negb_true_iff in Hch. rewrite Hch, IH by done.
    by rewrite app_assoc_string.
Qed.

Lemma istream_tokens_tokenConCat newTokens inputEndsInSpace :
  Forall (fun new : string * bool => new.1 <> "" /\ noWhitespace new.1 = true)
    newTokens ->
  istream_tokens (tokenConCat newTokens inputEndsInSpace) "" = map fst newTokens.
Proof.
  induction 1 as [|[token flag] rest [Hne Hws] _ IH]; [done|].
  simpl in Hne, Hws. cbn [tokenConCat map fst].
  rewrite istream_tokens_token by done. simpl String.append.
  destruct rest as [|next rest].
  - simpl. destruct (inputEndsInSpace || flag)%bool; simpl; by destruct token.
  - cbn [orb]. cbn [String.append istream_tokens isspace].
    change (isspace " ") with true. cbn iota.
    destruct token; [done|]. by rewrite IH.
Qed.

Lemma back_app s t : t <> "" -> back (s +:+ t) = back t.
Proof.
  intros Ht. induction s as [|ch s IH]; [done|].
  simpl. destruct (s +:+ t) eqn:E; [|done].
  destruct s; simpl in E; [done|discriminate].
Qed.

Lemma back_noWhitespace s :
  s <> "" -> noWhitespace s = true ->
  exists ch, back s = Ok ch /\ isspace ch = false.
Proof.
  induction s as [|ch s IH]; [done|]. intros _ Hws. simpl in Hws.
  apply andb_true_iff in Hws as [Hch Hws]. apply negb_true_iff in Hch.
  destruct s as [|ch' s]; [by exists ch|].
  destruct IH as (last & Hlast & Hsp); [done|done|].
  exists last. split; [|done]. exact Hlast.
Qed.

(** The line written ends in a space exactly when the input did or the
    last token is flagged. *)
Lemma back_tokenConCat newTokens inputEndsInSpace :
  newTokens <> [] ->
  Forall (fun new : string * bool => new.1 <> "" /\ noWhitespace new.1 = true)
    newTokens ->
  exists ch flag,
    back (tokenConCat newTokens inputEndsInSpace) = Ok ch /\
    last newTokens = Some flag /\
    isspace ch = (inputEndsInSpace || flag.2)%bool.
Proof.
  intros Hne Hall. induction Hall as [|[token flag] rest [Htok Hws] Hrest IH]; [done|].
  simpl in Htok, Hws. cbn [tokenConCat].
  destruct rest as [|next rest].
  - simpl. destruct (inputEndsInSpace || flag)%bool eqn:E.
    + exists " "%char, (token, flag). rewrite back_app by done.
      split; [done|]. split; [done|]. simpl. by rewrite E.
    + destruct (back_noWhitespace token Htok Hws) as (ch & Hch & Hsp).
      exists ch, (token, flag). simpl. rewrite ?app_empty_r.
      split; [done|]. split; [done|]. simpl. by rewrite E.
  - destruct IH as (ch & last & Hback & Hlast & Hsp); [done|].
    exists ch, last. split; [|done].
    rewrite !back_app; [done| |].
    + intros E. rewrite E in Hback. done.
    + cbn [orb]. done.
Qed.

Lemma tokenConCat_flag newTokens inputEndsInSpace flag :
  last newTokens = Some flag ->
  tokenConCat newTokens (inputEndsInSpace || flag.2) =
  tokenConCat newTokens inputEndsInSpace.
Proof.
  induction newTokens as [|[token noLongerMatch] rest IH]; [done|].
  intros Hlast. cbn [tokenConCat]. destruct rest as [|next rest].
  - simpl in Hlast. simplify_eq. simpl.
    by destruct inputEndsInSpace, noLongerMatch.
  - cbn [orb]. f_equal. f_equal. by apply IH.
Qed.

Lemma istream_tokens_nonempty input :
  istream_tokens input "" <> [] -> input <> "".
Proof. by destruct input. Qed.

(** ** Completion under any result of [std::sort] *)

Lemma evaluatedGroups_distinct w limitToFixed tokenID commands alive evaluated
    ref alias other :
  caseDistinct w commands ->
  evaluatedCommands w limitToFixed tokenID commands 0 alive = Ok evaluated ->
  In ref (evaluatedGroups evaluated) ->
  In alias ref.2 -> In other ref.2 ->
  lower alias = lower other -> alias = other.
Proof.
  intros Hcase Hev Href Halias Hother.
  apply evaluatedGroups_In in Href as (returned & Hcalled & Hgroup).
  destruct (evaluatedCommands_generators _ _ _ _ _ _ _ _ Hev Hcalled)
    as (command & generator & Hc & Hg & Hret).
  simpl in Hret. subst returned.
  apply (Hcase command generator ref.2 alias other); try done.
  apply list_elem_of_In. by eapply list_elem_of_lookup_2.
Qed.

Section AnySort.
Context (sort : list MatchInfo -> list MatchInfo) (Hsort : sorts sort).

Lemma sort_In_any v y : In y (sort v) <-> In y v.
Proof.
  destruct (Hsort v) as [Hperm _]. split; intros Hin.
  - by eapply Permutation_in.
  - eapply Permutation_in; [symmetry; exact Hperm|done].
Qed.

Lemma head_sort_Some_any v :
  v <> [] -> exists best, head (sort v) = Some best.
Proof.
  intros Hv. destruct (Hsort v) as [Hperm _].
  destruct (sort v) as [|best sorted] eqn:E; [|by exists best].
  apply Permutation_nil in Hperm. done.
Qed.

Lemma bestMatchOf_nil_any token cmdID groupID :
  bestMatchOf_with sort token (cmdID, groupID, []) = None.
Proof.
  unfold bestMatchOf_with. simpl. destruct (Hsort []) as [Hperm _].
  apply Permutation_sym, Permutation_nil in Hperm. by rewrite Hperm.
Qed.

(** Nothing in the vector is less than the front of the sorted vector. *)
Lemma head_sort_minimal_any v best x :
  head (sort v) = Some best -> In x v -> MatchInfo_compare x best = false.
Proof.
  intros Hbest Hx. destruct (Hsort v) as [_ Hordered].
  apply sort_In_any, list_elem_of_In, list_elem_of_lookup in Hx as [j Hj].
  rewrite head_lookup in Hbest.
  destruct j as [|j].
  - assert (x = best) as -> by congruence. apply MatchInfo_compare_irrefl.
  - apply (Hordered 0%nat (S j)); [lia|done|done].
Qed.

Lemma bestMatchOf_alias_any token ref best :
  bestMatchOf_with sort token ref = Some best ->
  exists alias, In alias ref.2 /\ best = makeMatchInfo token ref.1.1 ref.1.2 alias.
Proof.
  unfold bestMatchOf_with. intros H.
  assert (Hin : In best (sort (map (makeMatchInfo token ref.1.1 ref.1.2) ref.2))).
  { destruct (sort _); [done|]. simpl in H. simplify_eq. by left. }
  apply sort_In_any, in_map_iff in Hin as (alias & <- & Hin). eauto.
Qed.

Lemma groupLoop_spec_any token cmdID groupID groups sw im :
  groupLoop_with sort token cmdID groupID groups sw im =
    Ok (sw ++ List.filter isStartsWith
                (bestMatches_with sort token (indexedGroups cmdID groupID groups)),
        im ++ List.filter isInMiddle
                (bestMatches_with sort token (indexedGroups cmdID groupID groups))).
Proof.
  revert groupID sw im. induction groups as [|aliasGroup rest IH];
    intros groupID sw im; simpl.
  - by rewrite !app_nil_r.
  - destruct aliasGroup as [|alias aliases].
    + rewrite IH, bestMatchOf_nil_any. done.
    + destruct (head_sort_Some_any
                  (map (makeMatchInfo token cmdID groupID) (alias :: aliases)))
        as (best & Hbest); [done|].
      assert (Hb : bestMatchOf_with sort token (cmdID, groupID, alias :: aliases) = Some best)
        by exact Hbest.
      unfold bestMatches_with. simpl omap. rewrite Hb.
      unfold at_. rewrite <- head_lookup, Hbest. simpl.
      rewrite !IH.
      assert (E1 : isStartsWith best = (pos best =? 0)) by done.
      assert (E2 : isInMiddle best =
                   (negb (pos best =? 0) && negb (pos best =? npos))%bool) by done.
      rewrite E1, E2.
      destruct (pos best =? 0), (pos best =? npos); simpl;
        rewrite <- ?app_assoc; done.
Qed.

Lemma commandLoop_spec_any w limitToFixed token tokenID commands cmdID st :
  commandLoop_with sort w limitToFixed token tokenID commands cmdID st =
    evaluated ← evaluatedCommands w limitToFixed tokenID commands cmdID
                  (commandIsAlive st);
    Ok (mkCollected
          (markDead evaluated (commandIsAlive st))
          (startsWith st ++ List.filter isStartsWith
             (bestMatches_with sort token (evaluatedGroups evaluated)))
          (inMiddle st ++ List.filter isInMiddle
             (bestMatches_with sort token (evaluatedGroups evaluated)))
          (recordGroups evaluated (allGroups st))).
Proof.
  revert cmdID st. induction commands as [|command rest IH]; intros cmdID st; simpl.
  - destruct st. simpl. by rewrite !app_nil_r.
  - destruct (subscript (commandIsAlive st) cmdID) as [isAlive|e]; simpl; [|done].
    destruct (isAlive && (tokenID <? cmdEnd limitToFixed command)%nat)%bool; [|apply IH].
    destruct (subscript (generators command) tokenID) as [generator|e]; simpl; [|done].
    rewrite groupLoop_spec_any. simpl. rewrite IH. simpl.
    rewrite evaluatedCommands_insert by lia.
    destruct (evaluatedCommands w limitToFixed tokenID rest (S cmdID) (commandIsAlive st))
      as [others|e]; simpl; [|done].
    unfold evaluatedGroups, bestMatches_with. simpl.
    rewrite !omap_app, !List.filter_app, <- !app_assoc. done.
Qed.

Lemma bestMatches_In_any token refs best :
  In best (bestMatches_with sort token refs) ->
  exists ref alias,
    In ref refs /\ bestMatchOf_with sort token ref = Some best /\ In alias ref.2 /\
    best = makeMatchInfo token ref.1.1 ref.1.2 alias.
Proof.
  unfold bestMatches_with. rewrite <- list_elem_of_In, list_elem_of_omap.
  intros (ref & Href & Hbest). apply list_elem_of_In in Href.
  destruct (bestMatchOf_alias_any _ _ _ Hbest) as (alias & Halias & ->).
  exists ref, alias. done.
Qed.

Lemma bestMatches_recorded_any token evaluated groups best :
  NoDup (map fst evaluated) ->
  Forall (fun called => (called.1 < length groups)%nat) evaluated ->
  In best (bestMatches_with sort token (evaluatedGroups evaluated)) ->
  exists ofCommand group,
    recordGroups evaluated groups !! commandID best = Some ofCommand /\
    ofCommand !! groupID best = Some group.
Proof.
  intros Hnd Hlen Hin.
  apply bestMatches_In_any in Hin as (ref & alias & Href & _ & _ & ->).
  apply evaluatedGroups_In in Href as (returned & Hcalled & Hgroup).
  exists returned, ref.2. simpl. split; [|done].
  apply recordGroups_lookup; [done|done|].
  rewrite List.Forall_forall in Hlen. apply (Hlen _ Hcalled).
Qed.

Lemma suggestions_ok_any token evaluated st :
  NoDup (map fst evaluated) ->
  Forall (fun called => (called.1 < length (allGroups st))%nat) evaluated ->
  exists logged,
    suggestions_with sort
      (mkCollected (markDead evaluated (commandIsAlive st))
         (List.filter isStartsWith (bestMatches_with sort token (evaluatedGroups evaluated)))
         (List.filter isInMiddle (bestMatches_with sort token (evaluatedGroups evaluated)))
         (recordGroups evaluated (allGroups st))) = Ok logged.
Proof.
  intros Hnd Hlen. unfold suggestions_with. simpl.
  assert (Hall : forall keep,
            Forall (fun matchInfo => exists ofCommand group,
                      recordGroups evaluated (allGroups st) !! commandID matchInfo
                        = Some ofCommand /\
                      ofCommand !! groupID matchInfo = Some group)
              (sort (List.filter keep
                           (bestMatches_with sort token (evaluatedGroups evaluated))))).
  { intros keep. apply Forall_forall. intros best Hbest.
    apply list_elem_of_In, sort_In_any, filter_In in Hbest as [Hbest _].
    by eapply bestMatches_recorded_any. }
  destruct (suggestionLines_ok _ _ (Hall isStartsWith)) as (first & ->).
  destruct (suggestionLines_ok _ _ (Hall isInMiddle)) as (second & ->).
  simpl. by eexists.
Qed.

Lemma tokenStep_spec_any w commands limitToFixed showSuggestions tokenID token
    alive newTokens evaluated :
  evaluatedCommands w limitToFixed tokenID commands 0 alive = Ok evaluated ->
  exists logged,
    tokenStep_with sort w commands limitToFixed showSuggestions tokenID token alive newTokens =
      Ok (selectBucket
            (List.filter isStartsWith (bestMatches_with sort token (evaluatedGroups evaluated)))
            (List.filter isInMiddle (bestMatches_with sort token (evaluatedGroups evaluated)))
            tokenID (markDead evaluated alive) newTokens,
          logged).
Proof.
  intros Hev. unfold tokenStep_with. rewrite commandLoop_spec_any. simpl.
  rewrite Hev. simpl.
  destruct (selectBucket _ _ tokenID (markDead evaluated alive) newTokens)
    as [alive' newTokens'] eqn:Esel.
  destruct showSuggestions; simpl; [|by eexists].
  destruct (evaluatedCommands_ids _ _ _ _ _ _ _ Hev) as [Hids Hnd].
  destruct (suggestions_ok_any token evaluated
              (mkCollected alive [] [] (replicate (length commands) [])))
    as (logged & Hlogged); [done| |].
  { simpl. rewrite length_replicate.
    eapply Forall_impl; [exact Hids|]. simpl. intros; lia. }
  simpl in Hlogged. rewrite Hlogged. simpl. by eexists.
Qed.

Lemma bestMatches_fields_any token refs best :
  In best (bestMatches_with sort token refs) ->
  candidateLowered best = lower (candidate best) /\
  pos best = find (candidateLowered best) token.
Proof.
  intros H. apply bestMatches_In_any in H as (ref & alias & _ & _ & _ & ->). done.
Qed.

Lemma bestMatchOf_minimal_any token ref best alias :
  bestMatchOf_with sort token ref = Some best ->
  In alias ref.2 ->
  MatchInfo_compare (makeMatchInfo token ref.1.1 ref.1.2 alias) best = false.
Proof.
  unfold bestMatchOf_with. intros Hbest Halias.
  eapply head_sort_minimal_any; [exact Hbest|]. by apply in_map.
Qed.

(** A group whose best match for a token has the lowered candidate [r] has,
    for the token [r], the same alias as its best match, at position 0:
    the alias of the group that [r] is the lower case of. *)
Lemma bestMatchOf_rerun_any token ref best :
  bestMatchOf_with sort token ref = Some best ->
  Forall representable ref.2 ->
  (forall alias other, In alias ref.2 -> In other ref.2 ->
     lower alias = lower other -> alias = other) ->
  exists best',
    bestMatchOf_with sort (candidateLowered best) ref = Some best' /\
    pos best' = 0 /\
    essence best' = essence best.
Proof.
  intros Hbest Hrep Hdistinct.
  destruct (bestMatchOf_alias_any _ _ _ Hbest) as (alias & Halias & ->).
  simpl candidateLowered. set (r := lower alias).
  destruct (head_sort_Some_any (map (makeMatchInfo r ref.1.1 ref.1.2) ref.2))
    as (best' & Hbest'); [by destruct ref.2|].
  fold (bestMatchOf_with sort r ref) in Hbest'.
  exists best'. split; [done|].
  destruct (bestMatchOf_alias_any _ _ _ Hbest') as (alias' & Halias' & ->).
  pose proof (bestMatchOf_minimal_any _ _ _ alias Hbest' Halias) as Hmin.
  apply MatchInfo_compare_false in Hmin.
  rewrite !(proj1 (makeMatchInfo_key _ _ _ _)) in Hmin.
  rewrite !(proj2 (makeMatchInfo_key _ _ _ _)) in Hmin.
  fold r in Hmin. rewrite find_self, Z.sub_diag in Hmin.
  change (size_t_wrap 0) with 0 in Hmin.
  pose proof (find_nonneg (lower alias') r) as Hpos.
  pose proof (size_t_wrap_nonneg (size (lower alias') - size r)) as Hdiff.
  assert (Hfind : find (lower alias') r = 0) by lia.
  assert (Hwrap : size_t_wrap (size (lower alias') - size r) = 0) by lia.
  split; [done|].
  assert (Hlow : lower alias' = r).
  { apply find_0_prefix in Hfind. apply prefix_same_size; [done|].
    pose proof (prefix_size _ _ Hfind) as Hsz.
    rewrite List.Forall_forall in Hrep. specialize (Hrep _ Halias').
    unfold representable, npos, SIZE_MAX in Hrep.
    rewrite <- size_lower in Hrep.
    pose proof (size_nonneg r).
    unfold size_t_wrap in Hwrap. rewrite Z.mod_small in Hwrap by lia. lia. }
  assert (alias' = alias) as -> by (by apply Hdistinct).
  done.
Qed.

Lemma bestMatchOf_origin_any token r ref best' :
  bestMatchOf_with sort r ref = Some best' ->
  pos best' = 0 ->
  find r token <> npos ->
  exists best,
    bestMatchOf_with sort token ref = Some best /\ 0 <= pos best <= find r token.
Proof.
  intros Hbest' Hpos Hfound.
  destruct (bestMatchOf_alias_any _ _ _ Hbest') as (alias & Halias & ->).
  simpl in Hpos. apply find_0_prefix in Hpos.
  destruct (head_sort_Some_any (map (makeMatchInfo token ref.1.1 ref.1.2) ref.2))
    as (best & Hbest); [by destruct ref.2|].
  fold (bestMatchOf_with sort token ref) in Hbest.
  exists best. split; [done|].
  pose proof (bestMatchOf_minimal_any _ _ _ alias Hbest Halias) as Hmin.
  apply MatchInfo_compare_false in Hmin.
  rewrite (proj1 (makeMatchInfo_key _ _ _ _)) in Hmin.
  pose proof (find_from_prefix_le r (lower alias) token 0 Hpos Hfound) as Hle.
  fold (find (lower alias) token) in Hle. fold (find r token) in Hle.
  destruct (bestMatchOf_alias_any _ _ _ Hbest) as (alias0 & _ & Hb).
  assert (0 <= pos best) by (rewrite Hb; apply find_nonneg).
  lia.
Qed.

Lemma bestMatches_cons_any token ref refs :
  bestMatches_with sort token (ref :: refs) =
    match bestMatchOf_with sort token ref with
    | Some best => best :: bestMatches_with sort token refs
    | None => bestMatches_with sort token refs
    end.
Proof. done. Qed.

(** The bucket used for a token, when all its lowered candidates are [r],
    is the prefix bucket of the token [r], up to the positions and length
    gaps recorded in the matches. *)
Lemma prefixBucket_rerun_any token r used refs :
  (forall best, In best (List.filter used (bestMatches_with sort token refs)) ->
     candidateLowered best = r) ->
  (forall ref best',
     In ref refs -> bestMatchOf_with sort r ref = Some best' -> pos best' = 0 ->
     exists best, bestMatchOf_with sort token ref = Some best /\ used best = true) ->
  (forall ref, In ref refs -> Forall representable ref.2) ->
  (forall ref alias other, In ref refs -> In alias ref.2 -> In other ref.2 ->
     lower alias = lower other -> alias = other) ->
  map essence (List.filter isStartsWith (bestMatches_with sort r refs)) =
  map essence (List.filter used (bestMatches_with sort token refs)).
Proof.
  induction refs as [|ref refs IH]; intros Hall Horigin Hrep Hdistinct; [done|].
  rewrite !bestMatches_cons_any.
  assert (IH' : map essence (List.filter isStartsWith (bestMatches_with sort r refs)) =
                map essence (List.filter used (bestMatches_with sort token refs))).
  { apply IH.
    - intros best Hbest. apply Hall. rewrite bestMatches_cons_any.
      destruct (bestMatchOf_with sort token ref) as [b|]; [|done].
      simpl. destruct (used b); [by right|done].
    - intros ref' best' Hin. apply Horigin. by right.
    - intros ref' Hin. apply Hrep. by right.
    - intros ref' alias other Hin. apply Hdistinct. by right. }
  destruct (bestMatchOf_with sort token ref) as [best|] eqn:Ebest.
  - simpl. destruct (used best) eqn:Eused.
    + assert (Hlow : candidateLowered best = r).
      { apply Hall. rewrite bestMatches_cons_any, Ebest. simpl. rewrite Eused. by left. }
      destruct (bestMatchOf_rerun_any _ _ _ Ebest) as (best' & Hbest' & Hpos & Hess).
      { apply Hrep. by left. }
      { intros alias other. apply Hdistinct. by left. }
      rewrite Hlow in Hbest'. rewrite Hbest'. simpl.
      unfold isStartsWith at 1. rewrite Hpos. simpl. by rewrite Hess, IH'.
    + destruct (bestMatchOf_with sort r ref) as [best'|] eqn:Ebest'; [|done].
      simpl. unfold isStartsWith at 1.
      destruct (Z.eqb_spec (pos best') 0) as [Hpos|]; [|done].
      destruct (Horigin ref best') as (b & Hb & Hu); [by left|done|done|].
      congruence.
  - destruct (bestMatchOf_with sort r ref) as [best'|] eqn:Ebest'; [|done].
    simpl. unfold isStartsWith at 1.
    destruct (Z.eqb_spec (pos best') 0) as [Hpos|]; [|done].
    destruct (Horigin ref best') as (b & Hb & Hu); [by left|done|done|].
    congruence.
Qed.

Lemma tokenStep_evaluated_any w commands limitToFixed showSuggestions tokenID token
    alive newTokens r :
  tokenStep_with sort w commands limitToFixed showSuggestions tokenID token alive newTokens
    = Ok r ->
  exists evaluated,
    evaluatedCommands w limitToFixed tokenID commands 0 alive = Ok evaluated.
Proof.
  unfold tokenStep_with. rewrite commandLoop_spec_any. simpl.
  destruct (evaluatedCommands w limitToFixed tokenID commands 0 alive)
    as [evaluated|e]; [by eexists|done].
Qed.

Lemma bestMatches_intro_any token refs ref best :
  In ref refs -> bestMatchOf_with sort token ref = Some best ->
  In best (bestMatches_with sort token refs).
Proof.
  intros Href Hbest. unfold bestMatches_with.
  apply list_elem_of_In, list_elem_of_omap. exists ref. split; [|done].
  by apply list_elem_of_In.
Qed.

Lemma bucket_rerun_any token refs used front others alive alive' tokenNew :
  (forall ref alias, In ref refs -> In alias ref.2 ->
     noWhitespace alias = true /\ representable alias) ->
  (forall ref alias other, In ref refs -> In alias ref.2 -> In other ref.2 ->
     lower alias = lower other -> alias = other) ->
  List.filter used (bestMatches_with sort token refs) = front :: others ->
  used = isStartsWith \/
  (used = isInMiddle /\ List.filter isStartsWith (bestMatches_with sort token refs) = []) ->
  bucketOutcome front (front :: others) alive = (alive', Some (tokenNew, true)) ->
  tokenNew <> "" /\ noWhitespace tokenNew = true /\
  exists front' others',
    List.filter isStartsWith (bestMatches_with sort (lower tokenNew) refs)
      = front' :: others' /\
    bucketOutcome front' (front' :: others') alive
      = (alive', Some (tokenNew, true)).
Proof.
  intros Hclean Hdistinct Hbucket Hused Hout.
  assert (Hfront : In front (List.filter used (bestMatches_with sort token refs))).
  { rewrite Hbucket. by left. }
  apply filter_In in Hfront as [Hfront Hfused].
  destruct (bestMatches_fields_any _ _ _ Hfront) as [Hlow Hpos].
  destruct (bestMatches_In_any _ _ _ Hfront) as (fref & falias & Hfref & _ & Hfalias & Hfeq).
  destruct (Hclean _ _ Hfref Hfalias) as [Hfws Hfrep].
  assert (Hcand : candidate front = falias) by (by rewrite Hfeq).
  destruct (bucketOutcome_exhausted front (front :: others) alive tokenNew)
    as (Htok & Hnonempty & Hall).
  { by rewrite Hlow, size_lower. }
  { by rewrite Hout. }
  split; [done|]. split; [by rewrite Htok, Hcand|].
  set (r := candidateLowered front) in *.
  assert (Hr : lower tokenNew = r) by (subst tokenNew; symmetry; exact Hlow).
  rewrite Hr.
  assert (Hrrep : representable r).
  { unfold representable. rewrite Hlow, size_lower, Hcand. exact Hfrep. }
  assert (Hess : map essence (List.filter isStartsWith (bestMatches_with sort r refs)) =
                 map essence (List.filter used (bestMatches_with sort token refs))).
  { apply prefixBucket_rerun_any.
    - intros best Hbest. rewrite Hbucket in Hbest.
      rewrite List.Forall_forall in Hall. by apply Hall.
    - intros ref best' Href Hbest' Hpos'.
      assert (Hfound : find r token <> npos).
      { rewrite <- Hpos. destruct Hused as [->|[-> _]].
        - unfold isStartsWith in Hfused. apply Z.eqb_eq in Hfused.
          rewrite Hfused. by unfold npos, SIZE_MAX.
        - unfold isInMiddle in Hfused.
          apply andb_true_iff in Hfused as [_ Hf].
          apply negb_true_iff, Z.eqb_neq in Hf. done. }
      destruct (bestMatchOf_origin_any token r ref best' Hbest' Hpos' Hfound)
        as (best & Hbest & Hrange).
      exists best. split; [done|].
      destruct Hused as [->|[-> Hnone]].
      + unfold isStartsWith in *. apply Z.eqb_eq in Hfused.
        apply Z.eqb_eq. rewrite <- Hpos, Hfused in Hrange. lia.
      + unfold isInMiddle. apply andb_true_iff. split.
        * apply negb_true_iff, Z.eqb_neq. intros Hzero.
          assert (Hin : In best (List.filter isStartsWith (bestMatches_with sort token refs))).
          { apply filter_In. split; [by eapply bestMatches_intro_any|].
            by apply Z.eqb_eq. }
          by rewrite Hnone in Hin.
        * apply negb_true_iff, Z.eqb_neq.
          pose proof (find_lt_npos r token Hrrep Hfound). lia.
    - intros ref Href. apply List.Forall_forall. intros alias Halias.
      by apply (Hclean ref alias).
    - exact Hdistinct. }
  rewrite Hbucket in Hess.
  destruct (List.filter isStartsWith (bestMatches_with sort r refs)) as [|front' others'] eqn:E;
    [done|].
  exists front', others'. split; [done|].
  rewrite <- Hout. apply bucketOutcome_essence; [|done].
  simpl in Hess. congruence.
Qed.

Lemma tokenStep_rerun_any w commands limitToFixed showSuggestions typed alive
    done todo alive' newTokens' logged :
  aliasesClean w commands ->
  caseDistinct w commands ->
  tokenStep_with sort w commands limitToFixed showSuggestions (length done) (lower typed)
    alive (done ++ (typed, false) :: todo) = Ok (alive', newTokens', logged) ->
  exists entry,
    newTokens' = done ++ entry :: todo /\
    (entry.1 = typed \/ entry.2 = true ->
     (entry.1 = typed \/ (entry.1 <> "" /\ noWhitespace entry.1 = true)) /\
     forall todo',
       exists logged',
         tokenStep_with sort w commands limitToFixed showSuggestions (length done)
           (lower entry.1) alive (done ++ (entry.1, false) :: todo')
         = Ok (alive', done ++ entry :: todo', logged')).
Proof.
  intros Hclean Hcase Hstep.
  destruct (tokenStep_evaluated_any _ _ _ _ _ _ _ _ _ Hstep) as (evaluated & Hev).
  set (refs := evaluatedGroups evaluated).
  assert (Hrefs : forall ref alias, In ref refs -> In alias ref.2 ->
            noWhitespace alias = true /\ representable alias).
  { intros ref alias. by eapply evaluatedGroups_clean. }
  assert (Hdistinct : forall ref alias other,
            In ref refs -> In alias ref.2 -> In other ref.2 ->
            lower alias = lower other -> alias = other).
  { intros ref alias other. by eapply evaluatedGroups_distinct. }
  assert (Hspec : forall token old todo0, exists logged0,
            tokenStep_with sort w commands limitToFixed showSuggestions (length done) token
              alive (done ++ old :: todo0) =
            Ok ((selectOutcome (List.filter isStartsWith (bestMatches_with sort token refs))
                   (List.filter isInMiddle (bestMatches_with sort token refs))
                   (markDead evaluated alive)).1,
                done ++ written
                          (selectOutcome
                             (List.filter isStartsWith (bestMatches_with sort token refs))
                             (List.filter isInMiddle (bestMatches_with sort token refs))
                             (markDead evaluated alive)).2 old :: todo0,
                logged0)).
  { intros token old todo0.
    destruct (tokenStep_spec_any w commands limitToFixed showSuggestions (length done)
                token alive (done ++ old :: todo0) evaluated Hev) as (logged0 & H0).
    exists logged0. by rewrite H0, selectBucket_outcome. }
  destruct (Hspec (lower typed) (typed, false) todo) as (logged0 & H0).
  rewrite H0 in Hstep. injection Hstep as Halive Hnew _.
  set (alive0 := markDead evaluated alive) in *.
  exists (written (selectOutcome
                     (List.filter isStartsWith (bestMatches_with sort (lower typed) refs))
                     (List.filter isInMiddle (bestMatches_with sort (lower typed) refs))
                     alive0).2 (typed, false)).
  split; [done|].
  intros Hentry.
  destruct (selectOutcome
              (List.filter isStartsWith (bestMatches_with sort (lower typed) refs))
              (List.filter isInMiddle (bestMatches_with sort (lower typed) refs))
              alive0) as [aliveOut outcome] eqn:Eout.
  simpl in Halive. subst aliveOut. simpl in Hentry |- *.
  (* the token is the one typed: the same step runs *)
  assert (Hsame : written outcome (typed, false) = (typed, (written outcome (typed, false)).2) ->
            forall todo', exists logged',
              tokenStep_with sort w commands limitToFixed showSuggestions (length done)
                (lower (written outcome (typed, false)).1) alive
                (done ++ ((written outcome (typed, false)).1, false) :: todo')
              = Ok (alive', done ++ written outcome (typed, false) :: todo', logged')).
  { intros Heq todo'. rewrite Heq. simpl.
    destruct (Hspec (lower typed) (typed, false) todo') as (logged' & H').
    exists logged'. rewrite H'. rewrite Eout. simpl.
    by rewrite <- Heq. }
  destruct outcome as [[tokenNew flag]|]; simpl in *.
  - destruct (decide (tokenNew = typed)) as [->|Hne].
    { split; [by left|]. by apply Hsame. }
    destruct Hentry as [Heq|Hflag]; [done|]. subst flag.
    assert (Hbucket : exists used front others,
              List.filter used (bestMatches_with sort (lower typed) refs) = front :: others /\
              (used = isStartsWith \/
               (used = isInMiddle /\
                List.filter isStartsWith (bestMatches_with sort (lower typed) refs) = [])) /\
              bucketOutcome front (front :: others) alive0 = (alive', Some (tokenNew, true))).
    { unfold selectOutcome in Eout.
      destruct (List.filter isStartsWith (bestMatches_with sort (lower typed) refs))
        as [|front others] eqn:Esw.
      - destruct (List.filter isInMiddle (bestMatches_with sort (lower typed) refs))
          as [|front others] eqn:Eim; [done|].
        exists isInMiddle, front, others. rewrite Eim. auto.
      - exists isStartsWith, front, others. rewrite Esw. auto. }
    destruct Hbucket as (used & front & others & Hfilter & Hused & Hout).
    destruct (bucket_rerun_any (lower typed) refs used front others alive0 alive' tokenNew
                Hrefs Hdistinct Hfilter Hused Hout)
      as (Hnonempty & Hws & front' & others' & Hfilter' & Hout').
    split; [by right|].
    intros todo'.
    destruct (Hspec (lower tokenNew) (tokenNew, false) todo') as (logged' & H').
    exists logged'. rewrite H'. rewrite Hfilter'.
    unfold selectOutcome. rewrite Hout'. done.
  - split; [by left|]. by apply Hsame.
Qed.

Lemma tokenLoop_rerun_any w commands limitToFixed showSuggestions typedRest :
  aliasesClean w commands ->
  caseDistinct w commands ->
  forall done alive out logged,
  tokenLoop_with sort w commands limitToFixed showSuggestions (map lower typedRest)
    (length done) alive (done ++ map (fun token => (token, false)) typedRest)
    = Ok (out, logged) ->
  exists outRest,
    out = done ++ outRest /\
    (Forall2 (fun typed (new : string * bool) => new.1 = typed \/ new.2 = true)
       typedRest outRest ->
     Forall2 (fun typed (new : string * bool) =>
                new.1 = typed \/ (new.1 <> "" /\ noWhitespace new.1 = true))
       typedRest outRest /\
     exists logged',
       tokenLoop_with sort w commands limitToFixed showSuggestions
         (map lower (map fst outRest)) (length done) alive
         (done ++ map (fun new : string * bool => (new.1, false)) outRest)
       = Ok (done ++ outRest, logged')).
Proof.
  intros Hclean Hcase. induction typedRest as [|typed rest IH];
    intros done alive out logged Hloop.
  - simpl in Hloop. rewrite app_nil_r in Hloop. injection Hloop as <- _.
    exists []. split; [by rewrite app_nil_r|].
    intros _. split; [constructor|]. exists []. simpl. by rewrite app_nil_r.
  - simpl in Hloop.
    destruct (tokenStep_with sort w commands limitToFixed showSuggestions (length done)
                (lower typed) alive
                (done ++ (typed, false) :: map (fun token => (token, false)) rest))
      as [[[alive' newTokens'] logged1]|e] eqn:Estep; simpl in Hloop; [|done].
    destruct (tokenStep_rerun_any _ _ _ _ _ _ _ _ _ _ _ Hclean Hcase Estep)
      as (entry & -> & Hrerun).
    assert (Hlen : S (length done) = length (done ++ [entry])).
    { rewrite length_app. simpl. lia. }
    assert (Hassoc : forall todo : list (string * bool),
              done ++ entry :: todo = (done ++ [entry]) ++ todo).
    { intros todo. by rewrite <- app_assoc. }
    rewrite (Hassoc (map (fun token => (token, false)) rest)), Hlen in Hloop.
    destruct (tokenLoop_with sort w commands limitToFixed showSuggestions (map lower rest)
                (length (done ++ [entry])) alive'
                ((done ++ [entry]) ++ map (fun token => (token, false)) rest))
      as [[out' logged2]|e] eqn:Erest; simpl in Hloop; [|done].
    injection Hloop as <- _.
    destruct (IH _ _ _ _ Erest) as (outRest & -> & Hrest).
    exists (entry :: outRest). split; [by rewrite <- app_assoc|].
    intros Hall. inversion Hall as [|? ? ? ? Hentry Htail]; subst.
    destruct (Hrerun Hentry) as [Hkind Hagain].
    destruct (Hrest Htail) as (Hkinds & logged' & Hloop').
    split; [by constructor|].
    destruct (Hagain (map (fun new : string * bool => (new.1, false)) outRest))
      as (logged0 & Hstep').
    exists (logged0 ++ logged'). simpl.
    rewrite Hstep'. simpl.
    rewrite (Hassoc (map (fun new : string * bool => (new.1, false)) outRest)), Hlen, Hloop'. simpl.
    by rewrite <- app_assoc.
Qed.

End AnySort.

(** ** Sorts that meet what [std::sort] promises *)

Lemma StronglySorted_ordered (l : list MatchInfo) i j a b :
  StronglySorted (fun a b => MatchInfo_compare b a = false) l ->
  (i < j)%nat -> l !! i = Some a -> l !! j = Some b ->
  MatchInfo_compare b a = false.
Proof.
  intros Hl. revert i j.
  induction Hl as [|x l Hl IH Hx]; intros i j Hij Hi Hj; [done|].
  destruct j as [|j]; [lia|]. simpl in Hj.
  destruct i as [|i]; simpl in Hi.
  - simplify_eq. rewrite List.Forall_forall in Hx. apply Hx.
    apply list_elem_of_In. by eapply list_elem_of_lookup_2.
  - apply (IH i j); [lia|done|done].
Qed.

Lemma sort_insert_Permutation x sorted :
  Permutation (sort_insert x sorted) (x :: sorted).
Proof.
  induction sorted as [|y sorted IH]; simpl; [done|].
  destruct (MatchInfo_compare y x); [|done].
  rewrite IH. apply perm_swap.
Qed.

Lemma sort_insert_StronglySorted x sorted :
  StronglySorted (fun a b => MatchInfo_compare b a = false) sorted ->
  StronglySorted (fun a b => MatchInfo_compare b a = false) (sort_insert x sorted).
Proof.
  induction 1 as [|y sorted Hs IH Hy]; simpl.
  - by repeat constructor.
  - destruct (MatchInfo_compare y x) eqn:Eyx.
    + constructor; [done|].
      rewrite List.Forall_forall in Hy |- *. intros z Hz.
      apply sort_insert_In in Hz as [->|Hz]; [|by apply Hy].
      by apply MatchInfo_compare_asym.
    + constructor; [by constructor|].
      constructor; [done|].
      eapply Forall_impl; [exact Hy|]. simpl. intros z Hz.
      apply MatchInfo_compare_false in Eyx, Hz.
      apply MatchInfo_compare_false. lia.
Qed.

(** The insertion sort is one of the results [std::sort] may give. *)
Lemma std_sort_sorts : sorts std_sort.
Proof.
  intros v. split.
  - induction v as [|x v IH]; simpl; [done|].
    by rewrite sort_insert_Permutation, IH.
  - intros i j a b. apply StronglySorted_ordered.
    induction v as [|x v IH]; simpl; [constructor|].
    by apply sort_insert_StronglySorted.
Qed.

Lemma sort_insert_behind_Permutation x sorted :
  Permutation (sort_insert_behind x sorted) (x :: sorted).
Proof.
  induction sorted as [|y sorted IH]; simpl; [done|].
  destruct (MatchInfo_compare x y); [done|].
  rewrite IH. apply perm_swap.
Qed.

Lemma sort_insert_behind_StronglySorted x sorted :
  StronglySorted (fun a b => MatchInfo_compare b a = false) sorted ->
  StronglySorted (fun a b => MatchInfo_compare b a = false)
    (sort_insert_behind x sorted).
Proof.
  induction 1 as [|y sorted Hs IH Hy]; simpl.
  - by repeat constructor.
  - destruct (MatchInfo_compare x y) eqn:Exy.
    + constructor; [by constructor|].
      constructor; [by apply MatchInfo_compare_asym|].
      eapply Forall_impl; [exact Hy|]. simpl. intros z Hz.
      apply MatchInfo_compare_spec in Exy. apply MatchInfo_compare_false in Hz.
      apply MatchInfo_compare_false. lia.
    + constructor; [done|].
      rewrite List.Forall_forall in Hy |- *. intros z Hz.
      eapply Permutation_in in Hz; [|apply sort_insert_behind_Permutation].
      destruct Hz as [<-|Hz]; [done|by apply Hy].
Qed.

Lemma sort_behind_sorts : sorts sort_behind.
Proof.
  intros v. split.
  - induction v as [|x v IH]; simpl; [done|].
    by rewrite sort_insert_behind_Permutation, IH.
  - intros i j a b. apply StronglySorted_ordered.
    induction v as [|x v IH]; simpl; [constructor|].
    by apply sort_insert_behind_StronglySorted.
Qed.

Lemma sort_by_range_sorts : sorts sort_by_range.
Proof.
  intros v. unfold sort_by_range.
  destruct (existsb _ v); [apply std_sort_sorts|apply sort_behind_sorts].
Qed.

(** ** The completion with [std_sort] as the sort *)

Lemma groupLoop_with_std_sort token cmdID groupID groups sw im :
  groupLoop_with std_sort token cmdID groupID groups sw im =
  groupLoop token cmdID groupID groups sw im.
Proof.
  revert groupID sw im. induction groups as [|aliasGroup rest IH];
    intros groupID sw im; simpl; [done|].
  destruct aliasGroup as [|alias aliases]; [apply IH|].
  destruct (at_ _ 0) as [bestMatch|e]; simpl; [|done].
  by rewrite !IH.
Qed.

Lemma commandLoop_with_std_sort w limitToFixed token tokenID commands cmdID st :
  commandLoop_with std_sort w limitToFixed token tokenID commands cmdID st =
  commandLoop w limitToFixed token tokenID commands cmdID st.
Proof.
  revert cmdID st. induction commands as [|command rest IH];
    intros cmdID st; simpl; [done|].
  destruct (subscript (commandIsAlive st) cmdID) as [isAlive|e]; simpl; [|done].
  destruct (isAlive && _)%bool; [|apply IH].
  destruct (subscript (generators command) tokenID) as [generator|e];
    simpl; [|done].
  rewrite groupLoop_with_std_sort.
  destruct (groupLoop _ _ _ _ _ _) as [buckets|e]; simpl; [apply IH|done].
Qed.

Lemma tokenStep_with_std_sort w commands limitToFixed showSuggestions tokenID
    token alive newTokens :
  tokenStep_with std_sort w commands limitToFixed showSuggestions tokenID token
    alive newTokens =
  tokenStep w commands limitToFixed showSuggestions tokenID token alive newTokens.
Proof.
  unfold tokenStep_with, tokenStep. by rewrite commandLoop_with_std_sort.
Qed.

Lemma tokenLoop_with_std_sort w commands limitToFixed showSuggestions tokens
    tokenID alive newTokens :
  tokenLoop_with std_sort w commands limitToFixed showSuggestions tokens
    tokenID alive newTokens =
  tokenLoop w commands limitToFixed showSuggestions tokens tokenID alive newTokens.
Proof.
  revert tokenID alive newTokens. induction tokens as [|token rest IH];
    intros tokenID alive newTokens; [done|].
  cbn [tokenLoop_with tokenLoop]. rewrite tokenStep_with_std_sort.
  destruct (tokenStep _ _ _ _ _ _ _ _) as [[[alive' newTokens'] logged]|e];
    simpl; [|done].
  by rewrite IH.
Qed.

(** With [std_sort] as the sort, [autoComplete_with] is [autoComplete]. *)
Lemma autoComplete_with_std_sort w commands input limitToFixed showSuggestions
    overwriteInput :
  autoComplete_with std_sort w commands input limitToFixed showSuggestions
    overwriteInput =
  autoComplete w commands input limitToFixed showSuggestions overwriteInput.
Proof.
  unfold autoComplete_with, autoComplete.
  destruct (istream_tokens input "") as [|token tokens]; [done|].
  by rewrite tokenLoop_with_std_sort.
Qed.

(** C6 (amended).  Whatever order [std::sort] gives the matches that
    compare as equal: when no alias the generators return holds whitespace
    (and every alias is a string that can be held), no two aliases of one
    group differ in the case of their letters only, and completing a line
    leaves every token either as it was typed or flagged as having no longer
    candidate, then completing the line that was written, with the same
    flags and in the same state, writes that line again. *)
Theorem autoComplete_idempotent sort w commands input limitToFixed
    showSuggestions newTokens logged :
  sorts sort ->
  aliasesClean w commands ->
  caseDistinct w commands ->
  completedTokens_with sort w commands input limitToFixed showSuggestions
    = Ok (newTokens, logged) ->
  Forall2 (fun typed (new : string * bool) => new.1 = typed \/ new.2 = true)
    (istream_tokens input "") newTokens ->
  exists line logged',
    autoComplete_with sort w commands input limitToFixed showSuggestions true
      = Ok (line, logged) /\
    autoComplete_with sort w commands line limitToFixed showSuggestions true
      = Ok (line, logged').
Proof.
  intros Hsort Hclean Hcase Hloop Hall. unfold completedTokens_with in Hloop.
  unfold autoComplete_with at 1.
  destruct (istream_tokens input "") as [|token tokens] eqn:Etokens.
  - exists input, []. simpl in Hloop. injection Hloop as <- <-.
    split; [done|]. unfold autoComplete_with. by rewrite Etokens.
  - rewrite Hloop. simpl.
    destruct (back_ok input) as (lastCh & Hback).
    { apply istream_tokens_nonempty. by rewrite Etokens. }
    rewrite Hback. simpl.
    destruct (tokenLoop_rerun_any sort Hsort w commands limitToFixed showSuggestions
                (token :: tokens) Hclean Hcase [] _ _ _ Hloop)
      as (outRest & Hout & Hrerun).
    simpl in Hout. subst outRest.
    destruct (Hrerun Hall) as (Hkinds & logged' & Hloop').
    assert (Htyped : Forall (fun token => token <> "" /\ noWhitespace token = true)
                       (token :: tokens)).
    { rewrite <- Etokens. by apply istream_tokens_clean. }
    assert (Hnew : Forall (fun new : string * bool =>
                     new.1 <> "" /\ noWhitespace new.1 = true) newTokens).
    { clear -Hkinds Htyped. induction Hkinds as [|typed new ? ? Hk _ IH];
        [constructor|].
      inversion Htyped; subst. constructor; [|by apply IH].
      destruct Hk as [->|Hk]; done. }
    assert (Hne : newTokens <> []).
    { intros ->. inversion Hall. }
    destruct (back_tokenConCat newTokens (isspace lastCh) Hne Hnew)
      as (ch & flag & Hback' & Hlast & Hsp).
    exists (tokenConCat newTokens (isspace lastCh)), logged'.
    split; [done|].
    assert (Hmap : map (fun new : string * bool => (new.1, false)) newTokens =
                   map (fun token => (token, false)) (map fst newTokens)).
    { by rewrite map_map. }
    rewrite Hmap in Hloop'. cbn [length app] in Hloop'.
    unfold autoComplete_with.
    rewrite istream_tokens_tokenConCat by done.
    remember (map fst newTokens) as written eqn:Ewritten.
    destruct written as [|first others].
    { by destruct newTokens. }
    cbv zeta. cbv iota. rewrite Hloop'. simpl.
    rewrite Hback'. simpl. rewrite Hsp.
    by rewrite (tokenConCat_flag _ _ _ Hlast).
Qed.

(** ** The history index after the first submission *)

Lemma static_cast_int_le z : 0 <= z -> static_cast_int z <= z.
Proof.
  intros Hz. unfold static_cast_int.
  pose proof (Z.mod_le (z + 2 ^ 31) (2 ^ 32)). lia.
Qed.

Lemma indexInRange_submitCommand c w command :
  indexInRange (submitCommand split c w command).1.1.
Proof.
  destruct (submitCommand_members c w command) as (_ & Hidx & _).
  unfold indexInRange. rewrite Hidx. lia.
Qed.

Lemma indexInRange_onKeyDown c w glfwKey :
  indexInRange c -> indexInRange (onKeyDown split c w glfwKey).1.1.1.
Proof.
  intros Hc. unfold onKeyDown.
  set (c1 := if glfwKey =? GLFW_KEY_ESCAPE then set_IsOpen c false else c).
  set (c2 := if glfwKey =? GLFW_KEY_F10 then set_IsOpen c1 (negb (m_IsOpen c1)) else c1).
  assert (H2 : indexInRange c2).
  { unfold c2, c1. destruct (glfwKey =? GLFW_KEY_ESCAPE), (glfwKey =? GLFW_KEY_F10); exact Hc. }
  clearbody c2. clear c1 Hc. unfold indexInRange in *.
  destruct (glfwKey =? GLFW_KEY_UP).
  { pose proof (static_cast_int_le (Z.of_nat (length (m_History c2)))).
    destruct (Z.ltb_spec (m_HistoryIndex c2 + 1)
                (static_cast_int (Z.of_nat (length (m_History c2))))); [|done].
    destruct (m_HistoryIndex c2 <? 0);
      match goal with |- context [historyAt ?x] => destruct (historyAt x) end;
      simpl; lia. }
  destruct (glfwKey =? GLFW_KEY_DOWN).
  { destruct (Z.leb_spec 0 (m_HistoryIndex c2)); [|done].
    simpl. destruct (m_HistoryIndex c2 - 1 <? 0); simpl; [lia|].
    match goal with |- context [historyAt ?x] => destruct (historyAt x) end;
      simpl; lia. }
  destruct (glfwKey =? GLFW_KEY_BACKSPACE).
  { by destruct (1 <=? size (m_TypedLine c2)). }
  destruct (glfwKey =? GLFW_KEY_ENTER).
  { pose proof (indexInRange_submitCommand c2 w (m_TypedLine c2)) as Hs.
    destruct (submitCommand split c2 w (m_TypedLine c2)) as [[c3 w3] [r|e]];
      exact Hs. }
  destruct (glfwKey =? GLFW_KEY_TAB); [|done].
  destruct (autoComplete w (m_Commands2 c2) (m_TypedLine c2) false true true)
    as [[line logged]|e]; done.
Qed.

Lemma indexInRange_call c w op :
  indexInRange c -> indexInRange (call split (c, w) op).1.
Proof.
  intros Hc. destruct op; simpl.
  - pose proof (indexInRange_submitCommand c w command) as Hs.
    by destruct (submitCommand split c w command) as [[c' w'] r].
  - pose proof (indexInRange_onKeyDown c w glfwKey Hc) as Hk.
    by destruct (onKeyDown split c w glfwKey) as [[[c' w'] logged] r].
  - exact Hc.
  - exact Hc.
  - exact Hc.
Qed.

(** X1.  Once a line has been submitted, the history index is -1 or the
    index of an entry in every state the console goes through, whatever
    calls follow; the Up key on the oldest entry and the Down key at -1
    change nothing. *)
Theorem history_index_in_range c w command ops :
  let st := run split (submitCommand split c w command).1 ops in
  indexInRange st.1 /\
  (m_HistoryIndex st.1 = Z.of_nat (length (m_History st.1)) - 1 ->
   onKeyDown split st.1 st.2 GLFW_KEY_UP = (st.1, st.2, [], Ok ())) /\
  (m_HistoryIndex st.1 = -1 ->
   onKeyDown split st.1 st.2 GLFW_KEY_DOWN = (st.1, st.2, [], Ok ())).
Proof.
  intros st. split; [|split].
  - subst st. pose proof (indexInRange_submitCommand c w command) as H0.
    destruct (submitCommand split c w command) as [[c0 w0] r0]. simpl in *.
    clear r0. revert c0 w0 H0. induction ops as [|op ops IH]; intros c0 w0 H0; [done|].
    change (indexInRange (run split (call split (c0, w0) op) ops).1).
    pose proof (indexInRange_call c0 w0 op H0) as H1.
    destruct (call split (c0, w0) op) as [c1 w1]. by apply IH.
  - intros Hidx. unfold onKeyDown. simpl.
    pose proof (static_cast_int_le (Z.of_nat (length (m_History st.1)))).
    destruct (Z.ltb_spec (m_HistoryIndex st.1 + 1)
                (static_cast_int (Z.of_nat (length (m_History st.1))))); [lia|done].
  - intros Hidx. unfold onKeyDown. simpl. by rewrite Hidx.
Qed.

(** ** More on [determineCommand] *)

(** When the inner loop ends without an exception, its result says whether
    every position it visited matched. *)
Lemma matchFixTokens_result w command commID tokens tokenID remaining all calls b :
  matchFixTokens w command commID tokens tokenID remaining all = (calls, Ok b) ->
  (b = true <->
   all = true /\
   forall i, (tokenID <= i < tokenID + remaining)%nat ->
             tokenMatches w command tokens i).
Proof.
  revert tokenID all calls. induction remaining as [|remaining IH];
    intros tokenID all calls; simpl.
  - intros [= <- <-]. split; [|tauto]. intros ->. split; [done|lia].
  - unfold at_.
    destruct (generators command !! tokenID) as [generator|] eqn:Egen; [|done].
    destruct (tokens !! tokenID) as [token|] eqn:Etok; [|done].
    pose proof (tokenMatches_dec w command tokens tokenID generator token Egen Etok) as Hdec.
    set (matched := match findNameInGroups (generator w) token with
                    | [] => false | _ => all end).
    specialize (IH (S tokenID) matched).
    destruct (matchFixTokens w command commID tokens (S tokenID) remaining matched)
      as [calls' r'].
    intros [= <- ->]. rewrite (IH calls' eq_refl). subst matched. split.
    + intros [Hm Hrest].
      destruct (findNameInGroups (generator w) token) eqn:E; [done|].
      split; [done|]. intros i Hi.
      destruct (decide (i = tokenID)) as [->|Hne].
      * apply Hdec. done.
      * apply Hrest. lia.
    + intros [-> Hall]. split.
      * destruct (findNameInGroups (generator w) token) eqn:E; [|done].
        exfalso. assert (Hm : tokenMatches w command tokens tokenID) by (apply Hall; lia).
        apply Hdec in Hm. done.
      * intros i Hi. apply Hall. lia.
Qed.

Lemma too_short_no_match w command tokens :
  (length tokens < numFixTokens command)%nat ->
  ~ fixedTokensMatch w command tokens.
Proof.
  intros Hlt Hm. apply fixedTokensMatch_arity in Hm. lia.
Qed.

Lemma determineCommand_from_sound w commands base tokens calls commID :
  Z.of_nat (base + length commands) <= INT_MAX ->
  determineCommand_from w commands base tokens = (calls, Ok commID) ->
  (commID = -1 /\
   forall command, In command commands -> ~ fixedTokensMatch w command tokens) \/
  (exists k command,
     commID = Z.of_nat (base + k) /\ commands !! k = Some command /\
     fixedTokensMatch w command tokens /\
     forall j earlier, (j < k)%nat -> commands !! j = Some earlier ->
       ~ fixedTokensMatch w earlier tokens).
Proof.
  revert base calls commID.
  induction commands as [|first rest IH]; intros base calls commID Hlen; simpl.
  - intros [= <- <-]. left. split; [done|]. intros command [].
  - simpl in Hlen.
    assert (Hstep : forall calls' r,
      ~ fixedTokensMatch w first tokens ->
      determineCommand_from w rest (S base) tokens = (calls', Ok r) ->
      (r = -1 /\
       forall command, In command (first :: rest) ->
         ~ fixedTokensMatch w command tokens) \/
      (exists k command,
         r = Z.of_nat (base + k) /\ (first :: rest) !! k = Some command /\
         fixedTokensMatch w command tokens /\
         forall j earlier, (j < k)%nat -> (first :: rest) !! j = Some earlier ->
           ~ fixedTokensMatch w earlier tokens)).
    { intros calls' r Hno Hrest.
      destruct (IH (S base) calls' r ltac:(lia) Hrest)
        as [[-> Hall]|(k & command & -> & Hk & Hm & Hearlier)].
      - left. split; [done|]. intros command [<-|Hin]; [done|by apply Hall].
      - right. exists (S k), command. split; [f_equal; lia|].
        split; [done|]. split; [done|].
        intros [|j] earlier Hj Hl; simpl in Hl.
        + by simplify_eq.
        + apply (Hearlier j); [lia|done]. }
    destruct (Nat.ltb_spec (length tokens) (numFixTokens first)).
    + intros Hrest. apply (Hstep calls commID); [|done].
      by apply too_short_no_match.
    + destruct (matchFixTokens w first base tokens 0 (numFixTokens first) true)
        as [calls0 [[|]|e]] eqn:Ein; [| |done].
      * intros [= <- <-]. right. exists 0%nat, first.
        rewrite static_cast_int_small by lia.
        split; [f_equal; lia|]. split; [done|]. split; [|intros; lia].
        intros i Hi. eapply matchFixTokens_result; [exact Ein|done|lia].
      * destruct (determineCommand_from w rest (S base) tokens) as [calls' r'] eqn:Erest.
        intros [= <- ->]. apply (Hstep calls' commID); [|done].
        intros Hm.
        assert (false = true); [|done].
        eapply matchFixTokens_result; [exact Ein|].
        split; [done|]. intros i Hi. apply Hm. lia.
Qed.

(** X2.  When [determineCommand] returns an index other than -1, the command
    at that index has all its fixed tokens matched, and no command before it
    has; the registry holds no more commands than an [int] counts. *)
Theorem determineCommand_sound w commands tokens calls commID :
  Z.of_nat (length commands) <= INT_MAX ->
  determineCommand w commands tokens = (calls, Ok commID) ->
  commID <> -1 ->
  exists k command,
    commID = Z.of_nat k /\ commands !! k = Some command /\
    fixedTokensMatch w command tokens /\
    forall j earlier, (j < k)%nat -> commands !! j = Some earlier ->
      ~ fixedTokensMatch w earlier tokens.
Proof.
  intros Hlen Hdet Hne.
  destruct (determineCommand_from_sound w commands 0 tokens calls commID)
    as [[-> _]|H]; [simpl; lia|done|done|exact H].
Qed.

Lemma determineCommand_from_none w commands base tokens :
  Forall arity_ok commands ->
  (forall command, In command commands -> ~ fixedTokensMatch w command tokens) ->
  (determineCommand_from w commands base tokens).2 = Ok (-1).
Proof.
  intros Har. revert base. induction Har as [|first rest Hfirst Hrest IH];
    intros base Hno; simpl; [done|].
  assert (Hno' : forall command, In command rest ->
            ~ fixedTokensMatch w command tokens).
  { intros command Hin. apply Hno. by right. }
  destruct (Nat.ltb_spec (length tokens) (numFixTokens first)); [by apply IH|].
  destruct (matchFixTokens_ok w first base tokens 0 (numFixTokens first) true)
    as (calls & b & Heq & Hb); [unfold arity_ok in Hfirst; lia|lia|].
  rewrite Heq. destruct b.
  - exfalso. apply (Hno first); [by left|].
    intros i Hi. apply Hb; [done|lia].
  - specialize (IH (S base) Hno').
    destruct (determineCommand_from w rest (S base) tokens). exact IH.
Qed.

(** X3.  In a registry whose commands keep [numFixTokens] within their
    generators, [determineCommand] returns -1 exactly when no registered
    command has all its fixed tokens matched. *)
Theorem determineCommand_not_found w commands tokens :
  Z.of_nat (length commands) <= INT_MAX ->
  Forall arity_ok commands ->
  ((determineCommand w commands tokens).2 = Ok (-1) <->
   forall command, In command commands -> ~ fixedTokensMatch w command tokens).
Proof.
  intros Hlen Har. split.
  - intros Hdet. destruct (determineCommand w commands tokens) as [calls r] eqn:E.
    simpl in Hdet. subst r.
    destruct (determineCommand_from_sound w commands 0 tokens calls (-1))
      as [[_ H]|(k & command & Hk & _)]; [simpl; lia|done|exact H|lia].
  - intros Hno. by apply determineCommand_from_none.
Qed.
Lemma matchFixTokens_out_of_range w command commID tokens tokenID remaining all :
  (tokenID <= length (generators command) < tokenID + remaining)%nat ->
  (tokenID + remaining <= length tokens)%nat ->
  (matchFixTokens w command commID tokens tokenID remaining all).2 =
    Throw std_out_of_range.
Proof.
  revert tokenID all. induction remaining as [|remaining IH];
    intros tokenID all Hg Ht; simpl; [lia|].
  unfold at_.
  destruct (generators command !! tokenID) as [generator|] eqn:Egen; [|done].
  destruct (tokens !! tokenID) as [token|] eqn:Etok;
    [|apply lookup_ge_None in Etok; lia].
  apply lookup_lt_Some in Egen.
  match goal with |- context [matchFixTokens ?a ?b ?c ?d ?e ?f ?g] =>
    specialize (IH e g); destruct (matchFixTokens a b c d e f g) as [calls r] end.
  simpl in *. apply IH; unfold CandidateListGenerator in *; lia.
Qed.

Lemma determineCommand_from_out_of_range w commands base tokens k command :
  commands !! k = Some command ->
  (length (generators command) < numFixTokens command)%nat ->
  (numFixTokens command <= length tokens)%nat ->
  (forall j earlier, (j < k)%nat -> commands !! j = Some earlier ->
     arity_ok earlier /\ ~ fixedTokensMatch w earlier tokens) ->
  (determineCommand_from w commands base tokens).2 = Throw std_out_of_range.
Proof.
  revert base k. induction commands as [|first rest IH];
    intros base k Hk Hgen Htok Hearlier; [done|].
  simpl. destruct k as [|k]; simpl in Hk.
  - simplify_eq.
    destruct (Nat.ltb_spec (length tokens) (numFixTokens command)); [lia|].
    pose proof (matchFixTokens_out_of_range w command base tokens 0
                  (numFixTokens command) true) as Hthrow.
    destruct (matchFixTokens w command base tokens 0 (numFixTokens command) true)
      as [calls r].
    simpl in Hthrow. rewrite Hthrow; [done|lia|lia].
  - destruct (Hearlier 0%nat first) as [Har Hnm]; [lia|done|].
    assert (Hrest : (determineCommand_from w rest (S base) tokens).2 =
                    Throw std_out_of_range).
    { apply (IH (S base) k); [done..|].
      intros j earlier Hj Hl. apply (Hearlier (S j)); [lia|done]. }
    destruct (Nat.ltb_spec (length tokens) (numFixTokens first)); [done|].
    destruct (matchFixTokens_ok w first base tokens 0 (numFixTokens first) true)
      as (calls & b & Heq & Hb); [unfold arity_ok in Har; lia|lia|].
    rewrite Heq. destruct b.
    + exfalso. apply Hnm. intros i Hi. apply Hb; [done|lia].
    + destruct (determineCommand_from w rest (S base) tokens). exact Hrest.
Qed.

(** X4.  A command registered with more fixed tokens than generators makes
    [submitCommand] throw: when the line has that many tokens and no command
    before it matches, [determineCommand] leaves with [std::out_of_range],
    which the try blocks of [submitCommand] do not cover.  The line has been
    stored and echoed by then. *)
Theorem submitCommand_arity_violation c w line k command :
  line <> "" ->
  m_Commands2 c !! k = Some command ->
  (length (generators command) < numFixTokens command)%nat ->
  (numFixTokens command <= length (split line " "))%nat ->
  (forall j earlier, (j < k)%nat -> m_Commands2 c !! j = Some earlier ->
     arity_ok earlier /\ ~ fixedTokensMatch w earlier (split line " ")) ->
  submitCommand split c w line =
    (outputAdd
       (set_PendingLine
          (set_HistoryIndex
             (set_History c (historyPush (m_History c) line)) (-1)) "")
       (" >> " +:+ line),
     w, Throw std_out_of_range).
Proof.
  intros Hne Hk Hgen Htok Hearlier. unfold submitCommand.
  destruct (String.eqb_spec line ""); [done|]. simpl.
  pose proof (determineCommand_from_out_of_range w (m_Commands2 c) 0
                (split line " ") k command Hk Hgen Htok Hearlier) as Hthrow.
  unfold determineCommand. rewrite Hthrow. done.
Qed.

Lemma lookup_app_tokens (tokens extra : list string) i :
  (i < length tokens)%nat -> (tokens ++ extra) !! i = tokens !! i.
Proof. intros Hi. by apply lookup_app_l. Qed.

Lemma matchFixTokens_app w command commID tokens extra tokenID remaining all :
  (tokenID + remaining <= length tokens)%nat ->
  matchFixTokens w command commID (tokens ++ extra) tokenID remaining all =
  matchFixTokens w command commID tokens tokenID remaining all.
Proof.
  revert tokenID all. induction remaining as [|remaining IH];
    intros tokenID all Hlen; simpl; [done|].
  unfold at_. rewrite lookup_app_tokens by lia.
  destruct (generators command !! tokenID) as [generator|]; [|done].
  destruct (tokens !! tokenID) as [token|]; [|done].
  rewrite IH by lia. done.
Qed.

(** X5.  The tokens after the fixed ones play no part in resolution: when
    the line has at least as many tokens as every command has fixed tokens,
    tokens added at its end change neither the result of
    [determineCommand] nor the generators it calls. *)
Theorem determineCommand_ignores_arguments w commands tokens extra :
  Forall (fun command => (numFixTokens command <= length tokens)%nat) commands ->
  determineCommand w commands (tokens ++ extra) =
  determineCommand w commands tokens.
Proof.
  intros Hall. unfold determineCommand. generalize 0%nat as base.
  induction Hall as [|command rest Hc Hrest IH]; intros base; simpl; [done|].
  rewrite length_app.
  destruct (Nat.ltb_spec (length tokens + length extra) (numFixTokens command));
    [lia|].
  destruct (Nat.ltb_spec (length tokens) (numFixTokens command)); [lia|].
  rewrite matchFixTokens_app by lia. rewrite IH. done.
Qed.

(** ** What no call takes away *)

Lemma grownFrom_refl c : grownFrom c c.
Proof. repeat split; done. Qed.

Lemma grownFrom_trans c1 c2 c3 :
  grownFrom c1 c2 -> grownFrom c2 c3 -> grownFrom c1 c3.
Proof.
  intros (Ho & Hh & Hc & Hcb & Hc2 & Hhe) (Ho' & Hh' & Hc' & Hcb' & Hc2' & Hhe').
  repeat split; try (etrans; eassumption).
Qed.

Lemma outputAdd_grown c msg : grownFrom c (outputAdd c msg).
Proof. repeat split; try done. simpl. by apply suffix_cons_r. Qed.

Lemma foldl_outputAdd_grown lines c : grownFrom c (foldl outputAdd c lines).
Proof.
  revert c. induction lines as [|line lines IH]; intros c; simpl.
  - apply grownFrom_refl.
  - eapply grownFrom_trans; [apply outputAdd_grown|apply IH].
Qed.

Lemma listCommands_grown w commands c :
  grownFrom c (listCommands w commands c).1.
Proof.
  revert c. induction commands as [|command rest IH]; intros c; simpl.
  - apply grownFrom_refl.
  - destruct (listGenerators w (generators command) (numFixTokens command) 0).
    + eapply grownFrom_trans; [apply outputAdd_grown|apply IH].
    + apply grownFrom_refl.
Qed.

Lemma runCallback_grown cb args c w :
  grownFrom c (runCallback cb args c w).1.1.
Proof.
  destruct cb as [|f]; simpl.
  - pose proof (listCommands_grown w (m_Commands2 c) c) as H.
    destruct (listCommands w (m_Commands2 c) c). exact H.
  - destruct (f args w) as [[w' lines] r]. simpl. apply foldl_outputAdd_grown.
Qed.

Lemma dispatch_grown found args c w :
  grownFrom c (dispatch found args c w).1.1.
Proof.
  unfold dispatch. destruct found as [cb|e].
  - pose proof (runCallback_grown cb args c w) as H.
    destruct (runCallback cb args c w) as [[c' w'] r]. simpl in H.
    destruct r as [result|[]]; simpl; try exact H;
      (eapply grownFrom_trans; [exact H|apply outputAdd_grown]).
  - destruct e; simpl; try apply grownFrom_refl; apply outputAdd_grown.
Qed.

Lemma historyPush_prefix history line :
  history `prefix_of` historyPush history line.
Proof.
  unfold historyPush.
  match goal with |- context [if ?b then _ else _] => destruct b end;
    [by apply prefix_app_r|done].
Qed.

Lemma submitCommand_grown c w command :
  grownFrom c (submitCommand split c w command).1.1.
Proof.
  unfold submitCommand.
  set (c1 := set_PendingLine _ _).
  assert (H1 : grownFrom c c1).
  { repeat split; try done. simpl. apply historyPush_prefix. }
  clearbody c1.
  destruct (String.eqb command ""); simpl; [exact H1|].
  set (c2 := outputAdd c1 _).
  assert (H2 : grownFrom c c2).
  { eapply grownFrom_trans; [exact H1|apply outputAdd_grown]. }
  clearbody c2.
  match goal with |- context [determineCommand ?a ?b ?d] =>
    destruct (determineCommand a b d) as [calls [commID|e]] end;
    simpl; [|exact H2].
  destruct (negb (commID =? -1)).
  - eapply grownFrom_trans; [exact H2|apply dispatch_grown].
  - match goal with |- context [0 <=? ?a] => destruct (0 <=? a) end.
    + eapply grownFrom_trans; [exact H2|apply dispatch_grown].
    + exact (grownFrom_trans _ _ _ H2
               (outputAdd_grown c2 " -- Command not found -- ")).
Qed.

Lemma onKeyDown_grown c w glfwKey :
  grownFrom c (onKeyDown split c w glfwKey).1.1.1.
Proof.
  unfold onKeyDown.
  set (c1 := if glfwKey =? GLFW_KEY_ESCAPE then set_IsOpen c false else c).
  set (c2 := if glfwKey =? GLFW_KEY_F10 then set_IsOpen c1 (negb (m_IsOpen c1)) else c1).
  assert (H2 : grownFrom c c2).
  { unfold c2, c1.
    destruct (glfwKey =? GLFW_KEY_ESCAPE), (glfwKey =? GLFW_KEY_F10);
      repeat split; done. }
  clearbody c2. clear c1.
  assert (Hsame : forall c3,
            m_Output c3 = m_Output c2 /\ m_History c3 = m_History c2 /\
            m_Commands c3 = m_Commands c2 /\
            m_CommandCallbacks c3 = m_CommandCallbacks c2 /\
            m_Commands2 c3 = m_Commands2 c2 /\
            m_Config_height c3 = m_Config_height c2 ->
            grownFrom c c3).
  { intros c3 (Ho & Hh & Hc & Hcb & Hc2 & He).
    destruct H2 as (Ho2 & Hh2 & Hco2 & Hcb2 & Hc22 & He2).
    repeat split; congruence. }
  destruct (glfwKey =? GLFW_KEY_UP).
  { destruct (m_HistoryIndex c2 + 1 <? _); [|done].
    destruct (m_HistoryIndex c2 <? 0);
      match goal with |- context [historyAt ?x] => destruct (historyAt x) end;
      simpl; apply Hsame; repeat split. }
  destruct (glfwKey =? GLFW_KEY_DOWN).
  { destruct (0 <=? m_HistoryIndex c2); [|done].
    simpl. destruct (m_HistoryIndex c2 - 1 <? 0); simpl;
      [apply Hsame; repeat split|].
    match goal with |- context [historyAt ?x] => destruct (historyAt x) end;
      simpl; apply Hsame; repeat split. }
  destruct (glfwKey =? GLFW_KEY_BACKSPACE).
  { destruct (1 <=? size (m_TypedLine c2)); [|done].
    simpl. apply Hsame; repeat split. }
  destruct (glfwKey =? GLFW_KEY_ENTER).
  { pose proof (submitCommand_grown c2 w (m_TypedLine c2)) as Hs.
    destruct (submitCommand split c2 w (m_TypedLine c2)) as [[c3 w3] [r|e]];
      simpl in *; (eapply grownFrom_trans; [exact H2|]); [|exact Hs].
    destruct Hs as (? & ? & ? & ? & ? & ?). repeat split; done. }
  destruct (glfwKey =? GLFW_KEY_TAB); [|done].
  destruct (autoComplete w (m_Commands2 c2) (m_TypedLine c2) false true true)
    as [[line logged]|e]; [|done].
  simpl. apply Hsame; repeat split.
Qed.

Lemma call_grown c w op : grownFrom c (call split (c, w) op).1.
Proof.
  destruct op; simpl.
  - pose proof (submitCommand_grown c w command) as Hs.
    by destruct (submitCommand split c w command) as [[c' w'] r].
  - pose proof (onKeyDown_grown c w glfwKey) as Hk.
    by destruct (onKeyDown split c w glfwKey) as [[[c' w'] logged] r].
  - repeat split; done.
  - repeat split; try done; simpl; by apply prefix_app_r.
  - repeat split; try done; simpl; by apply prefix_app_r.
Qed.

(** X6.  No call takes anything away: after any sequence of calls the
    output still ends with the lines it held, the history and the three
    registry vectors still begin with the entries they held, and the height
    is the same. *)
Theorem run_grows c w ops : grownFrom c (run split (c, w) ops).1.
Proof.
  revert c w. induction ops as [|op ops IH]; intros c w.
  - apply grownFrom_refl.
  - change (grownFrom c (run split (call split (c, w) op) ops).1).
    pose proof (call_grown c w op) as H1.
    destruct (call split (c, w) op) as [c1 w1].
    eapply grownFrom_trans; [exact H1|apply IH].
Qed.
(** ** The old command system, from its result *)

Lemma legacyLoop_result commands input base bestMatchSize bestMatchIndex :
  (legacyLoop commands input base bestMatchSize bestMatchIndex = bestMatchIndex /\
   forall j other, commands !! j = Some other ->
     legacyMatches input other = true -> size other < bestMatchSize) \/
  (exists i candidate,
     legacyLoop commands input base bestMatchSize bestMatchIndex =
       static_cast_int (Z.of_nat (base + i)) /\
     commands !! i = Some candidate /\
     legacyMatches input candidate = true /\
     bestMatchSize <= size candidate /\
     forall j other, commands !! j = Some other ->
       legacyMatches input other = true ->
       size other <= size candidate /\
       (size other = size candidate -> (j <= i)%nat)).
Proof.
  revert base bestMatchSize bestMatchIndex.
  induction commands as [|first rest IH]; intros base bestMatchSize bestMatchIndex.
  - left. split; [done|]. intros j other Hj. done.
  - simpl. destruct (Z.ltb_spec (size first) bestMatchSize) as [Hlt|Hge].
    + destruct (IH (S base) bestMatchSize bestMatchIndex)
        as [[-> Hnone]|(i & candidate & -> & Hi & Hm & Hsize & Hbest)].
      * left. split; [done|]. intros [|j] other Hj Ho; simpl in Hj.
        -- by simplify_eq.
        -- by apply (Hnone j).
      * right. exists (S i), candidate.
        split; [f_equal; f_equal; lia|]. split; [done|]. split; [done|].
        split; [done|]. intros [|j] other Hj Ho; simpl in Hj.
        -- simplify_eq. lia.
        -- destruct (Hbest j other Hj Ho). split; [done|]. lia.
    + destruct (legacyMatches input first) eqn:E.
      * destruct (IH (S base) (size first) (static_cast_int (Z.of_nat base)))
          as [[-> Hnone]|(i & candidate & -> & Hi & Hm & Hsize & Hbest)].
        -- right. exists 0%nat, first. rewrite Nat.add_0_r.
           split; [done|]. split; [done|]. split; [done|]. split; [lia|].
           intros [|j] other Hj Ho; simpl in Hj.
           ++ simplify_eq. split; [lia|]. lia.
           ++ specialize (Hnone j other Hj Ho). lia.
        -- right. exists (S i), candidate.
           split; [f_equal; f_equal; lia|]. split; [done|]. split; [done|].
           split; [lia|]. intros [|j] other Hj Ho; simpl in Hj.
           ++ simplify_eq. split; [lia|]. lia.
           ++ destruct (Hbest j other Hj Ho). split; [done|]. lia.
      * destruct (IH (S base) bestMatchSize bestMatchIndex)
          as [[-> Hnone]|(i & candidate & -> & Hi & Hm & Hsize & Hbest)].
        -- left. split; [done|]. intros [|j] other Hj Ho; simpl in Hj.
           ++ simplify_eq. congruence.
           ++ by apply (Hnone j).
        -- right. exists (S i), candidate.
           split; [f_equal; f_equal; lia|]. split; [done|]. split; [done|].
           split; [done|]. intros [|j] other Hj Ho; simpl in Hj.
           ++ simplify_eq. congruence.
           ++ destruct (Hbest j other Hj Ho). split; [done|]. lia.
Qed.

(** X7.  What the loop of the old command system returns, read from its
    result: -1 exactly when no registered string is a prefix of the input
    ending on a token boundary; an index otherwise, of a string that is such
    a prefix, that no matching string exceeds in length and that no matching
    string of its length follows.  The registry holds no more strings than
    an [int] counts. *)
Theorem legacyBestMatch_sound commands input :
  Z.of_nat (length commands) <= INT_MAX ->
  (legacyBestMatch commands input = -1 <->
   forall candidate, In candidate commands -> ~ boundaryPrefix candidate input) /\
  (forall i, legacyBestMatch commands input = Z.of_nat i ->
     exists candidate,
       commands !! i = Some candidate /\ boundaryPrefix candidate input /\
       forall j other, commands !! j = Some other ->
         boundaryPrefix other input ->
         size other <= size candidate /\
         (size other = size candidate -> (j <= i)%nat)).
Proof.
  intros Hlen. unfold legacyBestMatch.
  destruct (legacyLoop_result commands input 0 0 (-1))
    as [[Heq Hnone]|(i & candidate & Heq & Hi & Hm & _ & Hbest)]; rewrite Heq.
  - split.
    + split; [|done]. intros _ candidate Hin Hb.
      apply list_elem_of_In, list_elem_of_lookup in Hin as [j Hj].
      apply legacyMatches_boundaryPrefix in Hb.
      specialize (Hnone j candidate Hj Hb). pose proof (size_nonneg candidate). lia.
    + intros i Hi. lia.
  - pose proof (lookup_lt_Some _ _ _ Hi) as Hlt.
    rewrite static_cast_int_small by (simpl; lia). simpl. split.
    + split; [lia|]. intros Hno. exfalso. apply (Hno candidate).
      * apply list_elem_of_In, list_elem_of_lookup. eauto.
      * by apply legacyMatches_boundaryPrefix.
    + intros i' Heq'. assert (i' = i) as -> by lia.
      exists candidate. split; [done|].
      split; [by apply legacyMatches_boundaryPrefix|].
      intros j other Hj Ho. apply Hbest; [done|].
      by apply legacyMatches_boundaryPrefix.
Qed.

(** ** What the registry keeps over a run *)

Lemma call_aligned c w op :
  length (m_Commands c) = length (m_CommandCallbacks c) ->
  length (m_Commands (call split (c, w) op).1) =
  length (m_CommandCallbacks (call split (c, w) op).1).
Proof.
  intros Hc. destruct op; simpl.
  - destruct (submitCommand_members c w command)
      as (_ & _ & _ & _ & H1 & H2 & _).
    destruct (submitCommand split c w command) as [[c' w'] r].
    simpl in *. congruence.
  - pose proof (onKeyDown_grown c w glfwKey) as Hk.
    assert (Hsame : m_Commands (onKeyDown split c w glfwKey).1.1.1 = m_Commands c /\
                    m_CommandCallbacks (onKeyDown split c w glfwKey).1.1.1 =
                      m_CommandCallbacks c).
    { unfold onKeyDown.
      set (c1 := if glfwKey =? GLFW_KEY_ESCAPE then set_IsOpen c false else c).
      set (c2 := if glfwKey =? GLFW_KEY_F10
                 then set_IsOpen c1 (negb (m_IsOpen c1)) else c1).
      assert (H2 : m_Commands c2 = m_Commands c /\
                   m_CommandCallbacks c2 = m_CommandCallbacks c).
      { unfold c2, c1.
        by destruct (glfwKey =? GLFW_KEY_ESCAPE), (glfwKey =? GLFW_KEY_F10). }
      clearbody c2. clear c1.
      destruct (glfwKey =? GLFW_KEY_UP).
      { destruct (m_HistoryIndex c2 + 1 <? _); [|done].
        destruct (m_HistoryIndex c2 <? 0);
          match goal with |- context [historyAt ?x] => destruct (historyAt x) end;
          exact H2. }
      destruct (glfwKey =? GLFW_KEY_DOWN).
      { destruct (0 <=? m_HistoryIndex c2); [|done].
        simpl. destruct (m_HistoryIndex c2 - 1 <? 0); simpl; [exact H2|].
        match goal with |- context [historyAt ?x] => destruct (historyAt x) end;
          exact H2. }
      destruct (glfwKey =? GLFW_KEY_BACKSPACE).
      { by destruct (1 <=? size (m_TypedLine c2)). }
      destruct (glfwKey =? GLFW_KEY_ENTER).
      { destruct (submitCommand_members c2 w (m_TypedLine c2))
          as (_ & _ & _ & _ & H3 & H4 & _).
        destruct (submitCommand split c2 w (m_TypedLine c2)) as [[c3 w3] [r|e]];
          simpl in *; destruct H2; split; congruence. }
      destruct (glfwKey =? GLFW_KEY_TAB); [|done].
      by destruct (autoComplete w (m_Commands2 c2) (m_TypedLine c2) false true true)
        as [[line logged]|e]. }
    destruct (onKeyDown split c w glfwKey) as [[[c' w'] logged] r].
    simpl in *. destruct Hsame. congruence.
  - done.
  - rewrite !length_app. simpl. lia.
  - done.
Qed.

Lemma run_aligned c w ops :
  length (m_Commands c) = length (m_CommandCallbacks c) ->
  length (m_Commands (run split (c, w) ops).1) =
  length (m_CommandCallbacks (run split (c, w) ops).1).
Proof.
  revert c w. induction ops as [|op ops IH]; intros c w Hc; [done|].
  change (length (m_Commands (run split (call split (c, w) op) ops).1) =
          length (m_CommandCallbacks (run split (call split (c, w) op) ops).1)).
  pose proof (call_aligned c w op Hc) as H1.
  destruct (call split (c, w) op) as [c1 w1]. by apply IH.
Qed.

Lemma legacyLoop_range commands input base bestMatchSize bestMatchIndex :
  Z.of_nat (base + length commands) <= INT_MAX ->
  legacyLoop commands input base bestMatchSize bestMatchIndex = bestMatchIndex \/
  Z.of_nat base <= legacyLoop commands input base bestMatchSize bestMatchIndex
    < Z.of_nat (base + length commands).
Proof.
  intros Hlen.
  destruct (legacyLoop_result commands input base bestMatchSize bestMatchIndex)
    as [[Heq _]|(i & candidate & Heq & Hi & _)]; [by left|right].
  apply lookup_lt_Some in Hi. rewrite Heq.
  rewrite static_cast_int_small by lia. lia.
Qed.

(** X8.  In every console a run of calls makes of the constructed one, the
    two vectors of the old command system have the same length, so that the
    callback looked up at the index its loop returns is there: the [at] of
    that lookup does not throw. *)
Theorem legacy_callback_registered w ops :
  let c := (run split (Console_new, w) ops).1 in
  length (m_Commands c) = length (m_CommandCallbacks c) /\
  forall input,
    Z.of_nat (length (m_Commands c)) <= INT_MAX ->
    0 <= legacyBestMatch (m_Commands c) input ->
    exists cb,
      at_ (m_CommandCallbacks c)
        (Z.to_nat (size_t_of_int (legacyBestMatch (m_Commands c) input))) = Ok cb.
Proof.
  intros c.
  assert (Hal : length (m_Commands c) = length (m_CommandCallbacks c)).
  { subst c. by apply run_aligned. }
  split; [exact Hal|]. intros input Hlen Hpos.
  destruct (legacyLoop_range (m_Commands c) input 0 0 (-1)) as [Heq|Hrange];
    [simpl; lia|unfold legacyBestMatch in Hpos; lia|].
  fold (legacyBestMatch (m_Commands c) input) in Hrange. simpl in Hrange.
  unfold size_t_of_int, size_t_wrap, INT_MAX in *.
  rewrite Z.mod_small by lia. unfold at_.
  destruct (m_CommandCallbacks c !! Z.to_nat (legacyBestMatch (m_Commands c) input))
    as [cb|] eqn:E; [by exists cb|].
  apply lookup_ge_None in E. lia.
Qed.

Lemma run_prefix_Commands2 c w ops :
  m_Commands2 c `prefix_of` m_Commands2 (run split (c, w) ops).1.
Proof.
  revert c w. induction ops as [|op ops IH]; intros c w; [done|].
  change (m_Commands2 c `prefix_of`
          m_Commands2 (run split (call split (c, w) op) ops).1).
  destruct (call_grown c w op) as (_ & _ & _ & _ & H1 & _).
  destruct (call split (c, w) op) as [c1 w1]. etrans; [exact H1|apply IH].
Qed.

(** X9.  The built-in command keeps the word it was registered with: in
    every console a run of calls makes of the constructed one, a line whose
    first token is "list" resolves to index 0, the command the constructor
    registered, after one generator call; no command registered later is
    looked at. *)
Theorem builtin_list_resolves w ops args :
  let st := run split (Console_new, w) ops in
  determineCommand st.2 (m_Commands2 st.1) ("list" :: args) =
    ([(0, 0)%nat], Ok 0) /\
  callback <$> m_Commands2 st.1 !! 0%nat = Some ListCommands.
Proof.
  intros st. subst st.
  destruct (run_prefix_Commands2 Console_new w ops) as [rest Heq].
  rewrite Heq. simpl. done.
Qed.

(** ** The callback of a resolved command *)

Lemma static_cast_int_range z : - 2 ^ 31 <= static_cast_int z <= INT_MAX.
Proof.
  unfold static_cast_int, INT_MAX.
  pose proof (Z.mod_pos_bound (z + 2 ^ 31) (2 ^ 32)). lia.
Qed.

Lemma determineCommand_from_le w commands base tokens r :
  (determineCommand_from w commands base tokens).2 = Ok r -> r <= INT_MAX.
Proof.
  revert base. induction commands as [|first rest IH]; intros base; simpl.
  - intros [= <-]. unfold INT_MAX. lia.
  - destruct (length tokens <? numFixTokens first)%nat; [apply IH|].
    destruct (matchFixTokens w first base tokens 0 (numFixTokens first) true)
      as [calls [[|]|e]]; simpl; [| |done].
    + intros [= <-]. apply static_cast_int_range.
    + specialize (IH (S base)).
      destruct (determineCommand_from w rest (S base) tokens). exact IH.
Qed.

(** X10.  What [submitCommand] makes of the callback of the command the new
    system resolved.  The lines the callback writes follow the echo of the
    input; a text it returns is written after them and returned;
    [std::out_of_range] and [std::invalid_argument] become the texts
    "error: argument out of range" and "error: invalid argument", written
    and returned alike; any other exception leaves [submitCommand] with
    nothing more written.  What the callback did to the engine state stays
    in every case. *)
Theorem submitCommand_runs_callback c w line k command f w' lines r :
  line <> "" ->
  (determineCommand w (m_Commands2 c) (split line " ")).2 = Ok (Z.of_nat k) ->
  m_Commands2 c !! k = Some command ->
  callback command = External f ->
  f (split line " ") w = (w', lines, r) ->
  let c1 :=
    foldl outputAdd
      (outputAdd
         (set_PendingLine
            (set_HistoryIndex
               (set_History c (historyPush (m_History c) line)) (-1)) "")
         (" >> " +:+ line)) lines in
  submitCommand split c w line =
    match r with
    | Ok result => (outputAdd c1 result, w', Ok result)
    | Throw std_out_of_range =>
        (outputAdd c1 "error: argument out of range", w',
         Ok "error: argument out of range")
    | Throw std_invalid_argument =>
        (outputAdd c1 "error: invalid argument", w',
         Ok "error: invalid argument")
    | Throw e => (c1, w', Throw e)
    end.
Proof.
  intros Hne Hdet Hk Hcb Hf c1. unfold submitCommand.
  destruct (String.eqb_spec line ""); [done|]. simpl.
  pose proof (determineCommand_from_le w (m_Commands2 c) 0 (split line " ")
                (Z.of_nat k) Hdet) as Hle.
  rewrite Hdet. simpl.
  destruct (Z.eqb_spec (Z.of_nat k) (-1)); [lia|]. simpl.
  unfold size_t_of_int, size_t_wrap.
  rewrite Z.mod_small by (unfold INT_MAX in Hle; lia).
  rewrite Nat2Z.id. unfold at_. rewrite Hk. simpl.
  unfold dispatch, runCallback. rewrite Hcb, Hf.
  by destruct r as [result|[]].
Qed.

(** ** Recalling the line just submitted *)

Lemma historyPush_last history line :
  representable line -> onlySpaces line = false ->
  last (historyPush history line) = Some line.
Proof.
  intros Hrep Hblank. unfold historyPush.
  rewrite find_first_not_of_npos, Hblank by done. simpl.
  destruct (last history) as [newest|] eqn:El.
  - destruct (String.eqb_spec newest line); simpl.
    + by subst.
    + by rewrite last_snoc.
  - by rewrite last_snoc.
Qed.

(** X11.  The Up key recalls the line just submitted: after a line that
    holds more than spaces has been submitted, whatever came of it, the Up
    key shows that line, moves the history index to 0 and keeps what was
    typed as pending line.  The history fits the [int] that counts it. *)
Theorem submitted_line_recalled c w line :
  representable line ->
  onlySpaces line = false ->
  Z.of_nat (length (m_History c)) < INT_MAX ->
  let st := (submitCommand split c w line).1 in
  onKeyDown split st.1 st.2 GLFW_KEY_UP =
    (set_TypedLine
       (set_HistoryIndex (set_PendingLine st.1 (m_TypedLine c)) 0) line,
     st.2, [], Ok ()).
Proof.
  intros Hrep Hblank Hlen st.
  destruct (submitCommand_members c w line)
    as (Hh & Hi & Hp & Ht & _).
  fold st in Hh, Hi, Hp, Ht.
  pose proof (historyPush_last (m_History c) line Hrep Hblank) as Hlast.
  rewrite <- Hh in Hlast.
  assert (Hsize : 1 <= Z.of_nat (length (m_History st.1)) <= INT_MAX).
  { split.
    - destruct (m_History st.1); [done|]. simpl. lia.
    - rewrite Hh. unfold historyPush.
      match goal with |- context [if ?b then _ else _] => destruct b end;
        [rewrite length_app; simpl|]; lia. }
  unfold onKeyDown, historyAt. simpl.
  rewrite static_cast_int_small by lia. rewrite !Hi, Ht.
  change (-1 + 1) with 0. change (-1 <? 0) with true. cbv iota.
  destruct (Z.ltb_spec 0 (Z.of_nat (length (m_History st.1)))); [|lia].
  simpl. rewrite !Hi. change (-1 + 1) with 0.
  unfold size_t_of_int, size_t_wrap. rewrite (Z.mod_small 0) by lia.
  rewrite Z.mod_small by (unfold INT_MAX in Hsize; lia).
  unfold at_. rewrite last_lookup in Hlast.
  replace (Z.to_nat (Z.of_nat (length (m_History st.1)) - 0 - 1))
    with (pred (length (m_History st.1))) by lia.
  by rewrite Hlast.
Qed.

(** ** The built-in "list" command *)

Lemma concat_empty_cons x xs :
  String.concat "" (x :: xs) = x +:+ String.concat "" xs.
Proof. destruct xs; simpl; [by rewrite app_empty_r|done]. Qed.

Lemma concat_sep_cons sep x xs :
  String.concat sep (x :: xs) =
  x +:+ String.concat "" (map (String.append sep) xs).
Proof.
  revert x. induction xs as [|y xs IH]; intros x.
  - simpl. by rewrite app_empty_r.
  - change (String.concat sep (x :: y :: xs))
      with (x +:+ sep +:+ String.concat sep (y :: xs)).
    rewrite IH. cbn [map]. rewrite concat_empty_cons.
    by rewrite app_assoc_string.
Qed.

Lemma listGroups_later groups :
  Forall (fun group => group <> []) groups ->
  listGroups groups false =
    Ok (String.concat ""
          (map (String.append "/")
             (map (fun group => default "" (head group)) groups))).
Proof.
  induction 1 as [|group rest Hgroup Hrest IH]; [done|].
  cbn [listGroups map]. destruct group as [|alias group]; [done|].
  rewrite IH, concat_empty_cons. done.
Qed.

Lemma listGroups_first groups :
  Forall (fun group => group <> []) groups ->
  listGroups groups true = Ok (groupNames groups).
Proof.
  intros H. destruct H as [|group rest Hgroup Hrest]; [done|].
  cbn [listGroups]. destruct group as [|alias group]; [done|].
  rewrite listGroups_later by done. unfold groupNames. cbn [map].
  by rewrite concat_sep_cons.
Qed.

Lemma listGroups_empty_group groups isFirst :
  In [] groups -> listGroups groups isFirst = Throw undefined_behaviour.
Proof.
  revert isFirst. induction groups as [|group rest IH]; intros isFirst; [done|].
  intros [->|Hin]; [done|]. cbn [listGroups].
  destruct group as [|alias group]; [done|]. simpl. by rewrite IH.
Qed.

Lemma listGroups_throws groups isFirst e :
  listGroups groups isFirst = Throw e -> e = undefined_behaviour.
Proof.
  revert isFirst. induction groups as [|group rest IH]; intros isFirst; [done|].
  cbn [listGroups]. destruct group as [|alias group]; [by intros [= <-]|].
  simpl. specialize (IH false). destruct (listGroups rest false); [done|].
  intros [= <-]. by apply IH.
Qed.

Lemma listGenerators_later w gens numFix index :
  (0 < index)%nat ->
  Forall (fun generator : CandidateListGenerator =>
            Forall (fun group => group <> []) (generator w))
    (take (numFix - index) gens) ->
  listGenerators w gens numFix index =
    Ok (String.concat ""
          (map (String.append " ")
             (map (fun generator : CandidateListGenerator =>
                     groupNames (generator w))
                (take (numFix - index) gens)))).
Proof.
  revert index. induction gens as [|generator rest IH]; intros index Hpos Hall.
  - by rewrite take_nil.
  - cbn [listGenerators]. destruct (Nat.leb_spec numFix index) as [Hle|Hlt].
    + by replace (numFix - index)%nat with 0%nat by lia.
    + replace (numFix - index)%nat with (S (numFix - S index)) in * by lia.
      cbn [take map] in *. apply Forall_cons in Hall as [Hgen Hall].
      rewrite concat_empty_cons, listGroups_first by done.
      unfold mbind, Exceptional_bind.
      rewrite IH by (done || lia).
      destruct (Nat.eqb_spec index 0); [lia|].
      by rewrite app_assoc_string.
Qed.

Lemma listGenerators_line w command :
  listable w command ->
  listGenerators w (generators command) (numFixTokens command) 0 =
    Ok (listLine w command).
Proof.
  unfold listable, listLine.
  destruct (generators command) as [|generator rest]; [by rewrite take_nil|].
  cbn [listGenerators]. destruct (numFixTokens command) as [|n]; [done|].
  cbn [take map Nat.leb]. intros [Hgen Hall]%Forall_cons.
  rewrite concat_sep_cons, listGroups_first by done.
  unfold mbind, Exceptional_bind.
  rewrite listGenerators_later; [|lia|by replace (S n - 1)%nat with n by lia].
  replace (S n - 1)%nat with n by lia. done.
Qed.

Lemma listGenerators_empty_group w gens numFix index :
  Exists (fun generator : CandidateListGenerator => In [] (generator w))
    (take (numFix - index) gens) ->
  listGenerators w gens numFix index = Throw undefined_behaviour.
Proof.
  revert index. induction gens as [|generator rest IH]; intros index Hex.
  - rewrite take_nil in Hex. by apply Exists_nil in Hex.
  - cbn [listGenerators]. destruct (Nat.leb_spec numFix index) as [Hle|Hlt].
    + replace (numFix - index)%nat with 0%nat in Hex by lia.
      by apply Exists_nil in Hex.
    + replace (numFix - index)%nat with (S (numFix - S index)) in Hex by lia.
      cbn [take] in Hex. apply Exists_cons in Hex as [Hgen|Hex].
      * by rewrite listGroups_empty_group.
      * rewrite (IH (S index) Hex).
        destruct (listGroups (generator w) true) as [names|e] eqn:E; [done|].
        by apply listGroups_throws in E as ->.
Qed.

Lemma listCommands_lines w commands c :
  Forall (listable w) commands ->
  listCommands w commands c =
    (foldl outputAdd c (map (listLine w) commands), Ok "").
Proof.
  intros H. revert c. induction H as [|command rest Hc Hrest IH]; intros c; [done|].
  cbn [listCommands map foldl]. rewrite listGenerators_line by done. apply IH.
Qed.

Lemma foldl_outputAdd_output lines c :
  m_Output (foldl outputAdd c lines) = rev lines ++ m_Output c.
Proof.
  revert c. induction lines as [|line lines IH]; intros c; [done|].
  cbn [foldl]. rewrite IH. simpl. by rewrite <- app_assoc.
Qed.

(** X12.  The "list" command writes one line for each registered command,
    in registration order, and returns the empty text: the line holds, for
    each fixed token position, the first alias of every group, the groups
    separated by slashes and the positions by spaces.  No generator of a
    fixed token position returns an empty group. *)
Theorem listCommands_prints_registry w commands c :
  Forall (listable w) commands ->
  (listCommands w commands c).2 = Ok "" /\
  m_Output (listCommands w commands c).1 =
    rev (map (listLine w) commands) ++ m_Output c /\
  sameButOutput c (listCommands w commands c).1.
Proof.
  intros H. split; [|split].
  - by rewrite listCommands_lines.
  - rewrite listCommands_lines by done. apply foldl_outputAdd_output.
  - apply listCommands_same.
Qed.

(** X13.  An empty alias group at a fixed token position makes the "list"
    command read the first element of an empty vector: the lines of the
    commands before the first such command are written, and what follows
    is undefined. *)
Theorem listCommands_empty_group w commands c k command :
  commands !! k = Some command ->
  (forall j earlier, (j < k)%nat -> commands !! j = Some earlier ->
     listable w earlier) ->
  Exists (fun generator : CandidateListGenerator => In [] (generator w))
    (take (numFixTokens command) (generators command)) ->
  listCommands w commands c =
    (foldl outputAdd c (map (listLine w) (take k commands)),
     Throw undefined_behaviour).
Proof.
  revert c k. induction commands as [|first rest IH]; intros c k Hk Hearlier Hex;
    [done|].
  destruct k as [|k]; simpl in Hk.
  - simplify_eq. cbn [listCommands take map foldl].
    rewrite listGenerators_empty_group; [done|].
    by replace (numFixTokens command - 0)%nat with (numFixTokens command) by lia.
  - cbn [listCommands take map foldl].
    rewrite listGenerators_line by (apply (Hearlier 0%nat); [lia|done]).
    apply IH; [done| |done].
    intros j earlier Hj Hl. apply (Hearlier (S j)); [lia|done].
Qed.

(** X14.  Submitting "list" to a console a run of calls made of the
    constructed one runs the built-in command, whatever was registered
    since: the output receives the echo of the line, one line for each
    registered command and the empty text the command returns.  The
    splitter makes the one token "list" of the line, and no generator of a
    fixed token position returns an empty group. *)
Theorem submit_list_prints_registry w ops :
  let st := run split (Console_new, w) ops in
  split "list" " " = ["list"] ->
  Forall (listable st.2) (m_Commands2 st.1) ->
  exists c',
    submitCommand split st.1 st.2 "list" = (c', st.2, Ok "") /\
    m_Output c' =
      "" :: rev (map (listLine st.2) (m_Commands2 st.1))
         ++ " >> list" :: m_Output st.1.
Proof.
  intros st Hsplit Hlistable.
  destruct (run_prefix_Commands2 Console_new w ops) as [rest Heq].
  fold st in Heq. simpl in Heq.
  assert (Hdet : determineCommand st.2 (m_Commands2 st.1) ["list"] =
                 ([(0, 0)%nat], Ok 0)) by (by rewrite Heq).
  assert (Hat : m_Commands2 st.1 !! 0%nat =
                Some (mkConsoleCommand [listTokenGen] ListCommands 1))
    by (by rewrite Heq).
  unfold submitCommand. simpl. rewrite Hsplit, Hdet. simpl.
  change (Z.to_nat (size_t_of_int 0)) with 0%nat.
  unfold at_. rewrite Hat. unfold dispatch. simpl.
  match goal with |- context [listCommands ?a ?b ?d] =>
    rewrite (listCommands_lines a b d Hlistable) end.
  eexists. split; [reflexivity|]. simpl.
  by rewrite foldl_outputAdd_output.
Qed.

(** ** The history keys *)

Lemma historyAt_in_range c :
  0 <= m_HistoryIndex c < Z.of_nat (length (m_History c)) ->
  Z.of_nat (length (m_History c)) <= INT_MAX ->
  exists entry,
    m_History c !! (length (m_History c) - 1 - Z.to_nat (m_HistoryIndex c))%nat =
      Some entry /\
    historyAt c = Ok entry.
Proof.
  intros Hidx Hlen. unfold historyAt, size_t_of_int, size_t_wrap, INT_MAX in *.
  rewrite (Z.mod_small (m_HistoryIndex c)) by lia.
  rewrite Z.mod_small by lia.
  replace (Z.to_nat (Z.of_nat (length (m_History c)) - m_HistoryIndex c - 1))
    with (length (m_History c) - 1 - Z.to_nat (m_HistoryIndex c))%nat by lia.
  unfold at_.
  destruct (m_History c !! (length (m_History c) - 1 - Z.to_nat (m_HistoryIndex c))%nat)
    as [entry|] eqn:E; [by exists entry|].
  apply lookup_ge_None in E. lia.
Qed.

Lemma up_key_step c w :
  -1 <= m_HistoryIndex c ->
  m_HistoryIndex c + 1 < Z.of_nat (length (m_History c)) ->
  Z.of_nat (length (m_History c)) <= INT_MAX ->
  exists entry,
    m_History c
      !! (length (m_History c) - 1 - Z.to_nat (m_HistoryIndex c + 1))%nat =
      Some entry /\
    onKeyDown split c w GLFW_KEY_UP =
      (set_TypedLine
         (set_HistoryIndex
            (if m_HistoryIndex c <? 0
             then set_PendingLine c (m_TypedLine c) else c)
            (m_HistoryIndex c + 1))
         entry, w, [], Ok ()).
Proof.
  intros Hlow Hup Hlen. unfold onKeyDown. simpl.
  rewrite static_cast_int_small by lia.
  destruct (Z.ltb_spec (m_HistoryIndex c + 1) (Z.of_nat (length (m_History c))));
    [|lia].
  set (c' := set_HistoryIndex _ _).
  destruct (historyAt_in_range c') as (entry & Hentry & Hat).
  { subst c'. destruct (m_HistoryIndex c <? 0); simpl; lia. }
  { subst c'. by destruct (m_HistoryIndex c <? 0). }
  exists entry. rewrite Hat. split;
    [|subst c'; by destruct (m_HistoryIndex c <? 0)].
  rewrite <- Hentry. subst c'.
  destruct (m_HistoryIndex c <? 0); simpl; f_equal; lia.
Qed.

Lemma up_key_oldest c w :
  Z.of_nat (length (m_History c)) - 1 <= m_HistoryIndex c ->
  onKeyDown split c w GLFW_KEY_UP = (c, w, [], Ok ()).
Proof.
  intros Hidx. unfold onKeyDown. simpl.
  pose proof (static_cast_int_le (Z.of_nat (length (m_History c)))).
  destruct (Z.ltb_spec (m_HistoryIndex c + 1)
              (static_cast_int (Z.of_nat (length (m_History c))))); [lia|done].
Qed.

Lemma down_key_step c w :
  0 <= m_HistoryIndex c <= Z.of_nat (length (m_History c)) ->
  Z.of_nat (length (m_History c)) <= INT_MAX ->
  (m_HistoryIndex c = 0 /\
   onKeyDown split c w GLFW_KEY_DOWN =
     (set_TypedLine (set_HistoryIndex c (-1)) (m_PendingLine c), w, [], Ok ())) \/
  (0 < m_HistoryIndex c /\
   exists entry,
     m_History c !! (length (m_History c) - Z.to_nat (m_HistoryIndex c))%nat =
       Some entry /\
     onKeyDown split c w GLFW_KEY_DOWN =
       (set_TypedLine (set_HistoryIndex c (m_HistoryIndex c - 1)) entry,
        w, [], Ok ())).
Proof.
  intros Hidx Hlen. unfold onKeyDown. simpl.
  destruct (Z.leb_spec 0 (m_HistoryIndex c)); [|lia].
  destruct (Z.ltb_spec (m_HistoryIndex c - 1) 0).
  - left. assert (m_HistoryIndex c = 0) as Heq by lia. split; [done|].
    by rewrite Heq.
  - right. split; [lia|].
    destruct (historyAt_in_range (set_HistoryIndex c (m_HistoryIndex c - 1)))
      as (entry & Hentry & Hat); [simpl; lia|done|].
    exists entry. rewrite Hat. split; [|done].
    rewrite <- Hentry. simpl. f_equal. lia.
Qed.

Lemma down_key_idle c w :
  m_HistoryIndex c < 0 ->
  onKeyDown split c w GLFW_KEY_DOWN = (c, w, [], Ok ()).
Proof.
  intros Hidx. unfold onKeyDown. simpl.
  destruct (Z.leb_spec 0 (m_HistoryIndex c)); [lia|done].
Qed.

Lemma run_snoc (st : @Console World * World) ops op :
  run split st (ops ++ [op]) = call split (run split st ops) op.
Proof. unfold run. by rewrite foldl_snoc. Qed.

Lemma run_cons (st : @Console World * World) op ops :
  run split st (op :: ops) = run split (call split st op) ops.
Proof. done. Qed.

Lemma run_app (st : @Console World * World) ops ops' :
  run split st (ops ++ ops') = run split (run split st ops) ops'.
Proof. unfold run. by rewrite foldl_app. Qed.

Lemma call_key c w glfwKey c' :
  onKeyDown split c w glfwKey = (c', w, [], Ok ()) ->
  call split (c, w) (CallKeyDown glfwKey) = (c', w).
Proof. intros H. simpl. by rewrite H. Qed.

Lemma ups_browsing c w k :
  m_HistoryIndex c = -1 ->
  Z.of_nat (length (m_History c)) <= INT_MAX ->
  (1 <= k <= length (m_History c))%nat ->
  exists entry,
    m_History c !! (length (m_History c) - k)%nat = Some entry /\
    run split (c, w) (replicate k (CallKeyDown GLFW_KEY_UP)) =
      (browsing c k entry, w).
Proof.
  intros Hidx Hlen. induction k as [|k IH]; intros Hk; [lia|].
  destruct (decide (k = 0%nat)) as [->|Hne].
  - destruct (up_key_step c w) as (entry & Hentry & Hup); [lia..|].
    exists entry. split.
    + rewrite <- Hentry. f_equal. lia.
    + cbn [replicate]. rewrite run_cons, (call_key _ _ _ _ Hup).
      by rewrite Hidx.
  - destruct IH as (shown & _ & Hrun); [lia|].
    rewrite replicate_S_end, run_snoc, Hrun.
    destruct (up_key_step (browsing c k shown) w) as (entry & Hentry & Hup);
      [simpl; lia..|].
    exists entry. split.
    + rewrite <- Hentry. simpl. f_equal. lia.
    + rewrite (call_key _ _ _ _ Hup). simpl.
      destruct (Z.ltb_spec (Z.of_nat k - 1) 0); [lia|].
      f_equal.
      unfold browsing, set_TypedLine, set_HistoryIndex, set_PendingLine. simpl.
      f_equal. lia.
Qed.

Lemma ups_saturate c w k entry :
  run split (browsing c (length (m_History c)) entry, w)
    (replicate k (CallKeyDown GLFW_KEY_UP)) =
  (browsing c (length (m_History c)) entry, w).
Proof.
  induction k as [|k IH]; [done|].
  rewrite replicate_S_end, run_snoc, IH.
  apply call_key, up_key_oldest. simpl. lia.
Qed.

(** X15.  The Up key walks back through the history: pressed [k] times
    while no entry is shown, it shows the [k]-th newest entry, or the oldest
    one when the history holds fewer than [k]; the history index is the
    number of the entry shown, counted from 0 at the newest, and what was
    typed before the first press is kept as pending line.  The history is
    not empty and fits the [int] that counts it. *)
Theorem up_shows_older_entries c w k :
  m_HistoryIndex c = -1 ->
  Z.of_nat (length (m_History c)) <= INT_MAX ->
  m_History c <> [] ->
  (1 <= k)%nat ->
  let n := Nat.min k (length (m_History c)) in
  exists entry,
    m_History c !! (length (m_History c) - n)%nat = Some entry /\
    run split (c, w) (replicate k (CallKeyDown GLFW_KEY_UP)) =
      (browsing c n entry, w).
Proof.
  intros Hidx Hlen Hne Hk n.
  assert (Hpos : (1 <= length (m_History c))%nat).
  { destruct (m_History c); [done|simpl; lia]. }
  destruct (ups_browsing c w n Hidx Hlen) as (entry & Hentry & Hrun); [lia|].
  exists entry. split; [done|].
  replace k with (n + (k - n))%nat by lia.
  rewrite replicate_add, run_app, Hrun.
  destruct (decide (k <= length (m_History c))%nat) as [Hle|Hgt].
  - by replace (k - n)%nat with 0%nat by lia.
  - replace n with (length (m_History c)) by lia. apply ups_saturate.
Qed.

Lemma downs_idle c w k :
  m_HistoryIndex c < 0 ->
  run split (c, w) (replicate k (CallKeyDown GLFW_KEY_DOWN)) = (c, w).
Proof.
  intros Hidx. induction k as [|k IH]; [done|].
  rewrite replicate_S_end, run_snoc, IH.
  by apply call_key, down_key_idle.
Qed.

Lemma downs_from_browsing c w n entry m :
  m_HistoryIndex c = -1 ->
  Z.of_nat (length (m_History c)) <= INT_MAX ->
  (1 <= n <= length (m_History c))%nat ->
  (n <= m)%nat ->
  run split (browsing c n entry, w) (replicate m (CallKeyDown GLFW_KEY_DOWN)) =
    (set_PendingLine c (m_TypedLine c), w).
Proof.
  intros Hidx Hlen. revert entry m. induction n as [|n IH]; intros entry m Hn Hm;
    [lia|].
  destruct m as [|m]; [lia|].
  cbn [replicate]. rewrite run_cons.
  destruct (down_key_step (browsing c (S n) entry) w)
    as [[Hzero Hdown]|(Hpos & shown & _ & Hdown)]; [simpl; lia|done| |].
  - simpl in Hzero. assert (n = 0%nat) as -> by lia.
    rewrite (call_key _ _ _ _ Hdown).
    replace (set_TypedLine (set_HistoryIndex (browsing c 1 entry) (-1))
               (m_PendingLine (browsing c 1 entry)))
      with (set_PendingLine c (m_TypedLine c)).
    + apply downs_idle. simpl. lia.
    + unfold browsing, set_TypedLine, set_HistoryIndex, set_PendingLine. simpl.
      by rewrite Hidx.
  - simpl in Hpos.
    rewrite (call_key _ _ _ _ Hdown).
    replace (set_TypedLine
               (set_HistoryIndex (browsing c (S n) entry)
                  (m_HistoryIndex (browsing c (S n) entry) - 1)) shown)
      with (browsing c n shown).
    + apply IH; lia.
    + unfold browsing, set_TypedLine, set_HistoryIndex, set_PendingLine. simpl.
      f_equal. lia.
Qed.

(** X16.  The Down key undoes the Up key: after the Up key was pressed any
    number of times and the Down key as often, the line that was typed
    before is shown again and no entry is selected; the console is the one
    before the keys but for the pending line, which holds the typed line.
    The history is not empty and fits the [int] that counts it. *)
Theorem up_down_round_trip c w k :
  m_HistoryIndex c = -1 ->
  Z.of_nat (length (m_History c)) <= INT_MAX ->
  m_History c <> [] ->
  (1 <= k)%nat ->
  run split (c, w)
    (replicate k (CallKeyDown GLFW_KEY_UP)
     ++ replicate k (CallKeyDown GLFW_KEY_DOWN)) =
  (set_PendingLine c (m_TypedLine c), w).
Proof.
  intros Hidx Hlen Hne Hk.
  assert (Hpos : (1 <= length (m_History c))%nat).
  { destruct (m_History c); [done|simpl; lia]. }
  set (n := Nat.min k (length (m_History c))).
  destruct (ups_browsing c w n Hidx Hlen) as (entry & Hentry & Hrun);
    [subst n; lia|].
  rewrite run_app.
  replace (run split (c, w) (replicate k (CallKeyDown GLFW_KEY_UP)))
    with (browsing c n entry, w).
  - apply downs_from_browsing; try done; subst n; lia.
  - symmetry. replace k with (n + (k - n))%nat at 1 by (subst n; lia).
    rewrite replicate_add, run_app, Hrun.
    destruct (decide (k <= length (m_History c))%nat) as [Hle|Hgt].
    + by replace (k - n)%nat with 0%nat by (subst n; lia).
    + replace n with (length (m_History c)) by (subst n; lia).
      apply ups_saturate.
Qed.

(** ** The history keys never throw *)

Lemma indexBounded_submitCommand c w command :
  indexBounded (submitCommand split c w command).1.1.
Proof.
  destruct (submitCommand_members c w command) as (_ & Hidx & _).
  unfold indexBounded. rewrite Hidx. lia.
Qed.

Lemma indexBounded_onKeyDown c w glfwKey :
  indexBounded c -> indexBounded (onKeyDown split c w glfwKey).1.1.1.
Proof.
  intros Hc. unfold onKeyDown.
  set (c1 := if glfwKey =? GLFW_KEY_ESCAPE then set_IsOpen c false else c).
  set (c2 := if glfwKey =? GLFW_KEY_F10 then set_IsOpen c1 (negb (m_IsOpen c1)) else c1).
  assert (H2 : indexBounded c2).
  { unfold c2, c1. destruct (glfwKey =? GLFW_KEY_ESCAPE), (glfwKey =? GLFW_KEY_F10); exact Hc. }
  clearbody c2. clear c1 Hc. unfold indexBounded in *.
  destruct (glfwKey =? GLFW_KEY_UP).
  { pose proof (static_cast_int_le (Z.of_nat (length (m_History c2)))).
    destruct (Z.ltb_spec (m_HistoryIndex c2 + 1)
                (static_cast_int (Z.of_nat (length (m_History c2))))); [|done].
    destruct (m_HistoryIndex c2 <? 0);
      match goal with |- context [historyAt ?x] => destruct (historyAt x) end;
      simpl; lia. }
  destruct (glfwKey =? GLFW_KEY_DOWN).
  { destruct (Z.leb_spec 0 (m_HistoryIndex c2)); [|done].
    simpl. destruct (m_HistoryIndex c2 - 1 <? 0); simpl; [lia|].
    match goal with |- context [historyAt ?x] => destruct (historyAt x) end;
      simpl; lia. }
  destruct (glfwKey =? GLFW_KEY_BACKSPACE).
  { by destruct (1 <=? size (m_TypedLine c2)). }
  destruct (glfwKey =? GLFW_KEY_ENTER).
  { pose proof (indexBounded_submitCommand c2 w (m_TypedLine c2)) as Hs.
    destruct (submitCommand split c2 w (m_TypedLine c2)) as [[c3 w3] [r|e]];
      exact Hs. }
  destruct (glfwKey =? GLFW_KEY_TAB); [|done].
  destruct (autoComplete w (m_Commands2 c2) (m_TypedLine c2) false true true)
    as [[line logged]|e]; done.
Qed.

Lemma indexBounded_call c w op :
  indexBounded c -> indexBounded (call split (c, w) op).1.
Proof.
  intros Hc. destruct op; simpl.
  - pose proof (indexBounded_submitCommand c w command) as Hs.
    by destruct (submitCommand split c w command) as [[c' w'] r].
  - pose proof (indexBounded_onKeyDown c w glfwKey Hc) as Hk.
    by destruct (onKeyDown split c w glfwKey) as [[[c' w'] logged] r].
  - exact Hc.
  - exact Hc.
  - exact Hc.
Qed.

Lemma indexBounded_run c w ops :
  indexBounded c -> indexBounded (run split (c, w) ops).1.
Proof.
  revert c w. induction ops as [|op ops IH]; intros c w Hc; [done|].
  rewrite run_cons. pose proof (indexBounded_call c w op Hc) as H1.
  destruct (call split (c, w) op) as [c1 w1]. by apply IH.
Qed.

(** X17.  The history keys never throw: in every console a run of calls
    makes of the constructed one, the Up key and the Down key leave without
    an exception; the [at] that reads the history is given the index of an
    entry.  The history fits the [int] that counts it. *)
Theorem history_keys_never_throw w ops glfwKey :
  let st := run split (Console_new, w) ops in
  Z.of_nat (length (m_History st.1)) <= INT_MAX ->
  glfwKey = GLFW_KEY_UP \/ glfwKey = GLFW_KEY_DOWN ->
  (onKeyDown split st.1 st.2 glfwKey).2 = Ok ().
Proof.
  intros st Hlen Hkey.
  assert (Hb : indexBounded st.1).
  { subst st. apply indexBounded_run. unfold indexBounded. simpl. lia. }
  unfold indexBounded in Hb.
  destruct Hkey as [-> | ->].
  - destruct (Z.lt_ge_cases (m_HistoryIndex st.1 + 1)
                (Z.of_nat (length (m_History st.1)))) as [Hlt|Hge].
    + destruct (up_key_step st.1 st.2) as (entry & _ & Hup); [lia|done|done|].
      by rewrite Hup.
    + rewrite up_key_oldest by lia. done.
  - destruct (Z.lt_ge_cases (m_HistoryIndex st.1) 0) as [Hlt|Hge].
    + by rewrite down_key_idle.
    + destruct (down_key_step st.1 st.2) as [[_ Hdown]|(_ & entry & _ & Hdown)];
        [lia|done| |]; by rewrite Hdown.
Qed.

(** ** Typing and erasing *)

Lemma pop_back_app s t :
  t <> "" -> pop_back (s +:+ t) = s +:+ pop_back t.
Proof.
  intros Ht. induction s as [|ch s IH]; [done|].
  simpl. rewrite IH. destruct (s +:+ t) eqn:E; [|done].
  destruct s; simpl in E; [by subst|done].
Qed.

Lemma length_pop_back t :
  String.length (pop_back t) = pred (String.length t).
Proof.
  induction t as [|ch t IH]; [done|].
  simpl. destruct t; [done|]. simpl in *. by rewrite IH.
Qed.

Lemma set_TypedLine_id c : set_TypedLine c (m_TypedLine c) = c.
Proof. by destruct c. Qed.

Lemma set_TypedLine_twice c s t :
  set_TypedLine (set_TypedLine c s) t = set_TypedLine c t.
Proof. done. Qed.

Lemma backspace_key c w :
  onKeyDown split c w GLFW_KEY_BACKSPACE =
    (set_TypedLine c (pop_back (m_TypedLine c)), w, [], Ok ()).
Proof.
  unfold onKeyDown. simpl.
  destruct (Z.leb_spec 1 (size (m_TypedLine c))); [done|].
  assert (Hempty : m_TypedLine c = "")
    by (apply size_0; pose proof (size_nonneg (m_TypedLine c)); lia).
  rewrite Hempty. simpl pop_back. rewrite <- Hempty. by rewrite set_TypedLine_id.
Qed.

Lemma backspaces_text c w s t :
  run split (set_TypedLine c (s +:+ t), w)
    (replicate (String.length t) (CallKeyDown GLFW_KEY_BACKSPACE)) =
  (set_TypedLine c s, w).
Proof.
  remember (String.length t) as n eqn:Hn. revert t Hn.
  induction n as [|n IH]; intros t Hn.
  - destruct t; [|done]. by rewrite app_empty_r.
  - cbn [replicate]. rewrite run_cons, (call_key _ _ _ _ (backspace_key _ w)).
    simpl m_TypedLine. rewrite set_TypedLine_twice, pop_back_app by (by destruct t).
    apply IH. rewrite length_pop_back. lia.
Qed.

(** X18.  The Backspace key undoes typing: after a text was typed, as many
    presses of the Backspace key as the text has characters give back the
    console there was before; and pressed at least as often as the typed
    line has characters, the key leaves the typed line empty, where further
    presses change nothing. *)
Theorem backspace_erases_typed_text c w :
  (forall text,
     run split (c, w)
       (CallTextInput text
        :: replicate (String.length text) (CallKeyDown GLFW_KEY_BACKSPACE)) =
     (c, w)) /\
  (forall n,
     (String.length (m_TypedLine c) <= n)%nat ->
     run split (c, w) (replicate n (CallKeyDown GLFW_KEY_BACKSPACE)) =
     (set_TypedLine c "", w)).
Proof.
  split.
  - intros text. rewrite run_cons. simpl call. unfold onTextInput.
    rewrite backspaces_text. by rewrite set_TypedLine_id.
  - intros n Hn.
    replace n with (String.length (m_TypedLine c)
                    + (n - String.length (m_TypedLine c)))%nat by lia.
    rewrite replicate_add, run_app.
    rewrite <- (set_TypedLine_id c) at 1.
    change (m_TypedLine c) with ("" +:+ m_TypedLine c) at 1.
    rewrite backspaces_text.
    generalize (n - String.length (m_TypedLine c))%nat as m.
    induction m as [|m IH]; [done|].
    cbn [replicate]. rewrite run_cons, (call_key _ _ _ _ (backspace_key _ w)).
    exact IH.
Qed.

(** ** Completion of a blank line *)

Lemma istream_tokens_blank input :
  onlyWhitespace input = true -> istream_tokens input "" = [].
Proof.
  induction input as [|ch input IH]; [done|]. simpl.
  destruct (isspace ch); [exact IH|done].
Qed.

(** X19.  On a line that holds nothing but whitespace, the empty line
    included, [autoComplete] does nothing, whatever the flags and the
    registry: the line stays as it is and nothing is logged; the Tab key
    leaves such a console as it found it. *)
Theorem autoComplete_blank_line w commands input limitToFixed showSuggestions
    overwriteInput :
  onlyWhitespace input = true ->
  autoComplete w commands input limitToFixed showSuggestions overwriteInput =
    Ok (input, []) /\
  forall c, m_TypedLine c = input ->
    onKeyDown split c w GLFW_KEY_TAB = (c, w, [], Ok ()).
Proof.
  intros Hblank.
  assert (Hauto : forall commands limitToFixed showSuggestions overwriteInput,
            autoComplete w commands input limitToFixed showSuggestions
              overwriteInput = Ok (input, [])).
  { intros. unfold autoComplete. by rewrite istream_tokens_blank. }
  split; [apply Hauto|].
  intros c Hc. unfold onKeyDown. simpl. rewrite Hc, Hauto.
  rewrite <- Hc. by rewrite set_TypedLine_id.
Qed.

(** ** Suggestions *)

Lemma tokenStep_suggestions w commands limitToFixed tokenID token alive newTokens :
  tokenStep w commands limitToFixed false tokenID token alive newTokens =
    match tokenStep w commands limitToFixed true tokenID token alive newTokens with
    | Ok (alive', newTokens', _) => Ok (alive', newTokens', [])
    | Throw e => Throw e
    end.
Proof.
  destruct (evaluatedCommands w limitToFixed tokenID commands 0 alive)
    as [evaluated|e] eqn:Hev.
  - destruct (tokenStep_spec w commands limitToFixed true tokenID token alive
                newTokens evaluated Hev) as (logged & ->).
    unfold tokenStep. rewrite commandLoop_spec. simpl. rewrite Hev. simpl.
    by destruct (selectBucket _ _ tokenID (markDead evaluated alive) newTokens).
  - unfold tokenStep. rewrite commandLoop_spec. simpl. by rewrite Hev.
Qed.

Lemma tokenLoop_suggestions w commands limitToFixed tokens tokenID alive newTokens :
  tokenLoop w commands limitToFixed false tokens tokenID alive newTokens =
    match tokenLoop w commands limitToFixed true tokens tokenID alive newTokens with
    | Ok (newTokens', _) => Ok (newTokens', [])
    | Throw e => Throw e
    end.
Proof.
  revert tokenID alive newTokens.
  induction tokens as [|token rest IH]; intros tokenID alive newTokens; [done|].
  cbn [tokenLoop]. rewrite tokenStep_suggestions.
  destruct (tokenStep w commands limitToFixed true tokenID token alive newTokens)
    as [[[alive' newTokens'] logged]|e]; [|done].
  simpl. rewrite IH.
  by destruct (tokenLoop w commands limitToFixed true rest (S tokenID) alive'
                 newTokens') as [[newTokens'' logged']|e].
Qed.

(** X20.  Showing suggestions changes what is logged and nothing else: with
    [showSuggestions] off, [autoComplete] leaves the line it leaves with
    [showSuggestions] on, logs nothing, and throws when and what the other
    call throws. *)
Theorem autoComplete_suggestions_only_log w commands input limitToFixed
    overwriteInput :
  autoComplete w commands input limitToFixed false overwriteInput =
    match autoComplete w commands input limitToFixed true overwriteInput with
    | Ok (line, _) => Ok (line, [])
    | Throw e => Throw e
    end.
Proof.
  unfold autoComplete.
  destruct (istream_tokens input "") as [|token tokens]; [done|].
  rewrite tokenLoop_suggestions.
  destruct (tokenLoop w commands limitToFixed true _ _ _ _)
    as [[newTokens logged]|e]; [|done].
  simpl. destruct overwriteInput; [|done].
  by destruct (back input).
Qed.

(** ** Completion when nothing matches *)

Lemma evaluatedCommands_none w limitToFixed tokenID commands cmdID alive :
  (forall i command, commands !! i = Some command ->
     exists b, alive !! (cmdID + i)%nat = Some b /\
               (b = false \/ (cmdEnd limitToFixed command <= tokenID)%nat)) ->
  evaluatedCommands w limitToFixed tokenID commands cmdID alive = Ok [].
Proof.
  revert cmdID. induction commands as [|command rest IH]; intros cmdID H; [done|].
  cbn [evaluatedCommands]. unfold subscript.
  destruct (H 0%nat command eq_refl) as (b & Hb & Hdead).
  rewrite Nat.add_0_r in Hb. rewrite Hb. simpl.
  assert (Hrest : evaluatedCommands w limitToFixed tokenID rest (S cmdID) alive = Ok []).
  { apply IH. intros i other Hi. destruct (H (S i) other Hi) as (b' & Hb' & Hd').
    exists b'. split; [|done]. rewrite <- Hb'. f_equal. lia. }
  destruct Hdead as [->|Hend]; simpl; [done|].
  destruct (Nat.ltb_spec tokenID (cmdEnd limitToFixed command)); [lia|].
  by rewrite andb_false_r.
Qed.

Lemma markDead_false evaluated (alive : list bool) i :
  alive !! i = Some false -> markDead evaluated alive !! i = Some false.
Proof.
  unfold markDead. revert alive.
  induction evaluated as [|called rest IH]; intros alive Hi; [done|].
  cbn [foldl]. apply IH.
  destruct (decide (called.1 = i)) as [->|Hne].
  - apply list_lookup_insert_eq. by eapply lookup_lt_Some.
  - by rewrite list_lookup_insert_ne.
Qed.

Lemma markDead_called evaluated (alive : list bool) i :
  In i (map fst evaluated) -> (i < length alive)%nat ->
  markDead evaluated alive !! i = Some false.
Proof.
  revert alive. induction evaluated as [|called rest IH]; intros alive Hin Hlen;
    [done|].
  change (markDead (called :: rest) alive)
    with (markDead rest (<[called.1 := false]> alive)).
  destruct (decide (called.1 = i)) as [->|Hne].
  - apply markDead_false. by apply list_lookup_insert_eq.
  - apply IH; [|by rewrite length_insert].
    destruct Hin as [Heq|Hin]; [done|exact Hin].
Qed.

Lemma evaluatedCommands_called w limitToFixed tokenID commands cmdID alive
    evaluated i command :
  evaluatedCommands w limitToFixed tokenID commands cmdID alive = Ok evaluated ->
  commands !! i = Some command ->
  alive !! (cmdID + i)%nat = Some true ->
  (tokenID < cmdEnd limitToFixed command)%nat ->
  In (cmdID + i)%nat (map fst evaluated).
Proof.
  revert cmdID evaluated i. induction commands as [|first rest IH];
    intros cmdID evaluated i Hev Hi Halive Hend; [done|].
  cbn [evaluatedCommands] in Hev.
  destruct i as [|i]; simpl in Hi.
  - simplify_eq. rewrite Nat.add_0_r in *.
    assert (Hsub : subscript alive cmdID = Ok true)
      by (unfold subscript; by rewrite Halive).
    rewrite Hsub in Hev. simpl in Hev.
    destruct (Nat.ltb_spec tokenID (cmdEnd limitToFixed command)); [|lia].
    destruct (subscript (generators command) tokenID) as [generator|e];
      simpl in Hev; [|done].
    destruct (evaluatedCommands w limitToFixed tokenID rest (S cmdID) alive);
      simpl in Hev; [|done].
    simplify_eq. by left.
  - replace (cmdID + S i)%nat with (S cmdID + i)%nat in * by lia.
    destruct (subscript alive cmdID) as [isAlive|]; simpl in Hev; [|done].
    destruct (isAlive && (tokenID <? cmdEnd limitToFixed first)%nat)%bool.
    + destruct (subscript (generators first) tokenID) as [generator|e];
        simpl in Hev; [|done].
      destruct (evaluatedCommands w limitToFixed tokenID rest (S cmdID) alive)
        as [others|e] eqn:Eo; simpl in Hev; [|done].
      simplify_eq. right. by eapply IH.
    + by eapply IH.
Qed.

Lemma evaluatedCommands_generator_at w limitToFixed tokenID commands cmdID alive
    evaluated called :
  evaluatedCommands w limitToFixed tokenID commands cmdID alive = Ok evaluated ->
  In called evaluated ->
  exists command generator,
    In command commands /\ generators command !! tokenID = Some generator /\
    called.2 = generator w.
Proof.
  revert cmdID evaluated. induction commands as [|first rest IH];
    intros cmdID evaluated Hev Hin.
  - simpl in Hev. by simplify_eq.
  - cbn [evaluatedCommands] in Hev.
    destruct (subscript alive cmdID) as [isAlive|]; simpl in Hev; [|done].
    assert (Hrest : forall others,
              evaluatedCommands w limitToFixed tokenID rest (S cmdID) alive =
                Ok others ->
              In called others ->
              exists command generator,
                In command (first :: rest) /\
                generators command !! tokenID = Some generator /\
                called.2 = generator w).
    { intros others Ho Hc. destruct (IH _ _ Ho Hc) as (command & generator & ? & ? & ?).
      exists command, generator. split; [by right|done]. }
    destruct (isAlive && (tokenID <? cmdEnd limitToFixed first)%nat)%bool.
    + unfold subscript in Hev.
      destruct (generators first !! tokenID) as [generator|] eqn:Egen;
        simpl in Hev; [|done].
      destruct (evaluatedCommands w limitToFixed tokenID rest (S cmdID) alive)
        as [others|e] eqn:Eo; simpl in Hev; [|done].
      simplify_eq. destruct Hin as [<-|Hin].
      * exists first, generator. split; [by left|done].
      * by eapply Hrest.
    + by eapply Hrest.
Qed.

Lemma filter_nil_all {A} (keep : A -> bool) (l : list A) :
  (forall x, In x l -> keep x = false) -> List.filter keep l = [].
Proof.
  induction l as [|x l IH]; intros H; [done|]. simpl.
  rewrite (H x) by (by left). apply IH. intros y Hy. apply H. by right.
Qed.

Lemma tokenLoop_none_left w commands limitToFixed showSuggestions tokens tokenID
    alive newTokens :
  (forall i command, commands !! i = Some command ->
     alive !! i = Some false \/
     (exists b, alive !! i = Some b) /\ cmdEnd limitToFixed command = 0%nat) ->
  exists logged,
    tokenLoop w commands limitToFixed showSuggestions tokens tokenID alive
      newTokens = Ok (newTokens, logged).
Proof.
  intros Hleft. revert tokenID.
  induction tokens as [|token rest IH]; intros tokenID; [by eexists|].
  cbn [tokenLoop].
  assert (Hev : evaluatedCommands w limitToFixed tokenID commands 0 alive = Ok []).
  { apply evaluatedCommands_none. intros i command Hi. simpl.
    destruct (Hleft i command Hi) as [Hdead|[[b Hb] Hend]].
    - exists false. split; [done|by left].
    - exists b. split; [done|]. right. lia. }
  destruct (tokenStep_spec w commands limitToFixed showSuggestions tokenID token
              alive newTokens [] Hev) as (logged & ->).
  simpl. destruct (IH (S tokenID)) as (logged' & ->). simpl. by eexists.
Qed.

Lemma tokenConCat_plain tokens inputEndsInSpace :
  tokens <> [] ->
  tokenConCat (map (fun token => (token, false)) tokens) inputEndsInSpace =
  String.concat " " tokens +:+ (if inputEndsInSpace then " " else "").
Proof.
  induction tokens as [|token rest IH]; [done|]. intros _.
  destruct rest as [|next rest].
  - simpl. rewrite orb_false_r. by rewrite app_empty_r.
  - change (tokenConCat (map (fun token => (token, false)) (token :: next :: rest))
              inputEndsInSpace)
      with (token +:+ " " +:+
            tokenConCat (map (fun token => (token, false)) (next :: rest))
              inputEndsInSpace).
    rewrite IH by done.
    change (String.concat " " (token :: next :: rest))
      with (token +:+ " " +:+ String.concat " " (next :: rest)).
    by rewrite !app_assoc_string.
Qed.

(** X21.  When no alias offered for the first token holds that token, not
    even in its middle and whatever the case of the letters, [autoComplete]
    completes nothing: every command is dead after the first token, no
    later token is looked at, and the line is written back as its tokens
    separated by one space each, followed by a space when the input ended
    in whitespace.  Only generators that exist are asked for. *)
Theorem autoComplete_no_match w commands input token rest limitToFixed
    showSuggestions :
  limitToFixed = false \/ Forall arity_ok commands ->
  istream_tokens input "" = token :: rest ->
  (forall command generator group alias,
     In command commands -> generators command !! 0%nat = Some generator ->
     In group (generator w) -> In alias group ->
     find (lower alias) (lower token) = npos) ->
  exists last logged,
    back input = Ok last /\
    autoComplete w commands input limitToFixed showSuggestions true =
      Ok (String.concat " " (token :: rest)
          +:+ (if isspace last then " " else ""), logged).
Proof.
  intros Har Htokens Hnone.
  destruct (back_ok input) as (last & Hlast).
  { apply istream_tokens_nonempty. by rewrite Htokens. }
  exists last. unfold autoComplete. rewrite Htokens, Hlast.
  cbn [map tokenLoop].
  set (alive := replicate (length commands) true).
  remember ((token, false) :: map (fun token => (token, false)) rest)
    as newTokens eqn:Hnew.
  destruct (evaluatedCommands_ok w limitToFixed 0 commands 0 alive)
    as (evaluated & Hev); [by subst alive; rewrite length_replicate|done|].
  destruct (tokenStep_spec w commands limitToFixed showSuggestions 0
              (lower token) alive newTokens evaluated Hev) as (logged & ->).
  assert (Hpos : forall best,
            In best (bestMatches (lower token) (evaluatedGroups evaluated)) ->
            pos best = npos).
  { intros best Hbest.
    apply bestMatches_In in Hbest as (ref & alias & Href & _ & Halias & ->).
    apply evaluatedGroups_In in Href as (returned & Hcalled & Hgroup).
    destruct (evaluatedCommands_generator_at _ _ _ _ _ _ _ _ Hev Hcalled)
      as (command & generator & Hcommand & Hgen & Hret).
    simpl in Hret. subst returned. simpl.
    apply (Hnone command generator ref.2 alias); try done.
    apply list_elem_of_In, list_elem_of_lookup. eauto. }
  rewrite !filter_nil_all.
  2: { intros best Hbest. unfold isInMiddle. rewrite (Hpos best Hbest).
       by rewrite andb_false_r. }
  2: { intros best Hbest. unfold isStartsWith. by rewrite (Hpos best Hbest). }
  simpl.
  destruct (tokenLoop_none_left w commands limitToFixed showSuggestions
              (map lower rest) 1 (markDead evaluated alive) newTokens)
    as (logged' & ->).
  { intros i command Hi.
    assert (Hlt : (i < length alive)%nat).
    { subst alive. rewrite length_replicate. by eapply lookup_lt_Some. }
    destruct (cmdEnd limitToFixed command) as [|n] eqn:Eend.
    - right. split; [|done].
      destruct (markDead evaluated alive !! i) as [b|] eqn:E; [by exists b|].
      apply lookup_ge_None in E. rewrite markDead_length in E. lia.
    - left. apply markDead_called; [|done].
      apply (evaluatedCommands_called _ _ _ _ 0 _ _ i command Hev Hi); [|lia].
      subst alive. simpl. apply lookup_replicate_2.
      by eapply lookup_lt_Some. }
  simpl. exists (logged ++ logged'). split; [done|].
  subst newTokens.
  change ((token, false) :: map (fun token => (token, false)) rest)
    with (map (fun token => (token, false)) (token :: rest)).
  by rewrite tokenConCat_plain.
Qed.

(** ** Completion to the one candidate *)

Lemma commonStartLength_refl a : commonStartLength a a = size a.
Proof.
  induction a as [|ch a IH]; [done|].
  cbn [commonStartLength]. rewrite Ascii.eqb_refl, IH. unfold size. simpl. lia.
Qed.

Lemma bucketLoop_same reference matchInfos alive :
  Forall (fun matchInfo => candidateLowered matchInfo = reference) matchInfos ->
  bucketLoop reference matchInfos alive (size reference) (size reference) =
    (foldl (fun alive matchInfo => <[commandID matchInfo := true]> alive)
       alive matchInfos,
     size reference, size reference).
Proof.
  intros H. revert alive. induction H as [|matchInfo rest Hm Hrest IH];
    intros alive; [done|].
  cbn [bucketLoop foldl]. rewrite Hm, commonStartLength_refl.
  rewrite Z.min_id, Z.max_id. apply IH.
Qed.

Lemma isPrefix_nonempty t s : isPrefix t s = true -> t <> "" -> s <> "".
Proof. destruct t, s; done. Qed.

Lemma lower_nonempty s : s <> "" -> lower s <> "".
Proof. by destruct s. Qed.

(** X22.  A token that one candidate only starts with is completed to that
    candidate: when the line holds a single token and every alias group
    whose best candidate starts with it offers the same candidate, up to
    the case of the letters, [autoComplete] replaces the token by the
    candidate of the first such group, as that group spells it, and puts a
    space after it. *)
Theorem autoComplete_single_candidate w commands input token limitToFixed
    showSuggestions st best others :
  istream_tokens input "" = [token] ->
  commandLoop w limitToFixed (lower token) 0 commands 0
    (mkCollected (replicate (length commands) true) [] []
       (replicate (length commands) [])) = Ok st ->
  startsWith st = best :: others ->
  Forall (fun matchInfo => candidateLowered matchInfo = candidateLowered best)
    others ->
  exists logged,
    autoComplete w commands input limitToFixed showSuggestions true =
      Ok (candidate best +:+ " ", logged).
Proof.
  intros Htokens Hloop Hbucket Hsame.
  destruct (back_ok input) as (last & Hlast).
  { apply istream_tokens_nonempty. by rewrite Htokens. }
  assert (Htoken : token <> "").
  { pose proof (istream_tokens_clean input "" eq_refl) as Hclean.
    rewrite Htokens in Hclean. by apply Forall_cons in Hclean as [[? _] _]. }
  destruct (commandLoop_collected _ _ _ _ _ _ _ Hloop)
    as (evaluated & Hev & _ & Hsw & _).
  rewrite Hbucket in Hsw.
  assert (Hin : In best (List.filter isStartsWith
                           (bestMatches (lower token) (evaluatedGroups evaluated))))
    by (rewrite <- Hsw; by left).
  pose proof (prefixBucket_prefix _ _ _ Hin) as Hprefix.
  apply filter_In in Hin as [Hin _].
  destruct (bestMatches_fields _ _ _ Hin) as [Hlow _].
  assert (Hsize : 0 < size (candidateLowered best)).
  { pose proof (size_nonneg (candidateLowered best)).
    destruct (decide (size (candidateLowered best) = 0)) as [Hz|]; [|lia].
    apply size_0 in Hz.
    by destruct (isPrefix_nonempty _ _ Hprefix (lower_nonempty _ Htoken)). }
  unfold autoComplete. rewrite Htokens, Hlast. cbn [map tokenLoop].
  destruct (tokenStep_spec w commands limitToFixed showSuggestions 0
              (lower token) (replicate (length commands) true)
              [(token, false)] evaluated Hev) as (logged & ->).
  rewrite <- Hsw. cbn [selectBucket]. unfold processBucket.
  rewrite bucketLoop_same by (constructor; done).
  destruct (Z.eqb_spec (size (candidateLowered best)) 0); [lia|].
  cbn [negb]. rewrite !Hlow, !size_lower, !substr0_full, Z.eqb_refl.
  simpl. exists (logged ++ []). by rewrite orb_true_r.
Qed.

(** ** Drawing *)

Lemma printOutput_from_lines height output i :
  0 <= i <= height ->
  printOutput_from height output i =
    imap (fun k s =>
            mkDbgText 0 (uint16_cast (GLOBAL_Y + height - (i + Z.of_nat k))) 15
              "| %s" (c_str s))
      (take (Z.to_nat (height - i)) output).
Proof.
  revert i. induction output as [|s rest IH]; intros i Hi.
  - by rewrite take_nil.
  - cbn [printOutput_from]. destruct (Z.eqb_spec i height) as [->|Hne].
    + by rewrite Z.sub_diag.
    + replace (Z.to_nat (height - i)) with (S (Z.to_nat (height - (i + 1))))
        by lia.
      cbn [take]. rewrite imap_cons, IH by lia.
      f_equal; [do 2 f_equal; lia|].
      apply imap_ext. intros k x _. simpl. do 2 f_equal. lia.
Qed.

(** X23.  [printOutput] draws the newest lines of the output and no more
    of them than the height: the newest one on row [GLOBAL_Y + height],
    each older one a row above the one before, all in column 0.  The height
    is not negative and the rows fit a [uint16_t]. *)
Theorem printOutput_newest_lines c :
  0 <= m_Config_height c ->
  GLOBAL_Y + m_Config_height c < 2 ^ 16 ->
  printOutput c =
    imap (fun k s =>
            mkDbgText 0 (GLOBAL_Y + m_Config_height c - Z.of_nat k) 15
              "| %s" (c_str s))
      (take (Z.to_nat (m_Config_height c)) (m_Output c)).
Proof.
  intros Hpos Hfit. unfold printOutput.
  rewrite printOutput_from_lines by lia. rewrite Z.sub_0_r.
  apply imap_ext. intros k x Hk. f_equal.
  apply lookup_lt_Some in Hk. rewrite length_take in Hk.
  unfold uint16_cast, GLOBAL_Y in *. rewrite Z.mod_small; lia.
Qed.

Lemma run_height c w ops :
  m_Config_height (run split (c, w) ops).1 = m_Config_height c.
Proof.
  revert c w. induction ops as [|op ops IH]; intros c w; [done|].
  rewrite run_cons.
  destruct (call_grown c w op) as (_ & _ & _ & _ & _ & H1).
  destruct (call split (c, w) op) as [c1 w1]. rewrite IH. exact H1.
Qed.

(** X24.  What [update] draws of a console a run of calls made of the
    constructed one: the typed line after a prompt on row 36, and the ten
    newest lines of the output, or all when there are fewer, on the rows
    above it, the newest on row 35 and the oldest no higher than row 26. *)
Theorem update_layout w ops :
  let c := (run split (Console_new, w) ops).1 in
  update c =
    mkDbgText 0 36 79 "> %s" (c_str (m_TypedLine c))
    :: imap (fun k s => mkDbgText 0 (35 - Z.of_nat k) 15 "| %s" (c_str s))
         (take 10 (m_Output c)).
Proof.
  intros c. unfold update, printOutput.
  assert (Hheight : m_Config_height c = 10) by (subst c; apply run_height).
  rewrite Hheight. f_equal.
  rewrite printOutput_from_lines by lia.
  apply imap_ext. intros k x Hk. f_equal.
  apply lookup_lt_Some in Hk. rewrite length_take in Hk.
  unfold uint16_cast, GLOBAL_Y. rewrite Z.mod_small; lia.
Qed.

(** ** Completion to the common prefix *)

Lemma substring_prefix k s : isPrefix (String.substring 0 k s) s = true.
Proof.
  revert k. induction s as [|ch s IH]; intros k; [by destruct k|].
  destruct k as [|k]; [done|]. simpl. by rewrite Ascii.eqb_refl, IH.
Qed.

Lemma lower_substring k s :
  lower (String.substring 0 k s) = String.substring 0 k (lower s).
Proof.
  revert k. induction s as [|ch s IH]; intros k; [by destruct k|].
  destruct k as [|k]; [done|]. simpl. by rewrite IH.
Qed.

Lemma commonStartLength_shared a b k :
  Z.of_nat k <= commonStartLength a b ->
  isPrefix (String.substring 0 k a) b = true.
Proof.
  revert b k. induction a as [|x a IH]; intros b k Hk; [by destruct k|].
  destruct k as [|k]; [done|].
  destruct b as [|y b]; cbn [commonStartLength] in Hk; [lia|].
  simpl. destruct (Ascii.eqb x y); [|lia]. simpl. apply IH. lia.
Qed.

Lemma commonStartLength_prefix a b k :
  (k <= String.length a)%nat ->
  isPrefix (String.substring 0 k a) b = true ->
  Z.of_nat k <= commonStartLength a b.
Proof.
  revert b k. induction a as [|x a IH]; intros b k Hk Hp.
  - simpl in Hk. assert (k = 0%nat) as -> by lia.
    pose proof (commonStartLength_nonneg "" b). lia.
  - destruct k as [|k].
    + pose proof (commonStartLength_nonneg (String x a) b). lia.
    + destruct b as [|y b]; simpl in Hp; [done|].
      cbn [commonStartLength]. destruct (Ascii.eqb x y); [|done].
      simpl in Hp, Hk. specialize (IH b k ltac:(lia) Hp). lia.
Qed.

(** X25.  A token that candidates start with is completed to what they
    share.  When the prefix bucket is not empty after the command loop for
    a token, the token written is the beginning of the candidate of the
    first alias group in the bucket, spelled as that group spells it; every
    candidate in the bucket starts with it, up to the case of the letters;
    no longer beginning of the first candidate is one that all of them
    start with; and a space is to follow exactly when all candidates in the
    bucket are that token, up to the case of the letters. *)
Theorem prefix_completion_common_prefix w commands limitToFixed showSuggestions
    tokenID token alive newTokens st front others :
  commandLoop w limitToFixed token tokenID commands 0
    (mkCollected alive [] [] (replicate (length commands) [])) = Ok st ->
  startsWith st = front :: others ->
  token <> "" ->
  exists alive' logged tokenNew noLongerMatch,
    tokenStep w commands limitToFixed showSuggestions tokenID token alive
      newTokens =
      Ok (alive', <[tokenID := (tokenNew, noLongerMatch)]> newTokens, logged) /\
    isPrefix tokenNew (candidate front) = true /\
    Forall (fun matchInfo =>
              isPrefix (lower tokenNew) (candidateLowered matchInfo) = true)
      (startsWith st) /\
    (forall n, 0 <= n <= size (candidate front) ->
       Forall (fun matchInfo =>
                 isPrefix (substr0 (candidateLowered front) n)
                   (candidateLowered matchInfo) = true)
         (startsWith st) ->
       n <= size tokenNew) /\
    (noLongerMatch = true <->
     Forall (fun matchInfo => candidateLowered matchInfo = lower tokenNew)
       (startsWith st)).
Proof.
  intros Hloop Hbucket Htoken.
  destruct (commandLoop_collected _ _ _ _ _ _ _ Hloop)
    as (evaluated & Hev & _ & Hsw & _).
  destruct (tokenStep_spec w commands limitToFixed showSuggestions tokenID token
              alive newTokens evaluated Hev) as (logged & Hstep).
  rewrite <- Hsw, Hbucket in Hstep. cbn [selectBucket] in Hstep.
  assert (Hall : Forall (fun matchInfo =>
            isPrefix token (candidateLowered matchInfo) = true /\
            candidateLowered matchInfo = lower (candidate matchInfo))
            (front :: others)).
  { rewrite <- Hbucket, Hsw. apply List.Forall_forall. intros matchInfo Hm.
    split; [by eapply prefixBucket_prefix|].
    apply filter_In in Hm as [Hm _]. by destruct (bestMatches_fields _ _ _ Hm). }
  pose proof Hall as [[Hfront Hlow] _]%Forall_cons.
  rewrite Hbucket. clear Hloop Hbucket Hsw Hev.
  set (bucket := front :: others) in *.
  set (ref := candidateLowered front) in *.
  unfold processBucket in Hstep. fold ref in Hstep.
  pose proof (bucketLoop_each ref bucket (markDead evaluated alive)
                (size ref) (size ref)) as [Hlongest Heach].
  pose proof (bucketLoop_commonLength_le ref bucket (markDead evaluated alive)
                (size ref) (size ref)) as Hle.
  pose proof (bucketLoop_commonLength_ge ref bucket (markDead evaluated alive)
                (size ref) (size ref)) as Hge.
  destruct (bucketLoop ref bucket (markDead evaluated alive) (size ref) (size ref))
    as [[alive' commonLength] longest] eqn:Eloop.
  simpl in Hlongest, Heach, Hle, Hge.
  assert (Hcand : size (candidate front) = size ref).
  { subst ref. by rewrite Hlow, size_lower. }
  assert (Hpos : 0 < size token).
  { pose proof (size_nonneg token).
    destruct (decide (size token = 0)) as [Hz|]; [|lia].
    by apply size_0 in Hz. }
  assert (Hcommon : size token <= commonLength).
  { apply Hge; [by apply prefix_size|].
    eapply Forall_impl; [exact Hall|]. simpl. intros matchInfo [Hm _].
    by apply prefix_commonStartLength. }
  destruct (Z.eqb_spec commonLength 0) as [Hz|_]; [lia|]. cbn [negb] in Hstep.
  set (tokenNew := substr0 (candidate front) commonLength) in *.
  assert (Hsize : size tokenNew = commonLength).
  { subst tokenNew. rewrite size_substr0 by lia. lia. }
  assert (Hlower : lower tokenNew = substr0 ref commonLength).
  { subst tokenNew ref. unfold substr0. by rewrite lower_substring, <- Hlow. }
  assert (Hshared : Forall (fun matchInfo =>
            isPrefix (lower tokenNew) (candidateLowered matchInfo) = true) bucket).
  { eapply Forall_impl; [exact Heach|]. simpl. intros matchInfo [Hm _].
    rewrite Hlower. unfold substr0. apply commonStartLength_shared. lia. }
  exists alive', logged, tokenNew, (longest =? size tokenNew).
  split; [exact Hstep|]. split; [apply substring_prefix|].
  split; [exact Hshared|]. split.
  - intros n Hn Hn_shared. rewrite Hsize. apply Hge; [lia|].
    eapply Forall_impl; [exact Hn_shared|]. simpl. intros matchInfo Hm.
    replace n with (Z.of_nat (Z.to_nat n)) by lia.
    apply commonStartLength_prefix; [|exact Hm].
    unfold size in *. lia.
  - rewrite Hsize. split.
    + intros Heq%Z.eqb_eq. subst longest.
      apply List.Forall_forall. intros matchInfo Hm.
      rewrite List.Forall_forall in Heach, Hshared.
      destruct (Heach matchInfo Hm) as [_ Hs].
      apply prefix_same_size; [by apply Hshared|]. rewrite Hlower.
      rewrite size_substr0 by lia. lia.
    + intros Hsame. apply Z.eqb_eq.
      assert (Href : ref = lower tokenNew).
      { by apply Forall_cons in Hsame as [? _]. }
      assert (Hb : Forall (fun matchInfo => candidateLowered matchInfo = ref) bucket).
      { eapply Forall_impl; [exact Hsame|]. simpl. intros; congruence. }
      rewrite (bucketLoop_same ref bucket _ Hb) in Eloop.
      injection Eloop as _ Hc Hl. lia.
Qed.

(** ** The order of matches *)

(** X26.  [MatchInfo::compare] is a strict weak ordering, which [std::sort]
    requires of the comparison it is given: no match is less than itself,
    less-than is transitive, and so is being neither less nor greater. *)
Theorem MatchInfo_compare_strict_weak_ordering :
  (forall a, MatchInfo_compare a a = false) /\
  (forall a b d,
     MatchInfo_compare a b = true -> MatchInfo_compare b d = true ->
     MatchInfo_compare a d = true) /\
  (forall a b d,
     MatchInfo_compare a b = false /\ MatchInfo_compare b a = false ->
     MatchInfo_compare b d = false /\ MatchInfo_compare d b = false ->
     MatchInfo_compare a d = false /\ MatchInfo_compare d a = false).
Proof.
  split; [|split].
  - intros a. apply MatchInfo_compare_false. lia.
  - intros a b d Hab%MatchInfo_compare_spec Hbd%MatchInfo_compare_spec.
    apply MatchInfo_compare_spec. lia.
  - intros a b d [Hab%MatchInfo_compare_false Hba%MatchInfo_compare_false]
      [Hbd%MatchInfo_compare_false Hdb%MatchInfo_compare_false].
    split; apply MatchInfo_compare_false; lia.
Qed.

(** X27.  The match taken for an alias group that is not empty, the front
    of its sorted matches, is the match of one of its aliases, and no alias
    of the group has a match at an earlier position, nor one at the same
    position with fewer characters that do not match. *)
Theorem group_best_match token cmdID groupID aliasGroup :
  aliasGroup <> [] ->
  exists bestMatch alias,
    at_ (std_sort (map (makeMatchInfo token cmdID groupID) aliasGroup)) 0 =
      Ok bestMatch /\
    In alias aliasGroup /\
    bestMatch = makeMatchInfo token cmdID groupID alias /\
    forall other, In other aliasGroup ->
      pos bestMatch < pos (makeMatchInfo token cmdID groupID other) \/
      (pos bestMatch = pos (makeMatchInfo token cmdID groupID other) /\
       notMatchingCharCount bestMatch <=
       notMatchingCharCount (makeMatchInfo token cmdID groupID other)).
Proof.
  intros Hne.
  destruct (head_std_sort_Some (map (makeMatchInfo token cmdID groupID) aliasGroup))
    as (best & Hbest); [by destruct aliasGroup|].
  assert (Hb : bestMatchOf token (cmdID, groupID, aliasGroup) = Some best)
    by exact Hbest.
  destruct (bestMatchOf_alias _ _ _ Hb) as (alias & Halias & Heq).
  exists best, alias. split; [|split; [done|split; [done|]]].
  - unfold at_. by rewrite <- head_lookup, Hbest.
  - intros other Hother.
    pose proof (bestMatchOf_minimal _ _ _ other Hb Hother) as Hmin.
    apply MatchInfo_compare_false in Hmin. simpl in Hmin. simpl. lia.
Qed.

(** ** When completion is defined *)

(** X28.  The Tab key completes whatever is registered: it calls
    [autoComplete] with [limitToFixed] off, so that only generators that
    exist are asked for; the call returns a line and the key leaves the
    console with that line typed, without an exception. *)
Theorem tab_key_always_completes c w :
  exists line logged,
    autoComplete w (m_Commands2 c) (m_TypedLine c) false true true =
      Ok (line, logged) /\
    onKeyDown split c w GLFW_KEY_TAB = (set_TypedLine c line, w, logged, Ok ()).
Proof.
  assert (Hauto : exists line logged,
            autoComplete w (m_Commands2 c) (m_TypedLine c) false true true =
              Ok (line, logged)).
  { unfold autoComplete.
    destruct (istream_tokens (m_TypedLine c) "") as [|token tokens] eqn:Etokens;
      [by eexists _, _|].
    destruct (tokenLoop_ok w (m_Commands2 c) false true
                (map lower (token :: tokens)) 0
                (replicate (length (m_Commands2 c)) true)
                (map (fun token => (token, false)) (token :: tokens)))
      as (r & ->); [by rewrite length_replicate|by left|].
    destruct (back_ok (m_TypedLine c)) as (last & ->).
    { apply istream_tokens_nonempty. by rewrite Etokens. }
    simpl. by eexists _, _. }
  destruct Hauto as (line & logged & Hauto).
  exists line, logged. split; [done|].
  unfold onKeyDown. simpl. by rewrite Hauto.
Qed.

Lemma evaluatedCommands_undefined w tokenID commands cmdID alive k command :
  commands !! k = Some command ->
  (length (generators command) <= tokenID < numFixTokens command)%nat ->
  (forall j, (j <= k)%nat -> alive !! (cmdID + j)%nat = Some true) ->
  (forall j earlier, (j < k)%nat -> commands !! j = Some earlier ->
     arity_ok earlier) ->
  evaluatedCommands w true tokenID commands cmdID alive =
    Throw undefined_behaviour.
Proof.
  revert cmdID k. induction commands as [|first rest IH];
    intros cmdID k Hk Hgen Halive Hearlier; [done|].
  cbn [evaluatedCommands].
  assert (Hsub : subscript alive cmdID = Ok true).
  { unfold subscript. specialize (Halive 0%nat ltac:(lia)).
    rewrite Nat.add_0_r in Halive. by rewrite Halive. }
  rewrite Hsub. simpl. destruct k as [|k]; simpl in Hk.
  - simplify_eq. destruct (Nat.ltb_spec tokenID (numFixTokens command)); [|lia].
    unfold subscript.
    destruct (generators command !! tokenID) eqn:E; [|done].
    apply lookup_lt_Some in E. unfold CandidateListGenerator in *. lia.
  - assert (Hrest : evaluatedCommands w true tokenID rest (S cmdID) alive =
                    Throw undefined_behaviour).
    { apply (IH (S cmdID) k); [done|done| |].
      - intros j Hj. specialize (Halive (S j) ltac:(lia)).
        rewrite <- Halive. f_equal. lia.
      - intros j earlier Hj Hl. apply (Hearlier (S j)); [lia|done]. }
    rewrite Hrest.
    destruct (Nat.ltb_spec tokenID (numFixTokens first)); [|done].
    specialize (Hearlier 0%nat first ltac:(lia) eq_refl).
    unfold arity_ok in Hearlier. unfold subscript.
    destruct (generators first !! tokenID) eqn:E; [done|].
    apply lookup_ge_None in E. unfold CandidateListGenerator in *. lia.
Qed.

(** X29.  With [limitToFixed] on, a command registered with fixed tokens
    and no generator makes [autoComplete] read [generators[0]] of an empty
    vector on every line that holds a token: the behaviour is undefined,
    whatever the other flags.  The commands before it keep their fixed
    tokens within their generators. *)
Theorem autoComplete_arity_violation w commands input token rest k command
    showSuggestions overwriteInput :
  istream_tokens input "" = token :: rest ->
  commands !! k = Some command ->
  generators command = [] ->
  (0 < numFixTokens command)%nat ->
  (forall j earlier, (j < k)%nat -> commands !! j = Some earlier ->
     arity_ok earlier) ->
  autoComplete w commands input true showSuggestions overwriteInput =
    Throw undefined_behaviour.
Proof.
  intros Htokens Hk Hgen Hfix Hearlier.
  unfold autoComplete. rewrite Htokens. cbn [map tokenLoop].
  unfold tokenStep. rewrite commandLoop_spec. simpl.
  rewrite (evaluatedCommands_undefined w 0 commands 0 _ k command); try done.
  - rewrite Hgen. simpl. lia.
  - intros j Hj. simpl. apply lookup_replicate_2.
    apply lookup_lt_Some in Hk. lia.
Qed.

End ConsoleFacts.

(** * Instances and counterexamples *)

Lemma determineCommand_first_match_witness :
  exists calls,
    determineCommand tt [loadCommand; saveCommand] ["save"; "x"] =
      (calls, Ok (Z.of_nat 1)) /\
    Forall (fun call : GeneratorCall => (call.1 <= 1)%nat) calls.
Proof.
  apply (determineCommand_first_match tt [loadCommand; saveCommand]
           ["save"; "x"] 1 saveCommand).
  - reflexivity.
  - intros i Hi. assert (i = 0%nat) as -> by (simpl in Hi; lia).
    exists (constGenerator [["save"]]), "save", ["save"].
    simpl. auto.
  - intros j earlier Hj Hl. assert (j = 0%nat) as -> by lia.
    simpl in Hl. injection Hl as <-. split.
    + unfold arity_ok. simpl. lia.
    + intros Hm. destruct (Hm 0%nat) as (gen & tok & grp & Hg & Ht & Hgr & Hin).
      { simpl. lia. }
      simpl in Hg, Ht. injection Hg as <-. injection Ht as <-.
      simpl in Hgr. destruct Hgr as [<-|[]].
      simpl in Hin. destruct Hin as [H|[H|[]]]; discriminate H.
  - vm_compute. discriminate.
Defined.

(** C1, as stated, fails when a command registered before the matching one
    asks for more fixed tokens than it has generators: the tokens of
    "save x" match the fixed token of the second command and not those of
    the first, yet the loop over the first command's fixed tokens asks for a
    second generator, [at] throws [std::out_of_range] and no index is
    returned. *)
Lemma determineCommand_earlier_arity_violation :
  [brokenCommand; saveCommand] !! 1%nat = Some saveCommand /\
  fixedTokensMatch tt saveCommand ["save"; "x"] /\
  ~ fixedTokensMatch tt brokenCommand ["save"; "x"] /\
  determineCommand tt [brokenCommand; saveCommand] ["save"; "x"] =
    ([(0%nat, 0%nat)], Throw std_out_of_range).
Proof.
  split; [reflexivity|]. split; [|split; [|reflexivity]].
  - intros i Hi. assert (i = 0%nat) as -> by (simpl in Hi; lia).
    exists (constGenerator [["save"]]), "save", ["save"].
    simpl. auto.
  - intros Hm. destruct (Hm 0%nat) as (gen & tok & grp & Hg & Ht & Hgr & Hin).
    { simpl. lia. }
    simpl in Hg, Ht. injection Hg as <-. injection Ht as <-.
    simpl in Hgr. destruct Hgr as [<-|[]].
    simpl in Hin. destruct Hin as [H|[]]; discriminate H.
Qed.

(** C3, as stated, fails: with a command without fixed tokens registered,
    the empty token sequence resolves to that command. *)
Lemma determineCommand_empty_tokens_found :
  (determineCommand tt [anyCommand] []).2 = Ok 0 /\
  (determineCommand tt [anyCommand] []).2 <> Ok (-1).
Proof. split; [reflexivity|discriminate]. Qed.

Lemma history_invariant_witness :
  let st := run exampleSplit (Console_new, tt)
              (map CallSubmitCommand ["foo"; "foo"; "   "; ""]) in
  Forall (fun entry => onlySpaces entry = false) (m_History st.1) /\
  noRepeat (m_History st.1) /\
  (forall line,
     onlySpaces line = true ->
     m_History (submitCommand exampleSplit st.1 st.2 line).1.1 = m_History st.1) /\
  (forall line,
     last (m_History st.1) = Some line ->
     m_History (submitCommand exampleSplit st.1 st.2 line).1.1 = m_History st.1).
Proof.
  apply (history_invariant exampleSplit tt ["foo"; "foo"; "   "; ""]).
  repeat constructor; vm_compute; reflexivity.
Defined.

(** C7, as stated, fails: a line that holds a tab and nothing else is
    whitespace only, and it is stored. *)
Lemma history_stores_tab_line :
  onlyWhitespace tabLine = true /\
  m_History (submitCommand exampleSplit Console_new tt tabLine).1.1 = [tabLine].
Proof. split; reflexivity. Qed.

Lemma legacy_fallback_selects_witness :
  legacyBestMatch (m_Commands prefixConsole) "load game now" = Z.of_nat 1 /\
  submitCommand exampleSplit prefixConsole tt "load game now" =
    dispatch (at_ (m_CommandCallbacks prefixConsole) 1)
      (exampleSplit "load game now" " ")
      (outputAdd
         (set_PendingLine
            (set_HistoryIndex
               (set_History prefixConsole
                  (historyPush (m_History prefixConsole) "load game now"))
               (-1)) "")
         (" >> " +:+ "load game now")) tt.
Proof.
  apply (legacy_fallback_selects exampleSplit prefixConsole tt
           "load game now" 1 "load game").
  - discriminate.
  - reflexivity.
  - reflexivity.
  - right. exists "now". reflexivity.
  - intros j other Hj _. destruct j as [|[|j]]; simpl in Hj.
    + injection Hj as <-. vm_compute. split; discriminate.
    + injection Hj as <-. split; [reflexivity|]. intros _. lia.
    + discriminate Hj.
  - vm_compute. discriminate.
Defined.

(** C4, as stated, fails on ties: with one string registered twice, both
    registrations match with equal length, and the later one is selected
    and run, not the earlier. *)
Lemma legacy_tie_selects_latest :
  m_Commands twiceConsole = ["foo"; "foo"] /\
  boundaryPrefix "foo" "foo" /\
  legacyBestMatch (m_Commands twiceConsole) "foo" = 1 /\
  (submitCommand exampleSplit twiceConsole tt "foo").2 = Ok "second".
Proof.
  split; [reflexivity|]. split; [by left|]. split; reflexivity.
Qed.

Lemma prefix_bucket_dominates_witness :
  let st := mkCollected [false] [makeMatchInfo "lo" 0 0 "load"]
              [makeMatchInfo "lo" 0 1 "reload"] [[["load"]; ["reload"]]] in
  let front := makeMatchInfo "lo" 0 0 "load" in
  Forall (fun matchInfo =>
            pos matchInfo = 0 /\
            isPrefix "lo" (candidateLowered matchInfo) = true)
    (startsWith st) /\
  Forall (fun matchInfo =>
            0 < pos matchInfo /\ pos matchInfo <> npos /\
            isPrefix "lo" (candidateLowered matchInfo) = false)
    (inMiddle st) /\
  (exists logged,
     tokenStep tt [reloadCommand] false true 0 "lo" [true] [("lo", false)]
     = Ok (processBucket front (startsWith st) 0 (commandIsAlive st)
             [("lo", false)], logged)) /\
  (forall substringBucket,
     selectBucket (startsWith st) substringBucket 0 (commandIsAlive st)
       [("lo", false)] =
     processBucket front (startsWith st) 0 (commandIsAlive st) [("lo", false)]) /\
  (forall cmdID,
     (processBucket front (startsWith st) 0 (commandIsAlive st)
        [("lo", false)]).1 !! cmdID = Some true ->
     commandIsAlive st !! cmdID = Some true \/
     exists matchInfo,
       In matchInfo (startsWith st) /\ commandID matchInfo = cmdID).
Proof.
  apply (prefix_bucket_dominates tt [reloadCommand] false true 0 "lo" [true]
           [("lo", false)]
           (mkCollected [false] [makeMatchInfo "lo" 0 0 "load"]
              [makeMatchInfo "lo" 0 1 "reload"] [[["load"]; ["reload"]]])
           (makeMatchInfo "lo" 0 0 "load") []).
  - reflexivity.
  - reflexivity.
Defined.

Lemma prefix_completion_not_shorter_witness :
  exists alive' newTokens' logged tokenNew noLongerMatch',
    tokenStep tt [reloadCommand] false true 0 (lower "Lo") [true] [("Lo", false)]
      = Ok (alive', newTokens', logged) /\
    newTokens' !! 0%nat = Some (tokenNew, noLongerMatch') /\
    size "Lo" <= size tokenNew.
Proof.
  apply (prefix_completion_not_shorter tt [reloadCommand] false true 0 "Lo"
           false [true] [("Lo", false)]
           (mkCollected [false] [makeMatchInfo "lo" 0 0 "load"]
              [makeMatchInfo "lo" 0 1 "reload"] [[["load"]; ["reload"]]])).
  - reflexivity.
  - discriminate.
  - reflexivity.
Defined.

(** C5, as stated, fails: no candidate starts with "ave", the substring
    bucket holds "save" and "shave", their common start has length one, and
    the token typed is rewritten to the shorter "s". *)
Lemma substring_completion_shortens :
  tokenStep tt [shaveCommand] false false 0 "ave" [true] [("ave", false)]
    = Ok ([true], [("s", false)], []) /\
  autoComplete tt [shaveCommand] "ave" false false true = Ok ("s", []) /\
  size "s" < size "ave".
Proof. split; [reflexivity|]. split; reflexivity. Qed.

Lemma autoComplete_idempotent_witness :
  exists line logged',
    autoComplete_with std_sort tt [reloadCommand] "lo" false false true
      = Ok (line, []) /\
    autoComplete_with std_sort tt [reloadCommand] line false false true
      = Ok (line, logged').
Proof.
  apply (autoComplete_idempotent std_sort tt [reloadCommand] "lo" false false
           [("load", true)] []).
  - apply std_sort_sorts.
  - intros command generator group alias Hc Hg Hgroup Halias.
    simpl in Hc. destruct Hc as [<-|[]].
    simpl in Hg. destruct Hg as [<-|[]].
    simpl in Hgroup. destruct Hgroup as [<-|[<-|[]]];
      simpl in Halias; destruct Halias as [<-|[]];
      (split; [reflexivity|vm_compute; reflexivity]).
  - intros command generator group alias other Hc Hg Hgroup Halias Hother _.
    simpl in Hc. destruct Hc as [<-|[]].
    simpl in Hg. destruct Hg as [<-|[]].
    simpl in Hgroup. destruct Hgroup as [<-|[<-|[]]];
      simpl in Halias, Hother;
      destruct Halias as [<-|[]]; destruct Hother as [<-|[]]; reflexivity.
  - reflexivity.
  - vm_compute. constructor; [right; reflexivity|constructor].
Defined.

(** C6, as stated, fails when an alias holds a space: "lo" is completed to
    the alias "load game", flagged as having no longer candidate; the line
    written is read as two tokens the next time, and a third is written. *)
Lemma autoComplete_alias_with_space :
  completedTokens tt [loadGameCommand] "lo" false false
    = Ok ([("load game", true)], []) /\
  autoComplete tt [loadGameCommand] "lo" false false true
    = Ok ("load game ", []) /\
  autoComplete tt [loadGameCommand] "load game " false false true
    = Ok ("load game game ", []) /\
  trimRight "load game game " <> trimRight "load game ".
Proof.
  split; [reflexivity|]. split; [reflexivity|]. split; [reflexivity|].
  vm_compute. discriminate.
Qed.

(** The hypothesis of C6 (amended) on letter case is needed.  The aliases
    "Xk" and "xk" of one group differ in the case of a letter only; for the
    token "x" the three aliases are equivalent, [sort_by_range] puts "xk" in
    front and the line becomes "xk ", flagged as having no longer
    candidate; for the token "xk" the alias "xa" has the position [npos],
    [sort_by_range] puts "Xk" in front of "xk" and the line becomes "Xk ". *)
Lemma autoComplete_case_variants :
  sorts sort_by_range /\
  aliasesClean tt [caseCommand] /\
  completedTokens_with sort_by_range tt [caseCommand] "x" false false
    = Ok ([("xk", true)], []) /\
  autoComplete_with sort_by_range tt [caseCommand] "x" false false true
    = Ok ("xk ", []) /\
  autoComplete_with sort_by_range tt [caseCommand] "xk " false false true
    = Ok ("Xk ", []).
Proof.
  split; [apply sort_by_range_sorts|].
  split; [|split; [reflexivity|split; reflexivity]].
  intros command generator group alias Hc Hg Hgroup Halias.
  simpl in Hc. destruct Hc as [<-|[]].
  simpl in Hg. destruct Hg as [<-|[]].
  simpl in Hgroup. destruct Hgroup as [<-|[]].
  simpl in Halias. destruct Halias as [<-|[<-|[<-|[]]]];
    (split; [reflexivity|vm_compute; reflexivity]).
Qed.

(** C9, as stated, fails where it calls the empty line a no-op: while an
    entry of the history is shown, submitting the empty line sets the
    history index to -1 and clears the pending line, and the Down key no
    longer brings the pending line back. *)
Lemma submitCommand_empty_resets_navigation :
  let c := browsingConsole.1 in
  let c' := (submitCommand exampleSplit c tt "").1.1 in
  (m_HistoryIndex c = 0 /\ m_PendingLine c = "abc") /\
  (m_HistoryIndex c' = -1 /\ m_PendingLine c' = "") /\
  m_TypedLine (onKeyDown exampleSplit c tt GLFW_KEY_DOWN).1.1.1 = "abc" /\
  m_TypedLine (onKeyDown exampleSplit c' tt GLFW_KEY_DOWN).1.1.1 = "foo".
Proof. repeat split; reflexivity. Qed.

Lemma determineCommand_too_short_witness :
  determineCommand tt [loadCommand; saveCommand] [] = ([], Ok (-1)).
Proof.
  apply (determineCommand_too_short tt [loadCommand; saveCommand] []).
  repeat constructor.
Defined.

Lemma submitCommand_empty_line_witness :
  (submitCommand exampleSplit Console_new tt "foo").2 = Ok "NOTFOUND" /\
  m_Output (submitCommand exampleSplit Console_new tt "foo").1.1 =
    " -- Command not found -- " :: (" >> " +:+ "foo")
      :: m_Output (@Console_new unit).
Proof.
  apply (proj2 (submitCommand_empty_line exampleSplit Console_new tt) "foo").
  - discriminate.
  - reflexivity.
  - vm_compute. reflexivity.
Defined.

Lemma autoComplete_keeps_input_witness :
  exists logged,
    autoComplete tt [reloadCommand] "lo" true true false = Ok ("lo", logged).
Proof.
  apply (proj2 (autoComplete_keeps_input tt [reloadCommand] "lo" true true)).
  right. repeat constructor.
Defined.

Lemma determineCommand_sound_witness :
  exists k command,
    1 = Z.of_nat k /\ [loadCommand; saveCommand] !! k = Some command /\
    fixedTokensMatch tt command ["save"; "x"] /\
    forall j earlier, (j < k)%nat ->
      [loadCommand; saveCommand] !! j = Some earlier ->
      ~ fixedTokensMatch tt earlier ["save"; "x"].
Proof.
  apply (determineCommand_sound tt [loadCommand; saveCommand] ["save"; "x"]
           [(0, 0); (1, 0)]%nat 1).
  - vm_compute. discriminate.
  - reflexivity.
  - discriminate.
Defined.

Lemma determineCommand_not_found_witness :
  (determineCommand tt [loadCommand; saveCommand] ["quit"]).2 = Ok (-1) <->
  forall command, In command [loadCommand; saveCommand] ->
    ~ fixedTokensMatch tt command ["quit"].
Proof.
  apply (determineCommand_not_found tt [loadCommand; saveCommand] ["quit"]).
  - vm_compute. discriminate.
  - repeat constructor; unfold arity_ok; simpl; lia.
Defined.

Lemma submitCommand_arity_violation_witness :
  submitCommand exampleSplit brokenConsole tt "load x" =
    (outputAdd
       (set_PendingLine
          (set_HistoryIndex
             (set_History brokenConsole
                (historyPush (m_History brokenConsole) "load x")) (-1)) "")
       (" >> " +:+ "load x"),
     tt, Throw std_out_of_range).
Proof.
  apply (submitCommand_arity_violation exampleSplit brokenConsole tt "load x" 1
           (mkConsoleCommand [constGenerator [["load"]]] okCallback 2)).
  - discriminate.
  - reflexivity.
  - simpl. lia.
  - simpl. lia.
  - intros j earlier Hj Hl. assert (j = 0%nat) as -> by lia.
    simpl in Hl. injection Hl as <-. split.
    + unfold arity_ok. simpl. lia.
    + intros Hm. destruct (Hm 0%nat) as (gen & tok & grp & Hg & Ht & Hgr & Hin).
      { simpl. lia. }
      simpl in Hg, Ht. injection Hg as <-. injection Ht as <-.
      simpl in Hgr. destruct Hgr as [<-|[]].
      simpl in Hin. destruct Hin as [H|[]]. discriminate H.
Defined.

Lemma determineCommand_ignores_arguments_witness :
  determineCommand tt [loadCommand; saveCommand] (["save"] ++ ["x"; "y"]) =
  determineCommand tt [loadCommand; saveCommand] ["save"].
Proof.
  apply (determineCommand_ignores_arguments tt [loadCommand; saveCommand]
           ["save"] ["x"; "y"]).
  repeat constructor.
Defined.

Lemma legacyBestMatch_sound_witness :
  (legacyBestMatch ["load"; "load game"] "load game now" = -1 <->
   forall candidate, In candidate ["load"; "load game"] ->
     ~ boundaryPrefix candidate "load game now") /\
  (forall i, legacyBestMatch ["load"; "load game"] "load game now" = Z.of_nat i ->
     exists candidate,
       ["load"; "load game"] !! i = Some candidate /\
       boundaryPrefix candidate "load game now" /\
       forall j other, ["load"; "load game"] !! j = Some other ->
         boundaryPrefix other "load game now" ->
         size other <= size candidate /\
         (size other = size candidate -> (j <= i)%nat)).
Proof.
  apply (legacyBestMatch_sound ["load"; "load game"] "load game now").
  vm_compute. discriminate.
Defined.

Lemma submitCommand_runs_callback_witness :
  let c1 :=
    foldl outputAdd
      (outputAdd
         (set_PendingLine
            (set_HistoryIndex
               (set_History failConsole
                  (historyPush (m_History failConsole) "fail")) (-1)) "")
         (" >> " +:+ "fail")) ["about to fail"] in
  submitCommand exampleSplit failConsole tt "fail" =
    (outputAdd c1 "error: invalid argument", tt, Ok "error: invalid argument").
Proof.
  apply (submitCommand_runs_callback exampleSplit failConsole tt "fail" 1
           failCommand failCallback tt ["about to fail"]
           (Throw std_invalid_argument)).
  - discriminate.
  - reflexivity.
  - reflexivity.
  - reflexivity.
  - reflexivity.
Defined.

Lemma submitted_line_recalled_witness :
  let st := (submitCommand exampleSplit Console_new tt "foo").1 in
  onKeyDown exampleSplit st.1 st.2 GLFW_KEY_UP =
    (set_TypedLine
       (set_HistoryIndex
          (set_PendingLine st.1 (m_TypedLine (@Console_new unit))) 0) "foo",
     st.2, [], Ok ()).
Proof.
  apply (submitted_line_recalled exampleSplit Console_new tt "foo").
  - vm_compute. reflexivity.
  - reflexivity.
  - vm_compute. reflexivity.
Defined.

Lemma listCommands_prints_registry_witness :
  (listCommands tt [loadCommand; saveCommand] Console_new).2 = Ok "" /\
  m_Output (listCommands tt [loadCommand; saveCommand] Console_new).1 =
    rev (map (listLine tt) [loadCommand; saveCommand])
      ++ m_Output (@Console_new unit) /\
  sameButOutput Console_new
    (listCommands tt [loadCommand; saveCommand] Console_new).1.
Proof.
  apply (listCommands_prints_registry tt [loadCommand; saveCommand] Console_new).
  repeat constructor; discriminate.
Defined.

Lemma listCommands_empty_group_witness :
  listCommands tt [loadCommand; emptyGroupCommand; saveCommand] Console_new =
    (foldl outputAdd Console_new
       (map (listLine tt)
          (take 1 [loadCommand; emptyGroupCommand; saveCommand])),
     Throw undefined_behaviour).
Proof.
  apply (listCommands_empty_group tt
           [loadCommand; emptyGroupCommand; saveCommand] Console_new 1
           emptyGroupCommand).
  - reflexivity.
  - intros j earlier Hj Hl. assert (j = 0%nat) as -> by lia.
    simpl in Hl. injection Hl as <-. repeat constructor; discriminate.
  - constructor. simpl. auto.
Defined.

Lemma submit_list_prints_registry_witness :
  let st := run exampleSplit (Console_new, tt) [registerLoadGame] in
  exists c',
    submitCommand exampleSplit st.1 st.2 "list" = (c', st.2, Ok "") /\
    m_Output c' =
      "" :: rev (map (listLine st.2) (m_Commands2 st.1))
         ++ " >> list" :: m_Output st.1.
Proof.
  apply (submit_list_prints_registry exampleSplit tt [registerLoadGame]).
  - reflexivity.
  - repeat constructor; discriminate.
Defined.

Lemma up_shows_older_entries_witness :
  let n := Nat.min 3 (length (m_History typingConsole.1)) in
  exists entry,
    m_History typingConsole.1
      !! (length (m_History typingConsole.1) - n)%nat = Some entry /\
    run exampleSplit (typingConsole.1, tt)
      (replicate 3 (CallKeyDown GLFW_KEY_UP)) =
      (browsing typingConsole.1 n entry, tt).
Proof.
  apply (up_shows_older_entries exampleSplit typingConsole.1 tt 3).
  - reflexivity.
  - vm_compute. discriminate.
  - discriminate.
  - lia.
Defined.

Lemma up_down_round_trip_witness :
  run exampleSplit (typingConsole.1, tt)
    (replicate 3 (CallKeyDown GLFW_KEY_UP)
     ++ replicate 3 (CallKeyDown GLFW_KEY_DOWN)) =
  (set_PendingLine typingConsole.1 (m_TypedLine typingConsole.1), tt).
Proof.
  apply (up_down_round_trip exampleSplit typingConsole.1 tt 3).
  - reflexivity.
  - vm_compute. discriminate.
  - discriminate.
  - lia.
Defined.

Lemma history_keys_never_throw_witness :
  let st := run exampleSplit (Console_new, tt)
              [CallKeyDown GLFW_KEY_DOWN; CallSubmitCommand "foo"] in
  (onKeyDown exampleSplit st.1 st.2 GLFW_KEY_UP).2 = Ok ().
Proof.
  apply (history_keys_never_throw exampleSplit tt
           [CallKeyDown GLFW_KEY_DOWN; CallSubmitCommand "foo"] GLFW_KEY_UP).
  - vm_compute. discriminate.
  - by left.
Defined.

Lemma autoComplete_blank_line_witness :
  autoComplete tt [loadCommand; saveCommand] "   " false true true =
    Ok ("   ", []) /\
  forall c, m_TypedLine c = "   " ->
    onKeyDown exampleSplit c tt GLFW_KEY_TAB = (c, tt, [], Ok ()).
Proof.
  apply (autoComplete_blank_line exampleSplit tt [loadCommand; saveCommand]
           "   " false true true).
  reflexivity.
Defined.

Lemma autoComplete_no_match_witness :
  exists last logged,
    back "quit  now " = Ok last /\
    autoComplete tt [loadCommand; saveCommand] "quit  now " false true true =
      Ok (String.concat " " ["quit"; "now"]
          +:+ (if isspace last then " " else ""), logged).
Proof.
  apply (autoComplete_no_match tt [loadCommand; saveCommand] "quit  now "
           "quit" ["now"] false true).
  - by left.
  - reflexivity.
  - intros command generator group alias Hc Hg Hgr Ha.
    destruct Hc as [<-|[<-|[]]]; simpl in Hg; injection Hg as <-;
      simpl in Hgr; destruct Hgr as [<-|[]]; simpl in Ha;
      repeat (destruct Ha as [<-|Ha]; [vm_compute; reflexivity|]);
      destruct Ha.
Defined.

Lemma autoComplete_single_candidate_witness :
  exists logged,
    autoComplete tt [loadCommand; saveCommand] "LO" false true true =
      Ok (candidate (makeMatchInfo "lo" 0 0 "load") +:+ " ", logged).
Proof.
  apply (autoComplete_single_candidate tt [loadCommand; saveCommand] "LO" "LO"
           false true
           (mkCollected [false; false] [makeMatchInfo "lo" 0 0 "load"] []
              [[["load"; "ld"]]; [["save"]]])
           (makeMatchInfo "lo" 0 0 "load") []).
  - reflexivity.
  - vm_compute. reflexivity.
  - reflexivity.
  - constructor.
Defined.

Lemma printOutput_newest_lines_witness :
  printOutput smallConsole =
    imap (fun k s =>
            mkDbgText 0 (GLOBAL_Y + m_Config_height smallConsole - Z.of_nat k) 15
              "| %s" (c_str s))
      (take (Z.to_nat (m_Config_height smallConsole)) (m_Output smallConsole)).
Proof.
  apply (printOutput_newest_lines smallConsole).
  - vm_compute. discriminate.
  - reflexivity.
Defined.

Lemma prefix_completion_common_prefix_witness :
  let st := mkCollected [false]
              [makeMatchInfo "s" 0 0 "save"; makeMatchInfo "s" 0 1 "shave"] []
              [[["save"]; ["shave"]]] in
  let front := makeMatchInfo "s" 0 0 "save" in
  exists alive' logged tokenNew noLongerMatch,
    tokenStep tt [shaveCommand] false true 0 "s" [true] [("S", false)] =
      Ok (alive', <[0%nat := (tokenNew, noLongerMatch)]> [("S", false)], logged) /\
    isPrefix tokenNew (candidate front) = true /\
    Forall (fun matchInfo =>
              isPrefix (lower tokenNew) (candidateLowered matchInfo) = true)
      (startsWith st) /\
    (forall n, 0 <= n <= size (candidate front) ->
       Forall (fun matchInfo =>
                 isPrefix (substr0 (candidateLowered front) n)
                   (candidateLowered matchInfo) = true)
         (startsWith st) ->
       n <= size tokenNew) /\
    (noLongerMatch = true <->
     Forall (fun matchInfo => candidateLowered matchInfo = lower tokenNew)
       (startsWith st)).
Proof.
  apply (prefix_completion_common_prefix tt [shaveCommand] false true 0 "s"
           [true] [("S", false)]
           (mkCollected [false]
              [makeMatchInfo "s" 0 0 "save"; makeMatchInfo "s" 0 1 "shave"] []
              [[["save"]; ["shave"]]])
           (makeMatchInfo "s" 0 0 "save") [makeMatchInfo "s" 0 1 "shave"]).
  - vm_compute. reflexivity.
  - reflexivity.
  - discriminate.
Defined.

Lemma group_best_match_witness :
  exists bestMatch alias,
    at_ (std_sort (map (makeMatchInfo "lo" 0 0) ["reload"; "load"; "ld"])) 0 =
      Ok bestMatch /\
    In alias ["reload"; "load"; "ld"] /\
    bestMatch = makeMatchInfo "lo" 0 0 alias /\
    forall other, In other ["reload"; "load"; "ld"] ->
      pos bestMatch < pos (makeMatchInfo "lo" 0 0 other) \/
      (pos bestMatch = pos (makeMatchInfo "lo" 0 0 other) /\
       notMatchingCharCount bestMatch <=
       notMatchingCharCount (makeMatchInfo "lo" 0 0 other)).
Proof.
  apply (group_best_match "lo" 0 0 ["reload"; "load"; "ld"]).
  discriminate.
Defined.

Lemma legacy_callback_registered_witness :
  let c := (run exampleSplit (Console_new, tt) registerLoads).1 in
  exists cb,
    at_ (m_CommandCallbacks c)
      (Z.to_nat (size_t_of_int (legacyBestMatch (m_Commands c) "load game now")))
      = Ok cb.
Proof.
  apply (proj2 (legacy_callback_registered exampleSplit tt registerLoads)
           "load game now").
  - vm_compute. discriminate.
  - vm_compute. discriminate.
Defined.

Lemma backspace_erases_typed_text_witness :
  run exampleSplit (typingConsole.1, tt)
    (replicate 5 (CallKeyDown GLFW_KEY_BACKSPACE)) =
  (set_TypedLine typingConsole.1 "", tt).
Proof.
  apply (proj2 (backspace_erases_typed_text exampleSplit typingConsole.1 tt) 5%nat).
  simpl. lia.
Defined.

Lemma autoComplete_arity_violation_witness :
  autoComplete tt [loadCommand; noGeneratorCommand] "x" true false true =
    Throw undefined_behaviour.
Proof.
  apply (autoComplete_arity_violation tt [loadCommand; noGeneratorCommand] "x"
           "x" [] 1 noGeneratorCommand false true).
  - reflexivity.
  - reflexivity.
  - reflexivity.
  - simpl. lia.
  - intros j earlier Hj Hl. assert (j = 0%nat) as -> by lia.
    simpl in Hl. injection Hl as <-. unfold arity_ok. simpl. lia.
Defined.
